(** * Process monitoring tool: tree discovery, queries and signal dispatch

    A shallow embedding of [Banking_Management_System_Linux.c] (the process
    monitoring system) and the properties of its tree builder, its query
    functions and its action functions.

    Modelling conventions.
    - A C [int] holding a process id is a [Z]; the program only compares
      ids, it never does arithmetic on them.
    - The heap of [ProcessNode]s is an arena: every node is created by
      [create_node] and stored at once by [add_to_collection], so a
      [ProcessNode*] is the index of the node in [collection->nodes], and
      [NULL] is [None].
    - Growth of the [children] and [nodes] arrays ([realloc]) is not
      modelled: a failed allocation exits the program, a successful one
      is invisible.  [free] is not modelled either.
    - The result buffer of a command is the block allocated by
      [init_result]; a store beyond its capacity is a fault.
    - Recursion and [while] loops over pointers take a [fuel] argument.
    - The process table is one snapshot: [opendir] and [fopen] answer the
      same at every call, so a run that has no file descriptor left deep in
      the recursion of [discover_children] is not modelled. *)

From stdpp Require Import base option list numbers strings pretty gmap.

(** ** Faults and the two monads of the model *)

(** What can go wrong in a run of the model: the fuel of a recursion runs
    out, a pointer that is not a node of the arena is dereferenced, or
    [result_ids] is written at an index outside the allocated block. *)
Inductive fault :=
| OutOfFuel
| WildPointer
| OutOfBounds (index : nat).

Inductive outcome (A : Type) :=
| Ok (a : A)
| Err (e : fault).
Arguments Ok {A} a.
Arguments Err {A} e.

#[global] Instance outcome_ret : MRet outcome := @Ok.
#[global] Instance outcome_bind : MBind outcome := λ A B f m,
  match m with
  | Ok a => f a
  | Err e => Err e
  end.
#[global] Instance outcome_fmap : FMap outcome := λ A B f m,
  match m with
  | Ok a => Ok (f a)
  | Err e => Err e
  end.

(** The signals the tool sends, and what a run does to the outside world:
    lines printed on standard output and signals handed to [kill]. *)
Inductive signal := SIGKILL | SIGSTOP | SIGCONT.

Inductive event :=
| Printed (line : string)
| Signalled (pid : Z) (sig : signal).

Inductive run (A : Type) :=
| Done (a : A) (trace : list event)
| Crash (e : fault).
Arguments Done {A} a trace.
Arguments Crash {A} e.

#[global] Instance run_ret : MRet run := λ A a, Done a [].
#[global] Instance run_bind : MBind run := λ A B f m,
  match m with
  | Done a t =>
      match f a with
      | Done b t' => Done b (t ++ t')
      | Crash e => Crash e
      end
  | Crash e => Crash e
  end.

Definition lift {A} (m : outcome A) : run A :=
  match m with
  | Ok a => Done a []
  | Err e => Crash e
  end.

(** A [for] loop over a sequence, threading the loop state. *)
Section for_each.
Context {M : Type → Type} `{!MBind M, !MRet M} {A S : Type}.

Fixpoint for_each (body : S → A → M S) (s : S) (l : list A) : M S :=
  match l with
  | [] => mret s
  | x :: l' => s' ← body s x; for_each body s' l'
  end.
End for_each.

(** ** Data structures *)

Record ProcessMetadata := mkMetadata {
  id : Z;
  parent_id : Z;
  defunct_flag : bool
}.

Record ProcessNode := mkNode {
  data : ProcessMetadata;
  parent : option nat;
  children : list nat
}.

Record ProcessCollection := mkCollection {
  nodes : list ProcessNode;
  root : option nat
}.

(** [child_count] and [size] are the lengths of the two arrays. *)
Definition child_count (n : ProcessNode) : nat := length (children n).
#[global] Instance collection_size : Size ProcessCollection := λ c, length (nodes c).

(** The pids stored in a sequence of nodes. *)
Definition ids (ns : list ProcessNode) : list Z := (λ n, id (data n)) <$> ns.

Definition deref (ns : list ProcessNode) (p : nat) : outcome ProcessNode :=
  match ns !! p with
  | Some n => Ok n
  | None => Err WildPointer
  end.

(** ** Process node functions *)

Definition create_node (pid ppid : Z) (zombie_status : bool) : ProcessNode :=
  {| data := {| id := pid; parent_id := ppid; defunct_flag := zombie_status |};
     parent := None;
     children := [] |}.

Definition push_child (child : nat) (n : ProcessNode) : ProcessNode :=
  {| data := data n; parent := parent n; children := children n ++ [child] |}.

Definition set_parent (p : nat) (n : ProcessNode) : ProcessNode :=
  {| data := data n; parent := Some p; children := children n |}.

(** [parent->children[parent->child_count++] = child; child->parent = parent].
    Wherever [add_child] is called both pointers are nodes of the collection. *)
Definition add_child (c : ProcessCollection) (parent child : nat) : ProcessCollection :=
  {| nodes := alter (set_parent parent) child (alter (push_child child) parent (nodes c));
     root := root c |}.

(** ** Process collection functions *)

Definition init_collection (initial_capacity : nat) : ProcessCollection :=
  {| nodes := []; root := None |}.

(** The node lands at index [size c], which is its address from then on. *)
Definition add_to_collection (c : ProcessCollection) (node : ProcessNode) : ProcessCollection :=
  {| nodes := nodes c ++ [node]; root := root c |}.

Definition set_root (c : ProcessCollection) (r : nat) : ProcessCollection :=
  {| nodes := nodes c; root := Some r |}.

(** The first node of the collection with the given pid. *)
Definition find_node_by_pid (c : ProcessCollection) (pid : Z) : option nat :=
  fst <$> list_find (λ n, id (data n) = pid) (nodes c).

(** ** Process data functions *)

(** One entry of the [/proc] directory as [discover_children] sees it:
    whether [d_type] is [DT_DIR], and [atoi (d_name)]. *)
Record dirent := mkDirent {
  d_is_dir : bool;
  d_name : Z
}.

(** The process table at the time of the run: the entries [readdir] yields
    on [/proc], in order, and for a pid what [/proc/<pid>/status] holds, the
    parent pid and whether the state line has a [Z]; [None] when the file
    cannot be opened.  A [/proc] that cannot be opened behaves like one
    without entries. *)
Record ProcSnapshot := mkSnapshot {
  proc_dir : list dirent;
  proc_status : Z → option (Z * bool)
}.

Definition fetch_process_data (snap : ProcSnapshot) (pid : Z) : option ProcessMetadata :=
  match proc_status snap pid with
  | Some (ppid, zombie) => Some {| id := pid; parent_id := ppid; defunct_flag := zombie |}
  | None => None
  end.

(** ** Tree building functions *)

(** The body of the [readdir] loop of [discover_children]; [recurse] is the
    recursive call. *)
Definition scan_entry (recurse : ProcessCollection → Z → outcome ProcessCollection)
    (snap : ProcSnapshot) (parent_pid : Z)
    (c : ProcessCollection) (entry : dirent) : outcome ProcessCollection :=
  if d_is_dir entry then
    let pid := d_name entry in
    if bool_decide (0 < pid)%Z then
      match fetch_process_data snap pid with
      | Some proc_data =>
          if bool_decide (parent_id proc_data = parent_pid) then
            match find_node_by_pid c pid with
            | Some _ => Ok c
            | None =>
                let node := size c in
                let c := add_to_collection c
                           (create_node pid (parent_id proc_data) (defunct_flag proc_data)) in
                let c := match find_node_by_pid c parent_pid with
                         | Some parent => add_child c parent node
                         | None => c
                         end in
                recurse c pid
            end
          else Ok c
      | None => Ok c
      end
    else Ok c
  else Ok c.

Fixpoint discover_children (fuel : nat) (snap : ProcSnapshot)
    (c : ProcessCollection) (parent_pid : Z) : outcome ProcessCollection :=
  match fuel with
  | O => Err OutOfFuel
  | S fuel' =>
      for_each (scan_entry (discover_children fuel' snap) snap parent_pid) c (proc_dir snap)
  end.

(** The first half of [build_process_hierarchy]: add the root, discover. *)
Definition discover_from_root (fuel : nat) (snap : ProcSnapshot)
    (c : ProcessCollection) (root_pid : Z) : outcome ProcessCollection :=
  match fetch_process_data snap root_pid with
  | Some root_data =>
      let root := size c in
      let c := add_to_collection c
                 (create_node root_pid (parent_id root_data) (defunct_flag root_data)) in
      let c := set_root c root in
      discover_children fuel snap c root_pid
  | None => Ok c
  end.

(** The body of the linking loop that ends [build_process_hierarchy]. *)
Definition link_node (root_pid : Z) (c : ProcessCollection) (i : nat) : outcome ProcessCollection :=
  node ← deref (nodes c) i;
  if bool_decide (id (data node) ≠ root_pid) then
    match find_node_by_pid c (parent_id (data node)), parent node with
    | Some parent, None => Ok (add_child c parent i)
    | _, _ => Ok c
    end
  else Ok c.

Definition link_all_nodes (root_pid : Z) (c : ProcessCollection) : outcome ProcessCollection :=
  for_each (link_node root_pid) c (seq 0 (size c)).

Definition build_process_hierarchy (fuel : nat) (snap : ProcSnapshot)
    (c : ProcessCollection) (root_pid : Z) : outcome ProcessCollection :=
  c ← discover_from_root fuel snap c root_pid;
  link_all_nodes root_pid c.

(** ** Query functions *)

(** The block [init_result] allocates holds 1000 ints. *)
Definition RESULT_CAPACITY : nat := 1000.
Arguments RESULT_CAPACITY : simpl never.

(** [result_ids] is the written prefix of the block, [result_capacity] the
    number of ints the block was allocated for; the cells from [count] on
    are never read. *)
Record CommandResult := mkResult {
  result_ids : list Z;
  result_capacity : nat;
  empty_message : option string
}.

Definition count (r : CommandResult) : nat := length (result_ids r).

Definition init_result (empty_message : option string) : CommandResult :=
  {| result_ids := []; result_capacity := RESULT_CAPACITY; empty_message := empty_message |}.

(** [result_ids[count++] = x]: a fault when [count] is not an index of the
    block. *)
Definition store_result (r : CommandResult) (x : Z) : outcome CommandResult :=
  if bool_decide (count r < result_capacity r) then
    Ok {| result_ids := result_ids r ++ [x];
          result_capacity := result_capacity r;
          empty_message := empty_message r |}
  else Err (OutOfBounds (count r)).

Definition count_zombies (c : ProcessCollection) : nat :=
  foldl (λ count n, if defunct_flag (data n) then S count else count) 0 (nodes c).

Definition get_direct_descendants (c : ProcessCollection) (pid : Z) : outcome CommandResult :=
  let result := init_result (Some "No direct descendants") in
  match find_node_by_pid c pid with
  | Some node =>
      n ← deref (nodes c) node;
      for_each (λ result i,
                  child ← deref (nodes c) i;
                  store_result result (id (data child)))
               result (children n)
  | None => Ok result
  end.

Definition get_grandchildren (c : ProcessCollection) (pid : Z) : outcome CommandResult :=
  let result := init_result (Some "No grandchildren") in
  match find_node_by_pid c pid with
  | Some node =>
      n ← deref (nodes c) node;
      for_each (λ result i,
                  child ← deref (nodes c) i;
                  for_each (λ result j,
                              grandchild ← deref (nodes c) j;
                              store_result result (id (data grandchild)))
                           result (children child))
               result (children n)
  | None => Ok result
  end.

Fixpoint collect_indirect_descendants (fuel : nat) (ns : list ProcessNode)
    (node : nat) (result : CommandResult) : outcome CommandResult :=
  match fuel with
  | O => Err OutOfFuel
  | S fuel' =>
      n ← deref ns node;
      for_each (λ result i,
                  child ← deref ns i;
                  for_each (λ result j,
                              grandchild ← deref ns j;
                              result ← store_result result (id (data grandchild));
                              collect_indirect_descendants fuel' ns j result)
                           result (children child))
               result (children n)
  end.

Definition get_indirect_descendants (fuel : nat) (c : ProcessCollection) (pid : Z)
    : outcome CommandResult :=
  let result := init_result (Some "No non-direct descendants") in
  match find_node_by_pid c pid with
  | Some node => collect_indirect_descendants fuel (nodes c) node result
  | None => Ok result
  end.

Definition get_siblings (c : ProcessCollection) (pid : Z) : outcome CommandResult :=
  let result := init_result (Some "No sibling/s") in
  match find_node_by_pid c pid with
  | Some node =>
      n ← deref (nodes c) node;
      match parent n with
      | Some p =>
          pn ← deref (nodes c) p;
          for_each (λ result i,
                      sibling ← deref (nodes c) i;
                      if bool_decide (id (data sibling) ≠ pid)
                      then store_result result (id (data sibling))
                      else Ok result)
                   result (children pn)
      | None => Ok result
      end
  | None => Ok result
  end.

Definition get_defunct_siblings (c : ProcessCollection) (pid : Z) : outcome CommandResult :=
  let result := init_result (Some "No defunct sibling/s") in
  match find_node_by_pid c pid with
  | Some node =>
      n ← deref (nodes c) node;
      match parent n with
      | Some p =>
          pn ← deref (nodes c) p;
          for_each (λ result i,
                      sibling ← deref (nodes c) i;
                      if bool_decide (id (data sibling) ≠ pid) && defunct_flag (data sibling)
                      then store_result result (id (data sibling))
                      else Ok result)
                   result (children pn)
      | None => Ok result
      end
  | None => Ok result
  end.

Fixpoint collect_defunct_descendants (fuel : nat) (ns : list ProcessNode)
    (node : nat) (result : CommandResult) : outcome CommandResult :=
  match fuel with
  | O => Err OutOfFuel
  | S fuel' =>
      n ← deref ns node;
      for_each (λ result i,
                  child ← deref ns i;
                  result ← (if defunct_flag (data child)
                            then store_result result (id (data child))
                            else Ok result);
                  collect_defunct_descendants fuel' ns i result)
               result (children n)
  end.

Definition get_defunct_descendants (fuel : nat) (c : ProcessCollection) (pid : Z)
    : outcome CommandResult :=
  let result := init_result (Some "No descendant zombie process/es") in
  match find_node_by_pid c pid with
  | Some node => collect_defunct_descendants fuel (nodes c) node result
  | None => Ok result
  end.

(** ** Action functions *)

(** [printf] of one line, and [kill]: the operating system answers with a
    status ([0] or [-1]) that depends on the process and the signal. *)
Definition printf (line : string) : run unit := Done () [Printed line].

Definition kill (os : Z → signal → Z) (pid : Z) (sig : signal) : run Z :=
  Done (os pid sig) [Signalled pid sig].

(** The [while (parent)] loop of [signal_all_descendants], for one node
    [current]: walk up from [parent], signal and record [current] at the
    first ancestor whose id is [pid], and stop there. *)
Fixpoint signal_if_descendant (fuel : nat) (os : Z → signal → Z) (ns : list ProcessNode)
    (current : ProcessNode) (parent_ptr : option nat) (pid : Z) (signal_type : signal)
    (result : CommandResult) : run CommandResult :=
  match parent_ptr with
  | None => mret result
  | Some p =>
      match fuel with
      | O => Crash OutOfFuel
      | S fuel' =>
          pn ← lift (deref ns p);
          if bool_decide (id (data pn) = pid) then
            _ ← kill os (id (data current)) signal_type;
            lift (store_result result (id (data current)))
          else
            signal_if_descendant fuel' os ns current (parent pn) pid signal_type result
      end
  end.

Definition signal_all_descendants (fuel : nat) (os : Z → signal → Z)
    (c : ProcessCollection) (pid : Z) (signal_type : signal) : run CommandResult :=
  let result := init_result None in
  match find_node_by_pid c pid with
  | Some _ =>
      for_each (λ result current,
                  signal_if_descendant fuel os (nodes c) current (parent current)
                                       pid signal_type result)
               result (nodes c)
  | None => mret result
  end.

Definition kill_zombie_parents (fuel : nat) (os : Z → signal → Z)
    (c : ProcessCollection) (pid : Z) : run CommandResult :=
  let result := init_result None in
  zombies ← lift (get_defunct_descendants fuel c pid);
  for_each (λ result z,
              match find_node_by_pid c z with
              | Some zombie =>
                  zn ← lift (deref (nodes c) zombie);
                  if bool_decide (1 < parent_id (data zn))%Z then
                    _ ← kill os (parent_id (data zn)) SIGKILL;
                    lift (store_result result (parent_id (data zn)))
                  else mret result
              | None => mret result
              end)
           result (result_ids zombies).

(** ** Command handler functions *)

(** Every handler gets the fuel for its traversals and the operating
    system's answers to [kill], next to the two arguments it has in C. *)
Definition CommandFunction : Type :=
  nat → (Z → signal → Z) → ProcessCollection → Z → run CommandResult.

Definition handle_count_defunct : CommandFunction := λ fuel os c pid,
  let result := init_result None in
  _ ← printf (pretty (count_zombies c));
  mret result.

Definition handle_non_direct_descendants : CommandFunction := λ fuel os c pid,
  lift (get_indirect_descendants fuel c pid).

Definition handle_immediate_descendants : CommandFunction := λ fuel os c pid,
  lift (get_direct_descendants c pid).

Definition handle_siblings : CommandFunction := λ fuel os c pid,
  lift (get_siblings c pid).

Definition handle_defunct_siblings : CommandFunction := λ fuel os c pid,
  lift (get_defunct_siblings c pid).

Definition handle_defunct_descendants : CommandFunction := λ fuel os c pid,
  lift (get_defunct_descendants fuel c pid).

Definition handle_grandchildren : CommandFunction := λ fuel os c pid,
  lift (get_grandchildren c pid).

Definition handle_process_status : CommandFunction := λ fuel os c pid,
  let result := init_result None in
  match find_node_by_pid c pid with
  | Some node =>
      n ← lift (deref (nodes c) node);
      _ ← printf (if defunct_flag (data n) then "Defunct" else "Not defunct");
      mret result
  | None => mret result
  end.

Definition handle_kill_zombie_parents : CommandFunction := λ fuel os c pid,
  kill_zombie_parents fuel os c pid.

Definition handle_kill_descendants : CommandFunction := λ fuel os c pid,
  signal_all_descendants fuel os c pid SIGKILL.

Definition handle_stop_descendants : CommandFunction := λ fuel os c pid,
  signal_all_descendants fuel os c pid SIGSTOP.

Definition handle_continue_descendants : CommandFunction := λ fuel os c pid,
  signal_all_descendants fuel os c pid SIGCONT.

Definition handle_kill_root : CommandFunction := λ fuel os c pid,
  let result := init_result None in
  match root c with
  | Some r =>
      rn ← lift (deref (nodes c) r);
      _ ← kill os (id (data rn)) SIGKILL;
      mret result
  | None => mret result
  end.

(** ** Command registry *)

Record CommandMapping := mkMapping {
  flag : string;
  handler : CommandFunction;
  description : string
}.

Definition command_registry : list CommandMapping :=
  [ mkMapping "-dc" handle_count_defunct "Count defunct descendants";
    mkMapping "-ds" handle_non_direct_descendants "List non-direct descendants";
    mkMapping "-id" handle_immediate_descendants "List immediate descendants";
    mkMapping "-lg" handle_siblings "List sibling processes";
    mkMapping "-lz" handle_defunct_siblings "List defunct sibling processes";
    mkMapping "-df" handle_defunct_descendants "List defunct descendants";
    mkMapping "-gc" handle_grandchildren "List grandchildren";
    mkMapping "-do" handle_process_status "Print process status";
    mkMapping "--pz" handle_kill_zombie_parents "Kill parents of zombie processes";
    mkMapping "-sk" handle_kill_descendants "Kill all descendants";
    mkMapping "-st" handle_stop_descendants "Stop all descendants";
    mkMapping "-dt" handle_continue_descendants "Continue all stopped descendants";
    mkMapping "-rp" handle_kill_root "Kill root process" ].

Definition find_command_handler (opt : string) : option CommandFunction :=
  handler <$> (snd <$> list_find (λ m, flag m = opt) command_registry).

(** ** Output functions *)

Definition display_results (result : CommandResult) : run unit :=
  match bool_decide (count result = 0), empty_message result with
  | true, Some message => printf message
  | _, _ => for_each (λ _ x, printf (pretty x)) () (result_ids result)
  end.

(** ** Main function *)

(** The command line: [argc], [argv[0]], [atoi (argv[1])], [atoi (argv[2])]
    and [argv[3]]; an entry at or beyond [argc] is never read. *)
Record cmdline := mkCmdline {
  argc : nat;
  argv0 : string;
  argv1 : Z;
  argv2 : Z;
  argv3 : string
}.

Definition main (fuel : nat) (os : Z → signal → Z) (snap : ProcSnapshot)
    (args : cmdline) : run Z :=
  if bool_decide (argc args < 3) then
    _ ← printf ("Usage: " +:+ argv0 args +:+ " [root_process] [target_process] [option]");
    mret 1%Z
  else
    let root_pid := argv1 args in
    let target_pid := argv2 args in
    processes ← lift (build_process_hierarchy fuel snap (init_collection 1000) root_pid);
    _ ← (if bool_decide (argc args = 3) then
           match find_node_by_pid processes target_pid with
           | Some node =>
               n ← lift (deref (nodes processes) node);
               printf (pretty (id (data n)) +:+ " " +:+ pretty (parent_id (data n)))
           | None => printf "Does not belong to the process tree"
           end
         else
           let opt := argv3 args in
           let handler := find_command_handler opt in
           if bool_decide (opt = "-rp") then
             result ← handle_kill_root fuel os processes root_pid;
             display_results result
           else
             match handler with
             | Some handler =>
                 match find_node_by_pid processes target_pid with
                 | Some _ =>
                     result ← handler fuel os processes target_pid;
                     display_results result
                 | None =>
                     printf ("The process " +:+ pretty target_pid
                             +:+ " does not belong to the tree rooted at "
                             +:+ pretty root_pid)
                 end
             | None => printf ("Invalid option: " +:+ opt)
             end);
    mret 0%Z.

(** ** Sample process tables *)

(** A snapshot from a list of records (pid, parent pid, zombie), each a
    directory of [/proc] in the order of the list. *)
Definition snapshot_of (l : list (Z * Z * bool)) : ProcSnapshot :=
  {| proc_dir := (λ r, mkDirent true r.1.1) <$> l;
     proc_status := λ pid, (λ r, (r.1.2, r.2)) <$> (snd <$> list_find (λ r, r.1.1 = pid) l) |}.

(** An operating system that answers every [kill] with an error. *)
Definition no_answer : Z → signal → Z := λ _ _, (-1)%Z.

(** A process table without any process. *)
Definition empty_table : ProcSnapshot := snapshot_of [].

(** The root 1 with the children 2, a zombie, and 3, and the zombie 4 below
    2; the tree built from it for the root 1. *)
Definition scenario : ProcSnapshot :=
  snapshot_of [(1, 0, false); (2, 1, true); (3, 1, false); (4, 2, true)]%Z.

Definition scenario_tree : ProcessCollection :=
  {| nodes :=
       [ mkNode (mkMetadata 1 0 false) None [1; 3];
         mkNode (mkMetadata 2 1 true) (Some 0) [2];
         mkNode (mkMetadata 4 2 true) (Some 1) [];
         mkNode (mkMetadata 3 1 false) (Some 0) [] ];
     root := Some 0 |}.

(** A process, its child, its grandchild and its great-grandchild; the tree
    built from them for the root 1. *)
Definition chain : ProcSnapshot :=
  snapshot_of [(1, 0, false); (2, 1, false); (3, 2, false); (4, 3, false)]%Z.

Definition chain_tree : ProcessCollection :=
  {| nodes :=
       [ mkNode (mkMetadata 1 0 false) None [1];
         mkNode (mkMetadata 2 1 false) (Some 0) [2];
         mkNode (mkMetadata 3 2 false) (Some 1) [3];
         mkNode (mkMetadata 4 3 false) (Some 2) [] ];
     root := Some 0 |}.

(** A process table in which two zombies share the parent 2; the tree built
    from it for the root 1. *)
Definition zombie_family : ProcSnapshot :=
  snapshot_of [(1, 0, false); (2, 1, true); (5, 2, true); (6, 2, true)]%Z.

Definition zombie_family_tree : ProcessCollection :=
  {| nodes :=
       [ mkNode (mkMetadata 1 0 false) None [1];
         mkNode (mkMetadata 2 1 true) (Some 0) [2; 3];
         mkNode (mkMetadata 5 2 true) (Some 1) [];
         mkNode (mkMetadata 6 2 true) (Some 1) [] ];
     root := Some 0 |}.

(** Two process tables that are not trees: a process that names itself as
    its parent, and two processes that name each other. *)
Definition self_parent : ProcSnapshot :=
  snapshot_of [(5, 5, false); (6, 5, false)]%Z.

Definition mutual_parents : ProcSnapshot :=
  snapshot_of [(6, 7, false); (7, 6, false)]%Z.

(** A process with [n] children and nothing else: the pids 2 to [n + 1] are
    the children of the pid 1. *)
Definition star (n : Z) : ProcSnapshot :=
  {| proc_dir := mkDirent true <$> seqZ 1 (n + 1);
     proc_status := λ pid,
       if bool_decide (pid = 1)%Z then Some (0%Z, false)
       else if bool_decide (2 ≤ pid ≤ n + 1)%Z then Some (1%Z, false)
       else None |}.

(** The process 2 with [n] zombies as its children, the pids 3 to [n + 2];
    the tree built from it for the root 2. *)
Definition zombie_star (n : Z) : ProcSnapshot :=
  {| proc_dir := mkDirent true <$> seqZ 2 (n + 1);
     proc_status := λ pid,
       if bool_decide (pid = 2)%Z then Some (1%Z, false)
       else if bool_decide (3 ≤ pid ≤ n + 2)%Z then Some (2%Z, true)
       else None |}.

Definition zombie_star_tree (n : nat) : ProcessCollection :=
  {| nodes :=
       mkNode (mkMetadata 2 1 false) None (seq 1 n)
       :: ((λ pid, mkNode (mkMetadata pid 2 true) (Some 0) []) <$> seqZ 3 (Z.of_nat n));
     root := Some 0 |}.

(** ** Predicates of the specification *)

(** The tree [main] works on. *)
Definition built (fuel : nat) (snap : ProcSnapshot) (root_pid : Z)
    (c : ProcessCollection) : Prop :=
  build_process_hierarchy fuel snap (init_collection 1000) root_pid = Ok c.

(** The node reached from a pointer by following [k] parent links. *)
Fixpoint ancestor (ns : list ProcessNode) (k : nat) (i : nat) : option nat :=
  match k with
  | O => Some i
  | S k' => n ← ns !! i; p ← parent n; ancestor ns k' p
  end.

(** Following parent links from any node ends, after finitely many steps, at
    the root, which has no parent. *)
Definition rooted_tree (c : ProcessCollection) : Prop :=
  ∀ i, i < size c →
    ∃ d r rn, ancestor (nodes c) d i = Some r ∧ root c = Some r ∧
              nodes c !! r = Some rn ∧ parent rn = None.

(** No node is reached from itself by following one or more parent links. *)
Definition acyclic (c : ProcessCollection) : Prop :=
  ∀ i k, ancestor (nodes c) (S k) i ≠ Some i.

(** Walking up from [p], some node has the pid [pid]. *)
Inductive reaches (ns : list ProcessNode) (pid : Z) : option nat → Prop :=
| reaches_here p pn :
    ns !! p = Some pn → id (data pn) = pid → reaches ns pid (Some p)
| reaches_up p pn :
    ns !! p = Some pn → reaches ns pid (parent pn) → reaches ns pid (Some p).

(** [selects P l ds]: [ds] is what is left of [l] when only the elements
    with the property [P] are kept. *)
Inductive selects {A} (P : A → Prop) : list A → list A → Prop :=
| selects_nil : selects P [] []
| selects_keep x l ds : P x → selects P l ds → selects P (x :: l) (x :: ds)
| selects_skip x l ds : ¬ P x → selects P l ds → selects P (x :: l) ds.

(** *** The layout of a built tree *)

(** [laid ns i e]: the nodes at the indices from [i] up to [e] (excluded) are
    the subtree of the node at [i], stored in the order of a depth-first
    walk that visits a node before its children.  [kids ns p q s ks e]: the
    nodes [ks] are children of the node at [p], whose pid is [q], and their
    subtrees fill the indices from [s] up to [e], one after the other. *)
Inductive laid (ns : list ProcessNode) : nat → nat → Prop :=
| laid_node i n e :
    ns !! i = Some n →
    kids ns i (id (data n)) (S i) (children n) e →
    laid ns i e
with kids (ns : list ProcessNode) : nat → Z → nat → list nat → nat → Prop :=
| kids_nil p q s : kids ns p q s [] s
| kids_cons p q s m e n ks :
    ns !! s = Some n →
    parent n = Some p →
    parent_id (data n) = q →
    laid ns s m →
    kids ns p q m ks e →
    kids ns p q s (s :: ks) e.

Scheme laid_mut := Minimality for laid Sort Prop
  with kids_mut := Minimality for kids Sort Prop.
Combined Scheme laid_kids_ind from laid_mut, kids_mut.

(** A tree as [build_process_hierarchy] leaves it when the root process
    exists: the root at index 0 with the pid asked for and no parent, all
    nodes laid out below it, and no pid twice. *)
Record well_formed (root_pid : Z) (c : ProcessCollection) : Prop := mkWellFormed {
  wf_root : root c = Some 0;
  wf_root_node : ∃ rn, nodes c !! 0 = Some rn ∧ id (data rn) = root_pid ∧ parent rn = None;
  wf_laid : laid (nodes c) 0 (size c);
  wf_nodup : NoDup (ids (nodes c))
}.

(** *** The steps of the discovery *)

(** What the loop of [discover_children] does with a process it has not
    seen: store a node for it and link the node under the node at [j]. *)
Definition attach (c : ProcessCollection) (j : nat) (nk : ProcessNode) : ProcessCollection :=
  add_child (add_to_collection c nk) j (size c).

(** What a call of [discover_children] for the node at [j] may change:
    nodes are only added, and of the nodes already there only the one at
    [j] changes, and only in its children. *)
Record frame (j : nat) (c c' : ProcessCollection) : Prop := mkFrame {
  frame_root : root c' = root c;
  frame_size : size c ≤ size c';
  frame_other : ∀ i, i < size c → i ≠ j → nodes c' !! i = nodes c !! i;
  frame_self : ∀ nj, nodes c !! j = Some nj →
    ∃ nj', nodes c' !! j = Some nj' ∧ data nj' = data nj ∧ parent nj' = parent nj
}.

(** What [discover_children] called for the node at [j], whose pid is [q],
    has done when it returns [c'] from [c]. *)
Definition discover_post (j : nat) (q : Z) (c c' : ProcessCollection) : Prop :=
  frame j c c' ∧ NoDup (ids (nodes c')) ∧
  ∃ nj', nodes c' !! j = Some nj' ∧ kids (nodes c') j q (S j) (children nj') (size c').

(** [discover_children] is called for the node added last, which has no
    children yet. *)
Definition discovers (recurse : ProcessCollection → Z → outcome ProcessCollection) : Prop :=
  ∀ c pid c' k nk,
    recurse c pid = Ok c' →
    S k = size c → nodes c !! k = Some nk → children nk = [] → id (data nk) = pid →
    NoDup (ids (nodes c)) →
    discover_post k pid c c'.

(** The pids of [/proc] that are not in the collection yet: every call of
    [discover_children] below another one has fewer of them. *)
Definition missing (snap : ProcSnapshot) (c : ProcessCollection) : gset Z :=
  list_to_set (d_name <$> proc_dir snap) ∖ list_to_set (ids (nodes c)).

(** *** Results *)

(** A result with [xs] appended to its ids, and the run of stores that
    appends them when they fit. *)
Definition extend (r : CommandResult) (xs : list Z) : CommandResult :=
  {| result_ids := result_ids r ++ xs;
     result_capacity := result_capacity r;
     empty_message := empty_message r |}.

Definition store_all (r : CommandResult) (xs : list Z) : outcome CommandResult :=
  for_each store_result r xs.

(** The nodes at the indices from [a] up to [b] (excluded). *)
Definition slice (ns : list ProcessNode) (a b : nat) : list ProcessNode :=
  take (b - a) (drop a ns).

(** The pids of the zombies in a sequence of nodes. *)
Definition zombie_ids (ns : list ProcessNode) : list Z :=
  ids (filter (λ n, defunct_flag (data n) = true) ns).

(** The zombies [collect_defunct_descendants] finds below the node at [i],
    whose subtree ends at [e]; the parents [kill_zombie_parents] signals for
    a sequence of zombies. *)
Definition zombies_below (ns : list ProcessNode) (i e : nat) : list ProcessNode :=
  filter (λ n, defunct_flag (data n) = true) (slice ns (S i) e).

Definition killable_parents (zs : list ProcessNode) : list Z :=
  (λ n, parent_id (data n)) <$> filter (λ n, (1 < parent_id (data n))%Z) zs.

(** A result whose block is the one [init_result] allocated and whose
    stores all went inside it; a run of a query, and of an action, that
    kept its stores inside the block or faulted on the store at the index
    [RESULT_CAPACITY], the first one outside. *)
Definition buffer_ok (r : CommandResult) : Prop :=
  result_capacity r = RESULT_CAPACITY ∧ count r ≤ RESULT_CAPACITY.

Definition bounded (o : outcome CommandResult) : Prop :=
  match o with
  | Ok r => buffer_ok r
  | Err (OutOfBounds k) => k = RESULT_CAPACITY
  | Err _ => True
  end.

Definition bounded_run (m : run CommandResult) : Prop :=
  match m with
  | Done r _ => buffer_ok r
  | Crash (OutOfBounds k) => k = RESULT_CAPACITY
  | Crash _ => True
  end.

(** *** The process table and the tree *)

(** An entry of [/proc] that [discover_children] takes for a process: a
    directory whose name is a positive number and whose status file can be
    read. *)
Definition is_process (snap : ProcSnapshot) (entry : dirent) (pd : ProcessMetadata) : Prop :=
  d_is_dir entry = true ∧ (0 < d_name entry)%Z ∧
  fetch_process_data snap (d_name entry) = Some pd.

(** The data of every node is what [/proc] says of its pid. *)
Definition as_reported (snap : ProcSnapshot) (c : ProcessCollection) : Prop :=
  ∀ i n, nodes c !! i = Some n →
    fetch_process_data snap (id (data n)) = Some (data n).

(** Every node but the first was found as a process in [/proc]. *)
Definition from_proc (snap : ProcSnapshot) (c : ProcessCollection) : Prop :=
  ∀ i n, nodes c !! i = Some n → i ≠ 0 →
    ∃ entry, entry ∈ proc_dir snap ∧ is_process snap entry (data n).

(** *** Traces *)

(** A trace without any signal: the run has only printed. *)
Definition silent (trace : list event) : Prop :=
  ∀ pid sig, Signalled pid sig ∉ trace.

(** The lines [display_results] prints for the ids of a result. *)
Definition printed_ids (xs : list Z) : list event :=
  (λ x, Printed (pretty x)) <$> xs.

(** *** Depth *)

(** The number of nodes on the way up from a pointer to the root; for the
    parent pointer of a node, the depth of the node in the tree. *)
Fixpoint depth (fuel : nat) (ns : list ProcessNode) (o : option nat) : nat :=
  match o, fuel with
  | Some p, S fuel' =>
      match ns !! p with
      | Some pn => S (depth fuel' ns (parent pn))
      | None => 0
      end
  | _, _ => 0
  end.

(** The nodes of a sequence whose depth, as [dep] counts it from the parent
    pointer, is even ([b] true) or odd. *)
Definition at_parity (dep : option nat → nat) (b : bool) (l : list ProcessNode)
    : list ProcessNode :=
  filter (λ n, Nat.even (dep (parent n)) = b) l.

(** The nodes of a sequence at the depth [d]. *)
Definition at_depth (dep : option nat → nat) (d : nat) (l : list ProcessNode)
    : list ProcessNode :=
  filter (λ n, dep (parent n) = d) l.

(** A run that ends, or stops at the store just beyond the result block:
    no pointer outside the arena was followed and no traversal ran out of
    fuel. *)
Definition safe {A} (m : run A) : Prop :=
  match m with
  | Done _ _ => True
  | Crash (OutOfBounds k) => k = RESULT_CAPACITY
  | Crash _ => False
  end.

(** What a command returns for the ids it matches, collected in the block
    of [init_result]: all of them when there are at most 1000, and a fault
    on the store at index 1000 when there are more. *)
Definition filled (r : CommandResult) (xs : list Z) : outcome CommandResult :=
  if decide (length xs ≤ 1000) then Ok (extend r xs) else Err (OutOfBounds 1000).

(** * Properties *)

(** ** The monads *)

Lemma bind_Ok {A B} (f : A → outcome B) (m : outcome A) (b : B) :
  m ≫= f = Ok b ↔ ∃ a, m = Ok a ∧ f a = Ok b.
Proof.
  destruct m as [a|e]; simpl; split.
  - eauto.
  - by intros (a' & [= <-] & ?).
  - done.
  - by intros (? & ? & ?).
Qed.

Lemma deref_Some ns i n : ns !! i = Some n → deref ns i = Ok n.
Proof. unfold deref. by intros ->. Qed.

Lemma for_each_app {A S} (body : S → A → outcome S) (s : S) (l1 l2 : list A) :
  for_each body s (l1 ++ l2) = for_each body s l1 ≫= λ s', for_each body s' l2.
Proof.
  revert s. induction l1 as [|x l1 IH]; intros s; simpl; [done|].
  destruct (body s x); simpl; [apply IH|done].
Qed.


(** ** Finding a node by pid *)

Lemma find_node_by_pid_Some c pid i :
  find_node_by_pid c pid = Some i ↔
  ∃ n, nodes c !! i = Some n ∧ id (data n) = pid ∧
       ∀ j m, nodes c !! j = Some m → j < i → id (data m) ≠ pid.
Proof.
  unfold find_node_by_pid. split.
  - destruct (list_find _ _) as [[i' n]|] eqn:E; [|done].
    intros [= <-]. apply list_find_Some in E as (? & ? & ?). eauto.
  - intros (n & Hn & Hid & Hlt).
    assert (list_find (λ n, id (data n) = pid) (nodes c) = Some (i, n)) as ->; [|done].
    apply list_find_Some. eauto.
Qed.

Lemma find_node_by_pid_None c pid :
  find_node_by_pid c pid = None ↔ pid ∉ ids (nodes c).
Proof.
  unfold find_node_by_pid, ids. rewrite fmap_None, list_find_None, Forall_forall.
  rewrite list_elem_of_fmap. split.
  - intros H (n & -> & Hn). by apply (H n).
  - intros H n Hn Hid. apply H. eauto.
Qed.

Lemma find_node_by_pid_lookup c pid i :
  find_node_by_pid c pid = Some i →
  ∃ n, nodes c !! i = Some n ∧ id (data n) = pid.
Proof. rewrite find_node_by_pid_Some. intros (n & ? & ? & _). eauto. Qed.

Lemma find_node_by_pid_unique c i n :
  NoDup (ids (nodes c)) → nodes c !! i = Some n →
  find_node_by_pid c (id (data n)) = Some i.
Proof.
  intros Hnd Hn. apply find_node_by_pid_Some. exists n. split_and!; [done..|].
  intros j m Hm Hlt Heq.
  assert (j = i); [|lia].
  eapply (NoDup_lookup _ _ _ _ Hnd); unfold ids; rewrite list_lookup_fmap.
  - by rewrite Hm.
  - rewrite Hn. simpl. by rewrite Heq.
Qed.

Lemma find_node_by_pid_lt c pid i : find_node_by_pid c pid = Some i → i < size c.
Proof.
  intros (n & Hn & _)%find_node_by_pid_lookup. by apply lookup_lt_Some in Hn.
Qed.

(** ** Layout of subtrees *)

Lemma laid_kids_bounds ns :
  (∀ i e, laid ns i e → i < e ≤ length ns) ∧
  (∀ p q s ks e, kids ns p q s ks e → s ≤ e ∧ (s ≤ length ns → e ≤ length ns)).
Proof.
  apply laid_kids_ind.
  - intros i n e Hn _ [Hle Hlen]. apply lookup_lt_Some in Hn. lia.
  - intros. lia.
  - intros p q s m e n ks Hn _ _ _ [Hsm Hm] _ [Hme Hlen]. lia.
Qed.

Lemma laid_bounds ns i e : laid ns i e → i < e ≤ length ns.
Proof. apply laid_kids_bounds. Qed.

Lemma kids_bounds ns p q s ks e : kids ns p q s ks e → s ≤ e.
Proof. intros H. by apply laid_kids_bounds in H as [? _]. Qed.

(** A layout only depends on the nodes of its range. *)
Lemma laid_kids_local ns ns' :
  (∀ i e, laid ns i e → (∀ x, i ≤ x < e → ns' !! x = ns !! x) → laid ns' i e) ∧
  (∀ p q s ks e, kids ns p q s ks e →
     (∀ x, s ≤ x < e → ns' !! x = ns !! x) → kids ns' p q s ks e).
Proof.
  apply laid_kids_ind.
  - intros i n e Hn Hk IH Hag.
    pose proof (kids_bounds _ _ _ _ _ _ Hk).
    apply laid_node with n.
    + rewrite Hag; [done|lia].
    + apply IH. intros x ?. apply Hag. lia.
  - constructor.
  - intros p q s m e n ks Hn Hp Hq Hl IHl Hk IHk Hag.
    pose proof (laid_bounds _ _ _ Hl). pose proof (kids_bounds _ _ _ _ _ _ Hk).
    apply kids_cons with m n; [|done..| |].
    + rewrite Hag; [done|lia].
    + apply IHl. intros x ?. apply Hag. lia.
    + apply IHk. intros x ?. apply Hag. lia.
Qed.

Lemma kids_local ns ns' p q s ks e :
  kids ns p q s ks e → (∀ x, s ≤ x < e → ns' !! x = ns !! x) → kids ns' p q s ks e.
Proof. apply laid_kids_local. Qed.

(** One more child, laid out after the others. *)
Lemma kids_snoc ns p q s ks m e n :
  kids ns p q s ks m →
  ns !! m = Some n → parent n = Some p → parent_id (data n) = q →
  laid ns m e →
  kids ns p q s (ks ++ [m]) e.
Proof.
  intros Hk Hn Hp Hq Hl. induction Hk as [p q s|p q s m' e' n' ks Hn' Hp' Hq' Hl' Hk' IH].
  - simpl. eapply kids_cons; eauto. constructor.
  - simpl. eapply kids_cons; eauto.
Qed.

(** ** What one step of the discovery changes *)

Lemma frame_refl j c : frame j c c.
Proof. split; eauto. Qed.

Lemma frame_trans j c1 c2 c3 : frame j c1 c2 → frame j c2 c3 → frame j c1 c3.
Proof.
  intros [Hr1 Hs1 Ho1 Hj1] [Hr2 Hs2 Ho2 Hj2]. split.
  - congruence.
  - lia.
  - intros i Hi Hne. rewrite Ho2, Ho1; [done..|lia|done].
  - intros nj Hnj. destruct (Hj1 _ Hnj) as (nj1 & Hnj1 & Hd1 & Hp1).
    destruct (Hj2 _ Hnj1) as (nj2 & Hnj2 & Hd2 & Hp2).
    exists nj2. split_and!; [done|congruence..].
Qed.

Section attach.
Context (c : ProcessCollection) (j : nat) (nk : ProcessNode).
Hypothesis Hj : j < size c.

Lemma attach_size : size (attach c j nk) = S (size c).
Proof.
  unfold attach, size, collection_size, add_child, add_to_collection. simpl.
  rewrite !length_alter, length_app. simpl. lia.
Qed.

Lemma attach_lookup_parent :
  nodes (attach c j nk) !! j = push_child (size c) <$> nodes c !! j.
Proof.
  unfold attach, add_child, add_to_collection. simpl.
  rewrite list_lookup_alter_ne by (unfold size, collection_size in *; lia).
  rewrite list_lookup_alter_eq, lookup_app_l; done.
Qed.

Lemma attach_lookup_child :
  nodes (attach c j nk) !! size c = Some (set_parent j nk).
Proof.
  unfold attach, add_child, add_to_collection. simpl.
  rewrite list_lookup_alter_eq.
  rewrite list_lookup_alter_ne by (unfold size, collection_size in *; lia).
  unfold size, collection_size. rewrite lookup_app_r, Nat.sub_diag; done.
Qed.

Lemma attach_lookup_other i :
  i < size c → i ≠ j → nodes (attach c j nk) !! i = nodes c !! i.
Proof.
  intros Hi Hne. unfold attach, add_child, add_to_collection. simpl.
  rewrite !list_lookup_alter_ne by (unfold size, collection_size in *; lia).
  by rewrite lookup_app_l.
Qed.

Lemma attach_ids : ids (nodes (attach c j nk)) = ids (nodes c) ++ [id (data nk)].
Proof.
  apply list_eq. intros i. unfold ids. rewrite list_lookup_fmap.
  destruct (decide (i < size c)) as [Hi|Hi].
  - rewrite lookup_app_l by (by rewrite length_fmap).
    rewrite list_lookup_fmap.
    destruct (decide (i = j)) as [->|Hne].
    + rewrite attach_lookup_parent. by destruct (nodes c !! j).
    + by rewrite attach_lookup_other.
  - destruct (decide (i = size c)) as [->|Hne].
    + rewrite attach_lookup_child.
      rewrite lookup_app_r by (rewrite length_fmap; done).
      rewrite length_fmap. unfold size, collection_size. by rewrite Nat.sub_diag.
    + rewrite (lookup_ge_None_2 (nodes (attach c j nk)))
        by (pose proof attach_size; unfold size, collection_size in *; lia).
      rewrite lookup_ge_None_2; [done|].
      rewrite length_app, length_fmap. unfold size, collection_size in *. simpl. lia.
Qed.

Lemma attach_frame : frame j c (attach c j nk).
Proof.
  split.
  - done.
  - rewrite attach_size. lia.
  - apply attach_lookup_other.
  - intros nj Hnj. exists (push_child (size c) nj).
    rewrite attach_lookup_parent, Hnj. done.
Qed.
End attach.

Lemma frame_nest j k c c2 c3 :
  frame j c c2 → frame k c2 c3 → size c ≤ k → frame j c c3.
Proof.
  intros [Hr1 Hs1 Ho1 Hj1] [Hr2 Hs2 Ho2 Hj2] Hk. split.
  - congruence.
  - lia.
  - intros i Hi Hne. rewrite Ho2, Ho1; [done..|lia|lia].
  - intros nj Hnj. destruct (Hj1 _ Hnj) as (nj1 & Hnj1 & Hd1 & Hp1).
    exists nj1. split_and!; [|done..].
    apply lookup_lt_Some in Hnj. rewrite Ho2; [done| |]; unfold size, collection_size in *; lia.
Qed.

(** ** The discovery lays the tree out in depth-first order *)

Lemma scan_entry_layout recurse snap ppid j c c' nj entry :
  discovers recurse →
  scan_entry recurse snap ppid c entry = Ok c' →
  nodes c !! j = Some nj → id (data nj) = ppid → NoDup (ids (nodes c)) →
  kids (nodes c) j ppid (S j) (children nj) (size c) →
  discover_post j ppid c c'.
Proof.
  intros Hrec Hscan Hnj Hid Hnd Hkids.
  assert (discover_post j ppid c c) as Hsame.
  { split_and!; [apply frame_refl|done|eauto]. }
  unfold scan_entry in Hscan.
  destruct (d_is_dir entry); [|by simplify_eq].
  case_bool_decide as Hpos; [|by simplify_eq].
  destruct (fetch_process_data snap (d_name entry)) as [pd|] eqn:Hfetch; [|by simplify_eq].
  case_bool_decide as Hpp; [|by simplify_eq].
  destruct (find_node_by_pid c (d_name entry)) as [?|] eqn:Hfind; [by simplify_eq|].
  set (pid := d_name entry) in *.
  set (nk := create_node pid (parent_id pd) (defunct_flag pd)) in *.
  apply find_node_by_pid_None in Hfind.
  assert (j < size c) as Hj by (by apply lookup_lt_Some in Hnj).
  assert (find_node_by_pid (add_to_collection c nk) ppid = Some j) as Hfj.
  { rewrite <- Hid. apply find_node_by_pid_unique.
    - simpl. unfold ids. rewrite fmap_app. apply NoDup_app. split_and!; [done| |].
      + intros x Hx [->|[]%elem_of_nil]%elem_of_cons. done.
      + apply NoDup_singleton.
    - simpl. by apply lookup_app_l_Some. }
  rewrite Hfj in Hscan.
  change (add_child (add_to_collection c nk) j (size c)) with (attach c j nk) in Hscan.
  pose proof (attach_size c j nk Hj) as Hsz2.
  pose proof (attach_lookup_child c j nk Hj) as Hk2.
  pose proof (attach_frame c j nk Hj) as Hfr2.
  set (c2 := attach c j nk) in *.
  destruct (Hrec c2 pid c' (size c) (set_parent j nk)) as (Hfr3 & Hnd3 & nk3 & Hk3 & Hkids3);
    [done|done|done|done|done| |].
  { unfold c2. rewrite attach_ids by done. apply NoDup_app. split_and!; [done| |].
    - intros x Hx [->|[]%elem_of_nil]%elem_of_cons. done.
    - apply NoDup_singleton. }
  assert (frame j c c') as Hfr by (by eapply frame_nest).
  destruct (frame_self _ _ _ Hfr3 _ Hk2) as (nk3' & Hk3' & Hd3 & Hp3).
  assert (nk3' = nk3) as -> by congruence.
  split_and!; [done..|].
  exists (push_child (size c) nj). split.
  - rewrite (frame_other _ _ _ Hfr3) by lia.
    unfold c2. by rewrite attach_lookup_parent, Hnj.
  - simpl. eapply kids_snoc; [|exact Hk3|by rewrite Hp3|by rewrite Hd3|].
    + eapply kids_local; [exact Hkids|].
      intros x Hx. apply (frame_other _ _ _ Hfr); lia.
    + eapply laid_node; [exact Hk3|]. by rewrite Hd3.
Qed.

Lemma scan_layout recurse snap ppid j es :
  discovers recurse →
  ∀ c c' nj,
    for_each (scan_entry recurse snap ppid) c es = Ok c' →
    nodes c !! j = Some nj → id (data nj) = ppid → NoDup (ids (nodes c)) →
    kids (nodes c) j ppid (S j) (children nj) (size c) →
    discover_post j ppid c c'.
Proof.
  intros Hrec. induction es as [|entry es IH]; intros c c' nj Hrun Hnj Hid Hnd Hkids.
  - simpl in Hrun. injection Hrun as <-. split_and!; [apply frame_refl|done|eauto].
  - simpl in Hrun. apply bind_Ok in Hrun as (c1 & Hstep & Hrun).
    destruct (scan_entry_layout _ _ _ _ _ _ _ _ Hrec Hstep Hnj Hid Hnd Hkids)
      as (Hfr1 & Hnd1 & nj1 & Hnj1 & Hkids1).
    destruct (frame_self _ _ _ Hfr1 _ Hnj) as (nj1' & Hnj1' & Hd1 & _).
    assert (nj1' = nj1) as -> by congruence.
    destruct (IH c1 c' nj1 Hrun Hnj1) as (Hfr2 & Hnd2 & Hrest); [congruence|done..|].
    split_and!; [by eapply frame_trans|done..].
Qed.

Lemma discover_children_layout fuel snap : discovers (discover_children fuel snap).
Proof.
  induction fuel as [|fuel IH]; intros c pid c' k nk Hrun Hk Hnk Hch Hid Hnd; [done|].
  simpl in Hrun. eapply scan_layout; eauto.
  rewrite Hch, Hk. constructor.
Qed.

(** ** The discovery terminates *)

Lemma add_child_ids c p k : ids (nodes (add_child c p k)) = ids (nodes c).
Proof.
  unfold add_child, ids. simpl. apply list_eq. intros i.
  rewrite !list_lookup_fmap, !list_lookup_alter.
  repeat case_decide; subst; destruct (nodes c !! _); done.
Qed.

Lemma size_list_to_set_le (l : list Z) : size (list_to_set l : gset Z) ≤ length l.
Proof.
  induction l as [|x l IH].
  - done.
  - rewrite list_to_set_cons, size_union_alt, size_singleton. simpl.
    assert (size (list_to_set l ∖ {[x]} : gset Z) ≤ size (list_to_set l : gset Z)).
    { apply subseteq_size, subseteq_difference_l. reflexivity. }
    lia.
Qed.

Lemma missing_le snap c : size (missing snap c) ≤ length (proc_dir snap).
Proof.
  etrans; [apply subseteq_size|].
  - unfold missing. apply subseteq_difference_l. reflexivity.
  - etrans; [apply size_list_to_set_le|]. by rewrite length_fmap.
Qed.

Lemma missing_mono snap c c' :
  ids (nodes c) ⊆ ids (nodes c') → size (missing snap c') ≤ size (missing snap c).
Proof.
  intros Hsub. apply subseteq_size. unfold missing.
  intros x. rewrite !elem_of_difference, !elem_of_list_to_set.
  intros [? Hn]. split; [done|]. intros ?. apply Hn. by apply Hsub.
Qed.

Lemma missing_add snap c c' pid :
  pid ∈ d_name <$> proc_dir snap → pid ∉ ids (nodes c) →
  ids (nodes c') = ids (nodes c) ++ [pid] →
  size (missing snap c') < size (missing snap c).
Proof.
  intros Hin Hnot Hids. apply subset_size. unfold missing. rewrite Hids. split.
  - intros x. rewrite !elem_of_difference, !elem_of_list_to_set, elem_of_app.
    intros [? Hn]. split; [done|]. intros ?. apply Hn. by left.
  - intros Hsub. specialize (Hsub pid).
    rewrite !elem_of_difference, !elem_of_list_to_set, elem_of_app in Hsub.
    destruct Hsub as [_ Hn]; [done|]. apply Hn. right. by apply list_elem_of_singleton.
Qed.

Lemma scan_entry_terminates fuel snap ppid c entry :
  (∀ c q, size (missing snap c) < fuel →
     ∃ c', discover_children fuel snap c q = Ok c' ∧ ids (nodes c) ⊆ ids (nodes c')) →
  entry ∈ proc_dir snap → size (missing snap c) < S fuel →
  ∃ c', scan_entry (discover_children fuel snap) snap ppid c entry = Ok c' ∧
        ids (nodes c) ⊆ ids (nodes c').
Proof.
  intros IHfuel Hentry Hm. unfold scan_entry.
  destruct (d_is_dir entry); [|by exists c].
  case_bool_decide; [|by exists c].
  destruct (fetch_process_data snap (d_name entry)) as [pd|]; [|by exists c].
  case_bool_decide; [|by exists c].
  destruct (find_node_by_pid c (d_name entry)) eqn:Hfind; [by exists c|].
  apply find_node_by_pid_None in Hfind.
  set (nk := create_node _ _ _).
  set (c2 := match find_node_by_pid (add_to_collection c nk) ppid with
             | Some parent => add_child (add_to_collection c nk) parent (size c)
             | None => add_to_collection c nk
             end).
  assert (ids (nodes c2) = ids (nodes c) ++ [d_name entry]) as Hids.
  { unfold c2. destruct (find_node_by_pid _ ppid).
    - rewrite add_child_ids. simpl. unfold ids. by rewrite fmap_app.
    - simpl. unfold ids. by rewrite fmap_app. }
  destruct (IHfuel c2 (d_name entry)) as (c3 & Hrun & Hsub).
  { assert (size (missing snap c2) < size (missing snap c)); [|lia].
    eapply missing_add; [|done..]. apply list_elem_of_fmap. by exists entry. }
  exists c3. split; [done|]. rewrite Hids in Hsub.
  intros x Hx. apply Hsub, elem_of_app. by left.
Qed.

Lemma scan_terminates fuel snap ppid :
  (∀ c q, size (missing snap c) < fuel →
     ∃ c', discover_children fuel snap c q = Ok c' ∧ ids (nodes c) ⊆ ids (nodes c')) →
  ∀ es c, es ⊆ proc_dir snap → size (missing snap c) < S fuel →
    ∃ c', for_each (scan_entry (discover_children fuel snap) snap ppid) c es = Ok c' ∧
          ids (nodes c) ⊆ ids (nodes c').
Proof.
  intros IHfuel es. induction es as [|entry es IH]; intros c Hes Hm.
  { exists c. done. }
  destruct (scan_entry_terminates fuel snap ppid c entry) as (c1 & Hstep & Hsub1);
    [done| |done|].
  { apply Hes. by left. }
  destruct (IH c1) as (c' & Hrun & Hsub').
  - intros x Hx. apply Hes. by right.
  - pose proof (missing_mono snap _ _ Hsub1). lia.
  - exists c'. simpl. rewrite Hstep. simpl. split; [done|]. by etrans.
Qed.

Lemma discover_children_terminates snap fuel :
  ∀ c q, size (missing snap c) < fuel →
    ∃ c', discover_children fuel snap c q = Ok c' ∧ ids (nodes c) ⊆ ids (nodes c').
Proof.
  induction fuel as [|fuel IH]; intros c q Hm; [lia|].
  simpl. destruct (decide (size (missing snap c) < fuel)) as [Hlt|Hge].
  - apply scan_terminates; [done|done|lia].
  - apply scan_terminates; done.
Qed.

(** More fuel does not change a result. *)
Lemma for_each_mono {A S} (body1 body2 : S → A → outcome S) (l : list A) :
  (∀ s x r, body1 s x = Ok r → body2 s x = Ok r) →
  ∀ s r, for_each body1 s l = Ok r → for_each body2 s l = Ok r.
Proof.
  intros Hbody. induction l as [|x l IH]; intros s r; simpl; [done|].
  intros (s' & Hs' & Hrun)%bind_Ok. rewrite (Hbody _ _ _ Hs'). simpl. by apply IH.
Qed.

Lemma discover_children_mono snap fuel fuel' c q c' :
  discover_children fuel snap c q = Ok c' → fuel ≤ fuel' →
  discover_children fuel' snap c q = Ok c'.
Proof.
  revert fuel' c q c'. induction fuel as [|fuel IH]; intros fuel' c q c' Hrun Hle; [done|].
  destruct fuel' as [|fuel']; [lia|]. simpl in *.
  eapply for_each_mono; [|exact Hrun].
  intros s x r. unfold scan_entry.
  repeat (case_match; try done); intros Hr; apply IH with (fuel' := fuel') in Hr; (done || lia).
Qed.

(** ** Parents and children in a laid out subtree *)

(** Every node below the top of a subtree has its parent in the subtree,
    at a smaller index; the parent has the pid the node names as its parent
    and lists the node among its children. *)
Lemma laid_kids_parents ns :
  (∀ i e, laid ns i e → ∀ x, i < x < e →
     ∃ nx p np, ns !! x = Some nx ∧ parent nx = Some p ∧ i ≤ p < x ∧
                ns !! p = Some np ∧ parent_id (data nx) = id (data np) ∧
                x ∈ children np) ∧
  (∀ p q s ks e, kids ns p q s ks e → ∀ x, s ≤ x < e →
     ∃ nx, ns !! x = Some nx ∧
       ((parent nx = Some p ∧ parent_id (data nx) = q ∧ x ∈ ks) ∨
        (∃ p' np, parent nx = Some p' ∧ s ≤ p' < x ∧ ns !! p' = Some np ∧
                  parent_id (data nx) = id (data np) ∧ x ∈ children np))).
Proof.
  apply laid_kids_ind.
  - intros i n e Hn _ IH x Hx.
    destruct (IH x) as (nx & Hnx & [(Hp & Hq & Hin)|(p' & np & Hp & Hlt & Hnp & Hq & Hin)]);
      [lia| |].
    + exists nx, i, n. split_and!; (done || lia).
    + exists nx, p', np. split_and!; (done || lia).
  - intros. lia.
  - intros p q s m e n ks Hn Hp Hq Hl IHl Hk IHk x Hx.
    pose proof (laid_bounds _ _ _ Hl). pose proof (kids_bounds _ _ _ _ _ _ Hk).
    destruct (decide (x = s)) as [->|Hne].
    { exists n. split; [done|]. left. split_and!; [done..|]. by left. }
    destruct (decide (x < m)) as [Hlt|Hge].
    + destruct (IHl x) as (nx & p' & np & Hnx & Hpx & Hb & Hnp & Hqx & Hin); [lia|].
      exists nx. split; [done|]. right. exists p', np. split_and!; (done || lia).
    + destruct (IHk x) as (nx & Hnx & [(Hpx & Hqx & Hin)|(p' & np & Hpx & Hb & Hnp & Hqx & Hin)]);
        [lia| |].
      * exists nx. split; [done|]. left. split_and!; [done..|]. by right.
      * exists nx. split; [done|]. right. exists p', np. split_and!; (done || lia).
Qed.

(** The children of a node are distinct and lie after it. *)
Lemma laid_kids_children ns :
  (∀ i e, laid ns i e → ∀ x nx, i ≤ x < e → ns !! x = Some nx →
     NoDup (children nx) ∧ ∀ k, k ∈ children nx → x < k < e) ∧
  (∀ p q s ks e, kids ns p q s ks e →
     (NoDup ks ∧ ∀ k, k ∈ ks → s ≤ k < e) ∧
     ∀ x nx, s ≤ x < e → ns !! x = Some nx →
       NoDup (children nx) ∧ ∀ k, k ∈ children nx → x < k < e).
Proof.
  apply laid_kids_ind.
  - intros i n e Hn _ [[Hnd Hin] IH] x nx Hx Hnx.
    destruct (decide (x = i)) as [->|Hne].
    + assert (nx = n) as -> by congruence. split; [done|].
      intros k Hk. apply Hin in Hk. lia.
    + apply IH; [lia|done].
  - intros p q s. split.
    + split; [constructor|]. intros k []%elem_of_nil.
    + intros. lia.
  - intros p q s m e n ks Hn Hp Hq Hl IHl Hk [[Hnd Hin] IHk].
    pose proof (laid_bounds _ _ _ Hl). pose proof (kids_bounds _ _ _ _ _ _ Hk).
    split.
    + split.
      * constructor; [|done]. intros Hs%Hin. lia.
      * intros k [->|Hk']%elem_of_cons; [lia|]. apply Hin in Hk'. lia.
    + intros x nx Hx Hnx. destruct (decide (x < m)) as [Hlt|Hge].
      * destruct (IHl x nx) as [? Hb]; [lia|done|]. split; [done|].
        intros k Hk'%Hb. lia.
      * apply IHk; [lia|done].
Qed.

(** Every node of a subtree is the top of a subtree of its own. *)
Lemma laid_kids_subtree ns :
  (∀ i e, laid ns i e → ∀ x, i ≤ x < e → ∃ e', laid ns x e' ∧ e' ≤ e) ∧
  (∀ p q s ks e, kids ns p q s ks e → ∀ x, s ≤ x < e → ∃ e', laid ns x e' ∧ e' ≤ e).
Proof.
  apply laid_kids_ind.
  - intros i n e Hn Hk IH x Hx. destruct (decide (x = i)) as [->|Hne].
    + exists e. split; [by eapply laid_node|done].
    + apply IH. lia.
  - intros. lia.
  - intros p q s m e n ks Hn Hp Hq Hl IHl Hk IHk x Hx.
    pose proof (laid_bounds _ _ _ Hl). pose proof (kids_bounds _ _ _ _ _ _ Hk).
    destruct (decide (x < m)) as [Hlt|Hge].
    + destruct (IHl x) as (e' & ? & ?); [lia|]. exists e'. split; [done|lia].
    + apply IHk. lia.
Qed.

(** ** Well-formed trees *)

Section well_formed.
Context (root_pid : Z) (c : ProcessCollection).
Hypothesis Hwf : well_formed root_pid c.

Lemma wf_parent i n :
  nodes c !! i = Some n → i ≠ 0 →
  ∃ p pn, parent n = Some p ∧ p < i ∧ nodes c !! p = Some pn ∧
          parent_id (data n) = id (data pn) ∧ i ∈ children pn.
Proof.
  intros Hn Hi. pose proof (lookup_lt_Some _ _ _ Hn).
  destruct (proj1 (laid_kids_parents (nodes c)) _ _ (wf_laid _ _ Hwf) i)
    as (nx & p & np & Hnx & Hp & Hlt & Hnp & Hq & Hin).
  { unfold size, collection_size. lia. }
  assert (nx = n) as -> by congruence.
  exists p, np. split_and!; (done || lia).
Qed.

Lemma wf_children i n :
  nodes c !! i = Some n →
  NoDup (children n) ∧ ∀ k, k ∈ children n → i < k < size c.
Proof.
  intros Hn. pose proof (lookup_lt_Some _ _ _ Hn).
  apply (proj1 (laid_kids_children (nodes c)) _ _ (wf_laid _ _ Hwf) i); [|done].
  unfold size, collection_size. lia.
Qed.

Lemma wf_subtree i :
  i < size c → ∃ e, laid (nodes c) i e ∧ e ≤ size c.
Proof.
  intros Hi.
  apply (proj1 (laid_kids_subtree (nodes c)) _ _ (wf_laid _ _ Hwf) i). lia.
Qed.

Lemma wf_rooted_tree : rooted_tree c.
Proof.
  destruct (wf_root_node _ _ Hwf) as (rn & Hrn & _ & Hrp).
  intros i. induction (lt_wf i) as [i _ IH]. intros Hi.
  destruct (decide (i = 0)) as [->|Hne].
  - exists 0, 0, rn. split_and!; [done|apply Hwf|done..].
  - destruct (lookup_lt_is_Some_2 (nodes c) i Hi) as [n Hn].
    destruct (wf_parent i n Hn Hne) as (p & pn & Hp & Hlt & Hpn & _).
    destruct (IH p Hlt) as (d & r & rn' & Hanc & Hroot & Hr & Hnone);
      [by apply lookup_lt_Some in Hpn|].
    exists (S d), r, rn'. split_and!; [|done..].
    simpl. rewrite Hn. simpl. rewrite Hp. done.
Qed.

Lemma wf_ancestor_lt k : ∀ i j, ancestor (nodes c) (S k) i = Some j → j < i.
Proof.
  induction k as [|k IH]; intros i j Hanc; simpl in Hanc;
    destruct (nodes c !! i) as [n|] eqn:Hn; simpl in Hanc; try done;
    destruct (parent n) as [p|] eqn:Hp; simpl in Hanc; try done.
  - injection Hanc as <-.
    destruct (decide (i = 0)) as [->|Hne].
    + destruct (wf_root_node _ _ Hwf) as (rn & Hrn & _ & Hnone). congruence.
    + destruct (wf_parent i n Hn Hne) as (p' & pn & Hp' & Hlt & _). congruence.
  - apply IH in Hanc.
    destruct (decide (i = 0)) as [->|Hne].
    + destruct (wf_root_node _ _ Hwf) as (rn & Hrn & _ & Hnone). congruence.
    + destruct (wf_parent i n Hn Hne) as (p' & pn & Hp' & Hlt & _).
      assert (p' = p) as -> by congruence. lia.
Qed.

Lemma wf_acyclic : acyclic c.
Proof. intros i k Hanc. apply wf_ancestor_lt in Hanc. lia. Qed.
End well_formed.

(** ** The linking loop has nothing to do *)

Lemma for_each_same {A S} (body : S → A → outcome S) (s : S) (l : list A) :
  (∀ x, x ∈ l → body s x = Ok s) → for_each body s l = Ok s.
Proof.
  induction l as [|x l IH]; intros Hbody; simpl; [done|].
  rewrite Hbody by (by left). simpl. apply IH. intros y Hy. apply Hbody. by right.
Qed.

Lemma link_node_same root_pid c i :
  well_formed root_pid c → i < size c → link_node root_pid c i = Ok c.
Proof.
  intros Hwf Hi. unfold link_node, deref.
  destruct (lookup_lt_is_Some_2 (nodes c) i Hi) as [n Hn]. rewrite Hn. simpl.
  case_bool_decide as Hid; [|done].
  assert (i ≠ 0) as Hne.
  { intros ->. destruct (wf_root_node _ _ Hwf) as (rn & Hrn & Hrid & _). congruence. }
  destruct (wf_parent _ _ Hwf i n Hn Hne) as (p & pn & -> & _).
  by destruct (find_node_by_pid c (parent_id (data n))).
Qed.

Lemma link_all_nodes_same root_pid c :
  well_formed root_pid c → link_all_nodes root_pid c = Ok c.
Proof.
  intros Hwf. apply for_each_same. intros i Hi%elem_of_seq.
  apply link_node_same; [done|lia].
Qed.

(** ** What the builder returns *)

Lemma discover_from_root_spec fuel snap root_pid c :
  discover_from_root fuel snap (init_collection 1000) root_pid = Ok c →
  (fetch_process_data snap root_pid = None ∧ c = init_collection 1000) ∨
  (∃ rd rn, fetch_process_data snap root_pid = Some rd ∧ well_formed root_pid c ∧
            nodes c !! 0 = Some rn ∧ data rn = rd).
Proof.
  unfold discover_from_root.
  destruct (fetch_process_data snap root_pid) as [rd|] eqn:Hfetch.
  - intros Hrun. right.
    set (rn := create_node root_pid (parent_id rd) (defunct_flag rd)) in *.
    destruct (discover_children_layout fuel snap _ _ _ 0 rn Hrun)
      as (Hfr & Hnd & rn' & Hrn' & Hkids); [done..| |].
    { simpl. apply NoDup_singleton. }
    destruct (frame_self _ _ _ Hfr rn) as (rn'' & Hrn'' & Hd & Hp); [done|].
    assert (rn'' = rn') as -> by congruence.
    assert (rd = data rn) as Hrd.
    { unfold fetch_process_data in Hfetch.
      destruct (proc_status snap root_pid) as [[ppid z]|]; [|done]. by simplify_eq. }
    exists rd, rn'. split_and!; [done| |done|congruence].
    split.
    + by rewrite (frame_root _ _ _ Hfr).
    + exists rn'. split_and!; [done|by rewrite Hd|by rewrite Hp].
    + eapply laid_node; [done|]. by rewrite Hd.
    + done.
  - intros [= <-]. by left.
Qed.

Lemma build_process_hierarchy_discover fuel snap root_pid :
  build_process_hierarchy fuel snap (init_collection 1000) root_pid =
  discover_from_root fuel snap (init_collection 1000) root_pid.
Proof.
  unfold build_process_hierarchy.
  destruct (discover_from_root _ _ _ _) as [c|e] eqn:Hrun; [|done]. simpl.
  apply discover_from_root_spec in Hrun as [[_ ->]|(rd & rn & _ & Hwf & _)]; [done|].
  by apply link_all_nodes_same.
Qed.

Lemma built_spec fuel snap root_pid c :
  built fuel snap root_pid c →
  (fetch_process_data snap root_pid = None ∧ c = init_collection 1000) ∨
  (∃ rd rn, fetch_process_data snap root_pid = Some rd ∧ well_formed root_pid c ∧
            nodes c !! 0 = Some rn ∧ data rn = rd).
Proof.
  unfold built. rewrite build_process_hierarchy_discover. apply discover_from_root_spec.
Qed.

Lemma built_terminates snap root_pid k :
  ∃ c, built (S (length (proc_dir snap)) + k) snap root_pid c.
Proof.
  unfold built. rewrite build_process_hierarchy_discover. unfold discover_from_root.
  destruct (fetch_process_data snap root_pid) as [rd|]; [|eauto].
  edestruct discover_children_terminates as (c & Hc & _); [|eauto].
  pose proof (missing_le snap (set_root (add_to_collection (init_collection 1000)
    (create_node root_pid (parent_id rd) (defunct_flag rd))) (size (init_collection 1000)))).
  lia.
Qed.

Lemma built_mono fuel fuel' snap root_pid c :
  built fuel snap root_pid c → fuel ≤ fuel' → built fuel' snap root_pid c.
Proof.
  unfold built. rewrite !build_process_hierarchy_discover. unfold discover_from_root.
  destruct (fetch_process_data snap root_pid) as [rd|]; [|done].
  apply discover_children_mono.
Qed.

(** ** Storing results *)

Lemma extend_nil r : extend r [] = r.
Proof. destruct r. unfold extend. simpl. by rewrite app_nil_r. Qed.

Lemma extend_extend r xs ys : extend (extend r xs) ys = extend r (xs ++ ys).
Proof. unfold extend. simpl. by rewrite app_assoc. Qed.

Lemma count_extend r xs : count (extend r xs) = count r + length xs.
Proof. unfold count, extend. simpl. by rewrite length_app. Qed.

Lemma store_result_extend r x :
  store_result r x =
  if decide (count r < result_capacity r) then Ok (extend r [x])
  else Err (OutOfBounds (count r)).
Proof. unfold store_result. case_bool_decide; by case_decide. Qed.

(** Stores succeed as long as the block has room, and the first store that
    does not fit faults at the index that is the capacity. *)
Lemma store_all_extend r xs :
  count r ≤ result_capacity r →
  store_all r xs =
  if decide (count r + length xs ≤ result_capacity r) then Ok (extend r xs)
  else Err (OutOfBounds (result_capacity r)).
Proof.
  revert r. induction xs as [|x xs IH]; intros r Hr; simpl.
  - rewrite extend_nil. case_decide; [done|lia].
  - unfold store_all. simpl. rewrite store_result_extend.
    case_decide as Hlt; simpl.
    + fold (store_all (extend r [x]) xs). rewrite IH by (rewrite count_extend; simpl; lia).
      rewrite count_extend, extend_extend. simpl.
      repeat case_decide; (done || lia).
    + case_decide; [lia|]. f_equal. f_equal. lia.
Qed.

Lemma store_all_app r xs ys :
  store_all r (xs ++ ys) = store_all r xs ≫= λ r', store_all r' ys.
Proof. apply for_each_app. Qed.

Lemma store_all_singleton r x : store_all r [x] = store_result r x.
Proof. unfold store_all. simpl. by destruct (store_result r x). Qed.

(** ** Slices of the node array *)

Lemma slice_nil ns a : slice ns a a = [].
Proof. unfold slice. by rewrite Nat.sub_diag. Qed.

Lemma slice_cons ns a b n :
  ns !! a = Some n → a < b → slice ns a b = n :: slice ns (S a) b.
Proof.
  intros Hn Hab. unfold slice.
  rewrite (drop_S _ _ _ Hn). replace (b - a) with (S (b - S a)) by lia. done.
Qed.

Lemma slice_app ns a m b :
  a ≤ m → m ≤ b → slice ns a m ++ slice ns m b = slice ns a b.
Proof.
  intros Ham Hmb. unfold slice.
  replace (drop m ns) with (drop (m - a) (drop a ns)) by (rewrite drop_drop; f_equal; lia).
  rewrite take_take_drop. f_equal. lia.
Qed.

Lemma slice_all ns : slice ns 0 (length ns) = ns.
Proof. unfold slice. rewrite Nat.sub_0_r. simpl. apply firstn_all. Qed.

Lemma elem_of_slice ns a b n : n ∈ slice ns a b → n ∈ ns.
Proof.
  unfold slice. intros Hn. by apply (subseteq_drop a), (subseteq_take (b - a)).
Qed.

Lemma zombie_ids_cons n ns :
  zombie_ids (n :: ns) =
  (if defunct_flag (data n) then [id (data n)] else []) ++ zombie_ids ns.
Proof.
  unfold zombie_ids. rewrite filter_cons.
  destruct (defunct_flag (data n)); case_decide; done.
Qed.

Lemma zombie_ids_app ns1 ns2 : zombie_ids (ns1 ++ ns2) = zombie_ids ns1 ++ zombie_ids ns2.
Proof. unfold zombie_ids, ids. by rewrite filter_app, fmap_app. Qed.

(** ** The zombies below a node *)

(** On a laid out subtree the depth-first walk of
    [collect_defunct_descendants] stores the zombies in the order of the
    node array. *)
Lemma collect_defunct_laid ns :
  (∀ i e, laid ns i e → ∀ fuel r, e - i ≤ fuel →
     collect_defunct_descendants fuel ns i r =
     store_all r (zombie_ids (slice ns (S i) e))) ∧
  (∀ p q s ks e, kids ns p q s ks e → ∀ fuel r, e - s ≤ fuel →
     for_each (λ result i,
                 child ← deref ns i;
                 result ← (if defunct_flag (data child)
                           then store_result result (id (data child))
                           else Ok result);
                 collect_defunct_descendants fuel ns i result) r ks =
     store_all r (zombie_ids (slice ns s e))).
Proof.
  apply laid_kids_ind.
  - intros i n e Hn Hk IH fuel r Hfuel.
    pose proof (kids_bounds _ _ _ _ _ _ Hk).
    destruct fuel as [|fuel]; [lia|]. simpl. rewrite (deref_Some _ _ _ Hn). simpl.
    apply IH. lia.
  - intros p q s fuel r _. by rewrite slice_nil.
  - intros p q s m e n ks Hn Hp Hq Hl IHl Hk IHk fuel r Hfuel.
    pose proof (laid_bounds _ _ _ Hl). pose proof (kids_bounds _ _ _ _ _ _ Hk).
    rewrite <- (slice_app ns s m e) by lia.
    rewrite (slice_cons ns s m n) by (done || lia).
    rewrite zombie_ids_app, zombie_ids_cons, !store_all_app.
    simpl. rewrite (deref_Some _ _ _ Hn). simpl.
    destruct (defunct_flag (data n)).
    + rewrite store_all_singleton. destruct (store_result r (id (data n))) as [r1|]; [|done].
      simpl. rewrite IHl by lia.
      destruct (store_all r1 _) as [r2|]; [|done]. simpl. apply IHk. lia.
    + simpl. rewrite IHl by lia.
      destruct (store_all r _) as [r2|]; [|done]. simpl. apply IHk. lia.
Qed.

Lemma count_zombies_filter c :
  count_zombies c = length (filter (λ n, defunct_flag (data n) = true) (nodes c)).
Proof.
  unfold count_zombies. change (length (filter (λ n, defunct_flag (data n) = true) (nodes c)))
    with (0 + length (filter (λ n, defunct_flag (data n) = true) (nodes c))).
  generalize 0 as k.
  assert (∀ k l, foldl (λ count n, if defunct_flag (data n) then S count else count) k l
                 = k + length (filter (λ n, defunct_flag (data n) = true) l)) as H.
  { intros k l. revert k. induction l as [|n l IH]; intros k; simpl; [lia|].
    rewrite IH, filter_cons. destruct (defunct_flag (data n)); case_decide; simpl; (done || lia). }
  intros k. by rewrite H.
Qed.

Lemma get_defunct_descendants_laid fuel c pid i e :
  find_node_by_pid c pid = Some i → laid (nodes c) i e → e - i ≤ fuel →
  get_defunct_descendants fuel c pid =
  store_all (init_result (Some "No descendant zombie process/es"))
            (ids (zombies_below (nodes c) i e)).
Proof.
  intros Hfind Hl Hfuel. unfold get_defunct_descendants. rewrite Hfind.
  by apply collect_defunct_laid.
Qed.

Lemma init_result_count msg : count (init_result msg) = 0.
Proof. done. Qed.

Lemma init_result_capacity msg : result_capacity (init_result msg) = RESULT_CAPACITY.
Proof. done. Qed.

(** ** Killing the parents of zombies *)

Lemma run_bind_Done {A B} (f : A → run B) a t :
  Done a t ≫= f = match f a with Done b t' => Done b (t ++ t') | Crash e => Crash e end.
Proof. done. Qed.

Lemma for_each_cons {M : Type → Type} `{!MBind M, !MRet M} {A S}
    (body : S → A → M S) (s : S) (x : A) (l : list A) :
  for_each body s (x :: l) = body s x ≫= λ s', for_each body s' l.
Proof. done. Qed.

Lemma run_bind_lift_Ok {A B} (f : A → run B) a : lift (Ok a) ≫= f = f a.
Proof. simpl. by destruct (f a). Qed.

Lemma kill_parents_loop os c (zs : list ProcessNode) :
  NoDup (ids (nodes c)) → zs ⊆ nodes c →
  ∀ r, count r + length zs ≤ result_capacity r →
    for_each (λ result z,
                match find_node_by_pid c z with
                | Some zombie =>
                    zn ← lift (deref (nodes c) zombie);
                    if bool_decide (1 < parent_id (data zn))%Z then
                      _ ← kill os (parent_id (data zn)) SIGKILL;
                      lift (store_result result (parent_id (data zn)))
                    else mret result
                | None => mret result
                end) r (ids zs) =
    Done (extend r (killable_parents zs))
         ((λ x, Signalled x SIGKILL) <$> killable_parents zs).
Proof.
  intros Hnd. induction zs as [|n zs IH]; intros Hsub r Hr.
  { simpl. by rewrite extend_nil. }
  assert (n ∈ nodes c) as Hn by (apply Hsub; by left).
  apply list_elem_of_lookup in Hn as [i Hi].
  simpl in *. rewrite (find_node_by_pid_unique c i n Hnd Hi), (deref_Some _ _ _ Hi). simpl.
  unfold killable_parents. rewrite filter_cons.
  case_bool_decide as Hgt; case_decide; try done; simpl.
  - rewrite store_result_extend. case_decide; [|lia]. simpl.
    fold (killable_parents zs).
    rewrite IH; [|intros x Hx; apply Hsub; by right|rewrite count_extend; simpl; lia].
    rewrite extend_extend. done.
  - fold (killable_parents zs).
    rewrite IH; [done|intros x Hx; apply Hsub; by right|lia].
Qed.

Lemma zombies_below_nodes ns i e : zombies_below ns i e ⊆ ns.
Proof.
  intros n [_ Hn]%list_elem_of_filter. by eapply elem_of_slice.
Qed.

(** ** Signalling the descendants of a process *)

Lemma selects_sublist {A} (P : A → Prop) l ds : selects P l ds → ds `sublist_of` l.
Proof. induction 1; by constructor. Qed.

Lemma selects_elem_of {A} (P : A → Prop) l ds x :
  selects P l ds → x ∈ ds ↔ x ∈ l ∧ P x.
Proof.
  induction 1 as [|y l ds Hy _ IH|y l ds Hy _ IH].
  - split; [by intros ?%elem_of_nil|by intros [?%elem_of_nil _]].
  - rewrite !elem_of_cons, IH. split; [|tauto].
    intros [->|[? ?]]; tauto.
  - rewrite elem_of_cons, IH. split; [tauto|].
    intros [[->|?] ?]; tauto.
Qed.

Lemma selects_exists {A} (P : A → Prop) l :
  (∀ x, x ∈ l → P x ∨ ¬ P x) → ∃ ds, selects P l ds.
Proof.
  induction l as [|x l IH]; intros Hdec.
  - exists []. constructor.
  - destruct IH as [ds Hds]; [intros y Hy; apply Hdec; by right|].
    destruct (Hdec x) as [Hx|Hx]; [by left| |].
    + exists (x :: ds). by constructor.
    + exists ds. by constructor.
Qed.

Lemma wf_parent_lt root_pid c i n p :
  well_formed root_pid c → nodes c !! i = Some n → parent n = Some p → p < i.
Proof.
  intros Hwf Hn Hp. destruct (decide (i = 0)) as [->|Hne].
  - destruct (wf_root_node _ _ Hwf) as (rn & Hrn & _ & Hnone). congruence.
  - destruct (wf_parent _ _ Hwf i n Hn Hne) as (p' & pn & Hp' & Hlt & _). congruence.
Qed.

(** The walk up the parent links signals and records the node exactly when
    it meets the pid. *)
Lemma signal_if_descendant_spec root_pid c os pid sig current r :
  well_formed root_pid c →
  ∀ p fuel, p < fuel → p < size c →
    (reaches (nodes c) pid (Some p) ∧
     signal_if_descendant fuel os (nodes c) current (Some p) pid sig r =
     match store_result r (id (data current)) with
     | Ok r' => Done r' [Signalled (id (data current)) sig]
     | Err e => Crash e
     end) ∨
    (¬ reaches (nodes c) pid (Some p) ∧
     signal_if_descendant fuel os (nodes c) current (Some p) pid sig r = Done r []).
Proof.
  intros Hwf p. induction (lt_wf p) as [p _ IH]. intros fuel Hfuel Hp.
  destruct fuel as [|fuel]; [lia|].
  destruct (lookup_lt_is_Some_2 (nodes c) p Hp) as [pn Hpn].
  simpl. rewrite (deref_Some _ _ _ Hpn), run_bind_lift_Ok.
  case_bool_decide as Hid.
  { left. split; [by eapply reaches_here|].
    by destruct (store_result r (id (data current))). }
  destruct (parent pn) as [p'|] eqn:Hpp.
  - pose proof (wf_parent_lt _ _ _ _ _ Hwf Hpn Hpp) as Hlt.
    destruct (IH p' Hlt fuel) as [[Hreach Heq]|[Hreach Heq]]; [lia..| |].
    + left. split; [|done]. eapply reaches_up; [done|]. by rewrite Hpp.
    + right. split; [|done]. intros Hr.
      inversion Hr as [? ? Hl Hi|? ? Hl Hup]; simplify_eq; try done.
      rewrite Hpp in Hup. done.
  - right. split.
    + intros Hr. inversion Hr as [? ? Hl Hi|? ? Hl Hup]; simplify_eq; try done.
      rewrite Hpp in Hup. inversion Hup.
    + by destruct fuel.
Qed.

Lemma reaches_parent_dec root_pid c pid n :
  well_formed root_pid c → n ∈ nodes c →
  reaches (nodes c) pid (parent n) ∨ ¬ reaches (nodes c) pid (parent n).
Proof.
  intros Hwf [i Hi]%list_elem_of_lookup. destruct (parent n) as [p|] eqn:Hp.
  - pose proof (wf_parent_lt _ _ _ _ _ Hwf Hi Hp). apply lookup_lt_Some in Hi.
    destruct (signal_if_descendant_spec root_pid c (λ _ _, 0%Z) pid SIGKILL n
                (init_result None) Hwf p (S p)) as [[? _]|[? _]];
      [lia|unfold size, collection_size; lia|by left|by right].
  - right. inversion 1.
Qed.

Lemma signal_loop root_pid c os pid sig fuel l ds :
  well_formed root_pid c → size c ≤ fuel → l ⊆ nodes c →
  selects (λ n, reaches (nodes c) pid (parent n)) l ds →
  ∀ r, count r ≤ result_capacity r →
    for_each (λ result current,
                signal_if_descendant fuel os (nodes c) current (parent current)
                                     pid sig result) r l =
    if decide (count r + length ds ≤ result_capacity r)
    then Done (extend r (ids ds)) ((λ n, Signalled (id (data n)) sig) <$> ds)
    else Crash (OutOfBounds (result_capacity r)).
Proof.
  intros Hwf Hfuel Hsub Hsel.
  induction Hsel as [|n l ds Hn Hsel IH|n l ds Hn Hsel IH]; intros r Hr.
  - simpl. rewrite extend_nil. case_decide; [done|lia].
  - assert (n ∈ nodes c) as [i Hi]%list_elem_of_lookup by (apply Hsub; by left).
    destruct (parent n) as [p|] eqn:Hp; [|inversion Hn].
    pose proof (wf_parent_lt _ _ _ _ _ Hwf Hi Hp). pose proof (lookup_lt_Some _ _ _ Hi).
    rewrite for_each_cons, Hp.
    destruct (signal_if_descendant_spec root_pid c os pid sig n r Hwf p fuel)
      as [[_ ->]|[Hnot _]]; [unfold size, collection_size in *; lia..| |done].
    rewrite store_result_extend. case_decide as Hlt.
    + rewrite run_bind_Done.
      rewrite IH; [|intros x Hx; apply Hsub; by right|rewrite count_extend; simpl; lia].
      rewrite count_extend, extend_extend. simpl.
      repeat case_decide; try reflexivity; lia.
    + unfold count in *. simpl. case_decide; [lia|]. do 2 f_equal. lia.
  - assert (n ∈ nodes c) as [i Hi]%list_elem_of_lookup by (apply Hsub; by left).
    rewrite for_each_cons.
    assert (signal_if_descendant fuel os (nodes c) n (parent n) pid sig r = Done r []) as ->.
    { destruct (parent n) as [p|] eqn:Hp; [|by destruct fuel].
      pose proof (wf_parent_lt _ _ _ _ _ Hwf Hi Hp). pose proof (lookup_lt_Some _ _ _ Hi).
      destruct (signal_if_descendant_spec root_pid c os pid sig n r Hwf p fuel)
        as [[Hyes _]|[_ ->]]; [unfold size, collection_size in *; lia..|done|done]. }
    rewrite run_bind_Done.
    rewrite IH; [|intros x Hx; apply Hsub; by right|done].
    by case_decide.
Qed.

(** * The claims *)

Lemma scenario_built : built 5 scenario 1 scenario_tree.
Proof. reflexivity. Qed.

Lemma built_cases fuel snap root_pid c :
  built fuel snap root_pid c → c = init_collection 1000 ∨ well_formed root_pid c.
Proof.
  intros [[_ ->]|(rd & rn & _ & Hwf & _)]%built_spec; [by left|by right].
Qed.

Lemma count_occ_NoDup (l : list nat) (x : nat) :
  NoDup l → x ∈ l → count_occ Nat.eq_dec l x = 1.
Proof.
  induction 1 as [|y l Hy Hnd IH]; intros Hx; [by apply elem_of_nil in Hx|].
  simpl. destruct (Nat.eq_dec y x) as [->|Hne].
  - f_equal. apply count_occ_not_In. by rewrite <- list_elem_of_In.
  - apply IH. apply elem_of_cons in Hx as [->|Hx]; done.
Qed.

(** C3. For every process table the builder returns, given enough fuel, and
    what it returns is a finite rooted tree: from every node the parent
    links lead, in finitely many steps, to the root, which has no parent,
    and they never lead back to the node.  The table is arbitrary, so a
    process may name itself or one of its descendants as its parent. *)
Theorem builder_terminates_with_rooted_tree (snap : ProcSnapshot) (root_pid : Z) :
  ∃ c, (∀ k, built (S (length (proc_dir snap)) + k) snap root_pid c) ∧
       rooted_tree c ∧ acyclic c.
Proof.
  destruct (built_terminates snap root_pid 0) as [c Hc]. exists c. split_and!.
  - intros k. eapply built_mono; [done|lia].
  - apply built_cases in Hc as [->|Hwf].
    + intros i Hi. unfold size, collection_size in Hi. simpl in Hi. lia.
    + by eapply wf_rooted_tree.
  - apply built_cases in Hc as [->|Hwf].
    + intros i k. simpl. by destruct i.
    + by eapply wf_acyclic.
Qed.

(** A process that is its own parent is the root and nothing else; of two
    processes that name each other, the one asked for is the root and the
    other its child. *)
Example build_self_parent :
  build_process_hierarchy 3 self_parent (init_collection 1000) 5 =
  Ok {| nodes := [ mkNode (mkMetadata 5 5 false) None [1];
                   mkNode (mkMetadata 6 5 false) (Some 0) [] ];
        root := Some 0 |}.
Proof. reflexivity. Qed.

Example build_mutual_parents :
  build_process_hierarchy 3 mutual_parents (init_collection 1000) 6 =
  Ok {| nodes := [ mkNode (mkMetadata 6 7 false) None [1];
                   mkNode (mkMetadata 7 6 false) (Some 0) [] ];
        root := Some 0 |}.
Proof. reflexivity. Qed.

(** C4. In a built tree every node but the root has a parent link; the link
    leads to a node whose pid is the node's [parent_id], and that node has
    the node exactly once among its children. *)
Theorem parent_links_agree_with_children fuel snap root_pid c i n :
  built fuel snap root_pid c →
  nodes c !! i = Some n → root c ≠ Some i →
  ∃ p pn, parent n = Some p ∧ nodes c !! p = Some pn ∧
          id (data pn) = parent_id (data n) ∧
          count_occ Nat.eq_dec (children pn) i = 1.
Proof.
  intros [->|Hwf]%built_cases Hn Hroot; [done|].
  assert (i ≠ 0) as Hne by (intros ->; by rewrite (wf_root _ _ Hwf) in Hroot).
  destruct (wf_parent _ _ Hwf i n Hn Hne) as (p & pn & Hp & _ & Hpn & Hq & Hin).
  exists p, pn. split_and!; [done..|].
  apply count_occ_NoDup; [|done]. by eapply wf_children.
Qed.

Lemma parent_links_agree_with_children_witness :
  built 5 scenario 1 scenario_tree ∧
  nodes scenario_tree !! 2 = Some (mkNode (mkMetadata 4 2 true) (Some 1) []) ∧
  root scenario_tree ≠ Some 2 ∧
  ∃ p pn, parent (mkNode (mkMetadata 4 2 true) (Some 1) []) = Some p ∧
          nodes scenario_tree !! p = Some pn ∧
          id (data pn) = parent_id (data (mkNode (mkMetadata 4 2 true) (Some 1) [])) ∧
          count_occ Nat.eq_dec (children pn) 2 = 1.
Proof.
  split_and!; [reflexivity|reflexivity|discriminate|].
  apply (parent_links_agree_with_children 5 scenario 1 scenario_tree 2);
    [reflexivity|reflexivity|discriminate].
Defined.

(** C10. The linking loop that ends [build_process_hierarchy] adds no link:
    the tree is the one the discovery left.  When the loop starts, every
    node whose pid is not the root pid has a parent link already. *)
Theorem linking_pass_changes_nothing (fuel : nat) (snap : ProcSnapshot) (root_pid : Z) :
  build_process_hierarchy fuel snap (init_collection 1000) root_pid =
    discover_from_root fuel snap (init_collection 1000) root_pid ∧
  ∀ c, discover_from_root fuel snap (init_collection 1000) root_pid = Ok c →
    link_all_nodes root_pid c = Ok c ∧
    ∀ i n, nodes c !! i = Some n → id (data n) ≠ root_pid → is_Some (parent n).
Proof.
  split; [apply build_process_hierarchy_discover|].
  intros c [[_ ->]|(rd & rn & _ & Hwf & _)]%discover_from_root_spec.
  - split; [done|]. intros i n Hn. done.
  - split; [by apply link_all_nodes_same|].
    intros i n Hn Hid.
    assert (i ≠ 0) as Hne.
    { intros ->. destruct (wf_root_node _ _ Hwf) as (rn' & Hrn' & Hrid & _). congruence. }
    destruct (wf_parent _ _ Hwf i n Hn Hne) as (p & pn & -> & _). eauto.
Qed.

Lemma linking_pass_changes_nothing_witness :
  discover_from_root 5 scenario (init_collection 1000) 1 = Ok scenario_tree ∧
  link_all_nodes 1 scenario_tree = Ok scenario_tree ∧
  ∀ i n, nodes scenario_tree !! i = Some n → id (data n) ≠ 1%Z → is_Some (parent n).
Proof.
  split; [reflexivity|].
  apply (proj2 (linking_pass_changes_nothing 5 scenario 1) scenario_tree). reflexivity.
Defined.

(** The tree of a process with 1001 zombies as its children. *)
Lemma zombie_star_built : built 3 (zombie_star 1001) 2 (zombie_star_tree 1001).
Proof. vm_compute. reflexivity. Qed.

(** On a built tree with a root, [get_defunct_descendants] of the root
    returns exactly when the zombies below the root fit the result buffer,
    and then [count_zombies] is the number of ids it returns, plus one if
    the root itself is a zombie. *)
Lemma defunct_descendants_of_root fuel snap root_pid c r rn fuel' :
  built fuel snap root_pid c →
  root c = Some r → nodes c !! r = Some rn → size c ≤ fuel' →
  (∀ res, get_defunct_descendants fuel' c root_pid = Ok res →
     count_zombies c = count res + (if defunct_flag (data rn) then 1 else 0)) ∧
  ((∃ res, get_defunct_descendants fuel' c root_pid = Ok res) ↔
     count_zombies c ≤ RESULT_CAPACITY + (if defunct_flag (data rn) then 1 else 0)).
Proof.
  intros [->|Hwf]%built_cases Hroot Hrn Hfuel; [done|].
  rewrite (wf_root _ _ Hwf) in Hroot. injection Hroot as <-.
  destruct (wf_root_node _ _ Hwf) as (rn' & Hrn' & Hrid & _).
  assert (rn' = rn) as -> by congruence.
  assert (find_node_by_pid c root_pid = Some 0) as Hfind.
  { rewrite <- Hrid. apply find_node_by_pid_unique; [apply Hwf|done]. }
  rewrite (get_defunct_descendants_laid fuel' c root_pid 0 (size c) Hfind (wf_laid _ _ Hwf))
    by lia.
  rewrite store_all_extend by (rewrite init_result_count; lia).
  rewrite init_result_count, Nat.add_0_l.
  assert (count_zombies c =
          length (ids (zombies_below (nodes c) 0 (size c)))
          + (if defunct_flag (data rn) then 1 else 0)) as ->.
  { rewrite count_zombies_filter. unfold ids, zombies_below. rewrite length_fmap.
    rewrite <- (slice_all (nodes c)) at 1.
    pose proof (lookup_lt_Some _ _ _ Hrn).
    rewrite (slice_cons _ 0 _ rn Hrn) by done. rewrite filter_cons.
    destruct (defunct_flag (data rn)); case_decide; simpl;
      try done; unfold size, collection_size; lia. }
  rewrite init_result_capacity.
  split.
  - intros res. case_decide; [|done]. intros [= <-].
    unfold count, extend. simpl. done.
  - split.
    + intros [res Hres]. case_decide; [|done]. lia.
    + intros Hle. case_decide; [eauto|lia].
Qed.

(** C5 (as stated it fails).  The process 2 with 1001 zombies as its
    children is not a zombie, and [count_zombies] is 1001, but
    [get_defunct_descendants] of the root returns nothing to take the length
    of: the store of the last zombie is outside the result buffer. *)
Lemma defunct_descendants_of_root_overflow :
  built 3 (zombie_star 1001) 2 (zombie_star_tree 1001) ∧
  root (zombie_star_tree 1001) = Some 0 ∧
  count_zombies (zombie_star_tree 1001) = 1001 ∧
  get_defunct_descendants 1002 (zombie_star_tree 1001) 2 = Err (OutOfBounds 1000) ∧
  ¬ ∃ res, get_defunct_descendants 1002 (zombie_star_tree 1001) 2 = Ok res ∧
           count_zombies (zombie_star_tree 1001) = count res + 0.
Proof.
  assert (get_defunct_descendants 1002 (zombie_star_tree 1001) 2 = Err (OutOfBounds 1000))
    as Hrun by (vm_compute; reflexivity).
  split_and!; [apply zombie_star_built|reflexivity|vm_compute; reflexivity|exact Hrun|].
  intros (res & Hres & _). by rewrite Hrun in Hres.
Qed.

(** C5 (amended).  In a built tree whose root has at most 1000 zombies below
    it, [get_defunct_descendants] of the root returns, and [count_zombies]
    is the number of ids it returns, plus one if the root itself is a
    zombie. *)
Theorem count_zombies_is_defunct_descendants_of_root fuel snap root_pid c r rn fuel' :
  built fuel snap root_pid c →
  root c = Some r → nodes c !! r = Some rn → size c ≤ fuel' →
  count_zombies c ≤ 1000 + (if defunct_flag (data rn) then 1 else 0) →
  ∃ res, get_defunct_descendants fuel' c root_pid = Ok res ∧
         count_zombies c = count res + (if defunct_flag (data rn) then 1 else 0).
Proof.
  intros Hc Hroot Hrn Hfuel Hfit.
  destruct (defunct_descendants_of_root _ _ _ _ _ _ _ Hc Hroot Hrn Hfuel) as [Heq Hret].
  destruct (proj2 Hret Hfit) as [res Hres]. exists res. split; [done|]. by apply Heq.
Qed.

Lemma count_zombies_is_defunct_descendants_of_root_witness :
  built 5 scenario 1 scenario_tree ∧
  count_zombies scenario_tree ≤ 1000 + 0 ∧
  ∃ res, get_defunct_descendants 4 scenario_tree 1 = Ok res ∧
         count_zombies scenario_tree = count res + 0.
Proof.
  split; [reflexivity|]. split; [vm_compute; lia|].
  apply (count_zombies_is_defunct_descendants_of_root 5 scenario 1 scenario_tree 0
           (mkNode (mkMetadata 1 0 false) None [1; 3]) 4);
    [reflexivity|reflexivity|reflexivity|vm_compute; lia|vm_compute; lia].
Defined.

(** The zombies 2 and 4 of the scenario. *)
Example defunct_descendants_scenario :
  get_defunct_descendants 4 scenario_tree 1 =
    Ok (extend (init_result (Some "No descendant zombie process/es")) [2; 4]%Z) ∧
  count_zombies scenario_tree = 2.
Proof. split; reflexivity. Qed.

(** C6 (as stated it fails).  The process 2 has 1001 zombies as its
    children, among them 3, whose [parent_id] 2 is greater than 1; yet
    [kill_zombie_parents] of 2 signals and records nothing: collecting the
    zombies runs out of the result buffer. *)
Lemma kill_zombie_parents_overflow :
  built 3 (zombie_star 1001) 2 (zombie_star_tree 1001) ∧
  find_node_by_pid (zombie_star_tree 1001) 2 = Some 0 ∧
  nodes (zombie_star_tree 1001) !! 1 = Some (mkNode (mkMetadata 3 2 true) (Some 0) []) ∧
  reaches (nodes (zombie_star_tree 1001)) 2 (Some 0) ∧
  kill_zombie_parents 1002 no_answer (zombie_star_tree 1001) 2 = Crash (OutOfBounds 1000).
Proof.
  split_and!; [apply zombie_star_built|reflexivity|reflexivity| |vm_compute; reflexivity].
  by eapply reaches_here.
Qed.

Lemma zombie_family_built : built 5 zombie_family 1 zombie_family_tree.
Proof. reflexivity. Qed.

(** The parent 2 of the zombies 5 and 6 is signalled and recorded twice, and
    the parent 1 of the zombie 2 is left alone. *)
Example kill_zombie_parents_family :
  kill_zombie_parents 4 no_answer zombie_family_tree 1 =
  Done (extend (init_result None) [2; 2]%Z) [Signalled 2 SIGKILL; Signalled 2 SIGKILL].
Proof. reflexivity. Qed.

(** On a built tree, for a target that is in it: the nodes [ds] from which
    the walk up the parent links meets the pid of the target, and what
    [signal_all_descendants] does with them. *)
Lemma signal_all_descendants_cases fuel snap root_pid c os pid t sig fuel' :
  built fuel snap root_pid c →
  find_node_by_pid c pid = Some t → size c ≤ fuel' →
  ∃ ds : list ProcessNode,
    ds `sublist_of` nodes c ∧
    (∀ n, n ∈ nodes c → n ∈ ds ↔ reaches (nodes c) pid (parent n)) ∧
    signal_all_descendants fuel' os c pid sig =
    if decide (length ds ≤ RESULT_CAPACITY)
    then Done (extend (init_result None) (ids ds))
              ((λ n, Signalled (id (data n)) sig) <$> ds)
    else Crash (OutOfBounds RESULT_CAPACITY).
Proof.
  intros [->|Hwf]%built_cases Hfind Hfuel; [done|].
  destruct (selects_exists (λ n, reaches (nodes c) pid (parent n)) (nodes c)) as [ds Hds].
  { intros n Hn. by eapply reaches_parent_dec. }
  exists ds. split_and!.
  - by eapply selects_sublist.
  - intros n Hn. rewrite (selects_elem_of _ _ _ _ Hds). tauto.
  - unfold signal_all_descendants. rewrite Hfind.
    rewrite (signal_loop root_pid c os pid sig fuel' (nodes c) ds Hwf Hfuel)
      by first [done | reflexivity | rewrite init_result_count; lia].
    by rewrite init_result_count, Nat.add_0_l, init_result_capacity.
Qed.

(** C7 (as stated it fails).  The 1001 children of the process 2 are its
    proper descendants, but [signal_all_descendants] of 2 does not return
    their pids: the store of the last one is outside the result buffer. *)
Lemma signal_all_descendants_overflow :
  built 3 (zombie_star 1001) 2 (zombie_star_tree 1001) ∧
  find_node_by_pid (zombie_star_tree 1001) 2 = Some 0 ∧
  length (filter (λ n, parent n = Some 0) (nodes (zombie_star_tree 1001))) = 1001 ∧
  signal_all_descendants 1002 no_answer (zombie_star_tree 1001) 2 SIGKILL =
    Crash (OutOfBounds 1000).
Proof.
  split_and!; [apply zombie_star_built|reflexivity|vm_compute; reflexivity..].
Qed.

(** C7 (amended).  In a built tree, for a target that is in it and any
    signal, let [ds] be the nodes from which the walk up the parent links
    meets the pid of the target, in the order of the collection.  When they
    are at most 1000, [signal_all_descendants] sends the signal to the nodes
    of [ds], to each once and to no other process, and returns their pids,
    whatever [kill] answers. *)
Theorem signal_all_descendants_signals_proper_descendants
    fuel snap root_pid c os pid t sig fuel' :
  built fuel snap root_pid c →
  find_node_by_pid c pid = Some t → size c ≤ fuel' →
  ∃ ds : list ProcessNode,
    ds `sublist_of` nodes c ∧
    (∀ n, n ∈ nodes c → n ∈ ds ↔ reaches (nodes c) pid (parent n)) ∧
    (length ds ≤ 1000 →
     signal_all_descendants fuel' os c pid sig =
     Done (extend (init_result None) (ids ds))
          ((λ n, Signalled (id (data n)) sig) <$> ds)).
Proof.
  intros Hc Hfind Hfuel.
  destruct (signal_all_descendants_cases _ _ _ _ os _ _ sig _ Hc Hfind Hfuel)
    as (ds & Hsub & Hin & Hrun).
  exists ds. split_and!; [done..|].
  intros Hfit. rewrite Hrun. by rewrite decide_True.
Qed.

Lemma signal_all_descendants_signals_proper_descendants_witness :
  built 5 scenario 1 scenario_tree ∧
  find_node_by_pid scenario_tree 2 = Some 1 ∧
  size scenario_tree ≤ 4 ∧
  ∃ ds : list ProcessNode,
    ds `sublist_of` nodes scenario_tree ∧
    (∀ n, n ∈ nodes scenario_tree → n ∈ ds ↔ reaches (nodes scenario_tree) 2 (parent n)) ∧
    (length ds ≤ 1000 →
     signal_all_descendants 4 no_answer scenario_tree 2 SIGSTOP =
     Done (extend (init_result None) (ids ds))
          ((λ n, Signalled (id (data n)) SIGSTOP) <$> ds)).
Proof.
  split_and!; [reflexivity|reflexivity|vm_compute; lia|].
  apply (signal_all_descendants_signals_proper_descendants 5 scenario 1 scenario_tree
           no_answer 2 1 SIGSTOP 4); [reflexivity|reflexivity|vm_compute; lia].
Defined.

(** The descendants of 1 in the scenario, killed in the order of the
    collection. *)
Example signal_all_descendants_scenario :
  signal_all_descendants 4 no_answer scenario_tree 1 SIGKILL =
  Done (extend (init_result None) [2; 4; 3]%Z)
       [Signalled 2 SIGKILL; Signalled 4 SIGKILL; Signalled 3 SIGKILL].
Proof. reflexivity. Qed.

(** ** The result buffer *)

Lemma init_result_ok msg : buffer_ok (init_result msg).
Proof. split; [done|]. rewrite init_result_count. lia. Qed.

Lemma store_result_bounded r x : buffer_ok r → bounded (store_result r x).
Proof.
  intros [Hcap Hcount]. rewrite store_result_extend. case_decide; simpl.
  - split; [done|]. rewrite count_extend. simpl. lia.
  - lia.
Qed.

Lemma bounded_bind (m : outcome CommandResult) (f : CommandResult → outcome CommandResult) :
  bounded m → (∀ r, buffer_ok r → bounded (f r)) → bounded (m ≫= f).
Proof. destruct m as [r|e]; simpl; eauto. Qed.

Lemma bounded_deref ns i (f : ProcessNode → outcome CommandResult) :
  (∀ n, bounded (f n)) → bounded (deref ns i ≫= f).
Proof. intros Hf. unfold deref. destruct (ns !! i); simpl; eauto. Qed.

Lemma for_each_bounded {A} (body : CommandResult → A → outcome CommandResult) l :
  (∀ r x, buffer_ok r → bounded (body r x)) →
  ∀ r, buffer_ok r → bounded (for_each body r l).
Proof.
  intros Hbody. induction l as [|x l IH]; intros r Hr; simpl; [done|].
  apply bounded_bind; eauto.
Qed.

Lemma collect_defunct_descendants_bounded fuel ns :
  ∀ i r, buffer_ok r → bounded (collect_defunct_descendants fuel ns i r).
Proof.
  induction fuel as [|fuel IH]; intros i r Hr; simpl; [done|].
  apply bounded_deref. intros n. apply for_each_bounded; [|done].
  intros r' k Hr'. apply bounded_deref. intros child. apply bounded_bind; [|by eauto].
  destruct (defunct_flag (data child)); [by apply store_result_bounded|done].
Qed.

Lemma collect_indirect_descendants_bounded fuel ns :
  ∀ i r, buffer_ok r → bounded (collect_indirect_descendants fuel ns i r).
Proof.
  induction fuel as [|fuel IH]; intros i r Hr; simpl; [done|].
  apply bounded_deref. intros n. apply for_each_bounded; [|done].
  intros r1 k Hr1. apply bounded_deref. intros child. apply for_each_bounded; [|done].
  intros r2 j Hr2. apply bounded_deref. intros grandchild.
  apply bounded_bind; [by apply store_result_bounded|by eauto].
Qed.

Lemma get_direct_descendants_bounded c pid : bounded (get_direct_descendants c pid).
Proof.
  unfold get_direct_descendants.
  destruct (find_node_by_pid c pid) as [t|]; [|apply init_result_ok].
  apply bounded_deref. intros n. apply for_each_bounded; [|apply init_result_ok].
  intros r k Hr. apply bounded_deref. intros child. by apply store_result_bounded.
Qed.

Lemma get_grandchildren_bounded c pid : bounded (get_grandchildren c pid).
Proof.
  unfold get_grandchildren.
  destruct (find_node_by_pid c pid) as [t|]; [|apply init_result_ok].
  apply bounded_deref. intros n. apply for_each_bounded; [|apply init_result_ok].
  intros r k Hr. apply bounded_deref. intros child. apply for_each_bounded; [|done].
  intros r2 j Hr2. apply bounded_deref. intros grandchild. by apply store_result_bounded.
Qed.

Lemma get_indirect_descendants_bounded fuel c pid :
  bounded (get_indirect_descendants fuel c pid).
Proof.
  unfold get_indirect_descendants.
  destruct (find_node_by_pid c pid) as [t|]; [|apply init_result_ok].
  apply collect_indirect_descendants_bounded, init_result_ok.
Qed.

Lemma get_siblings_bounded c pid : bounded (get_siblings c pid).
Proof.
  unfold get_siblings.
  destruct (find_node_by_pid c pid) as [t|]; [|apply init_result_ok].
  apply bounded_deref. intros n. destruct (parent n) as [p|]; [|apply init_result_ok].
  apply bounded_deref. intros pn. apply for_each_bounded; [|apply init_result_ok].
  intros r k Hr. apply bounded_deref. intros sibling.
  case_bool_decide; [by apply store_result_bounded|done].
Qed.

Lemma get_defunct_siblings_bounded c pid : bounded (get_defunct_siblings c pid).
Proof.
  unfold get_defunct_siblings.
  destruct (find_node_by_pid c pid) as [t|]; [|apply init_result_ok].
  apply bounded_deref. intros n. destruct (parent n) as [p|]; [|apply init_result_ok].
  apply bounded_deref. intros pn. apply for_each_bounded; [|apply init_result_ok].
  intros r k Hr. apply bounded_deref. intros sibling.
  destruct (_ && _); [by apply store_result_bounded|done].
Qed.

Lemma get_defunct_descendants_bounded fuel c pid :
  bounded (get_defunct_descendants fuel c pid).
Proof.
  unfold get_defunct_descendants.
  destruct (find_node_by_pid c pid) as [t|]; [|apply init_result_ok].
  apply collect_defunct_descendants_bounded, init_result_ok.
Qed.

Lemma lift_bounded m : bounded m → bounded_run (lift m).
Proof. by destruct m. Qed.

Lemma bounded_run_bind (m : run CommandResult) (f : CommandResult → run CommandResult) :
  bounded_run m → (∀ r, buffer_ok r → bounded_run (f r)) → bounded_run (m ≫= f).
Proof.
  destruct m as [r t|e]; simpl; [|done]. intros Hr Hf.
  specialize (Hf r Hr). by destruct (f r).
Qed.

Lemma bounded_run_deref ns i (f : ProcessNode → run CommandResult) :
  (∀ n, bounded_run (f n)) → bounded_run (lift (deref ns i) ≫= f).
Proof.
  intros Hf. unfold deref. destruct (ns !! i) as [n|]; simpl; [|done].
  specialize (Hf n). by destruct (f n).
Qed.

Lemma bounded_run_kill os pid sig (f : Z → run CommandResult) :
  (∀ status, bounded_run (f status)) → bounded_run (kill os pid sig ≫= f).
Proof. intros Hf. simpl. specialize (Hf (os pid sig)). by destruct (f (os pid sig)). Qed.

Lemma for_each_bounded_run {A} (body : CommandResult → A → run CommandResult) l :
  (∀ r x, buffer_ok r → bounded_run (body r x)) →
  ∀ r, buffer_ok r → bounded_run (for_each body r l).
Proof.
  intros Hbody. induction l as [|x l IH]; intros r Hr; simpl; [done|].
  apply bounded_run_bind; eauto.
Qed.

Lemma signal_if_descendant_bounded fuel os ns current pid sig r :
  buffer_ok r → ∀ p, bounded_run (signal_if_descendant fuel os ns current p pid sig r).
Proof.
  intros Hr. induction fuel as [|fuel IH]; intros [p|]; simpl; try done.
  apply bounded_run_deref. intros pn. case_bool_decide; [|apply IH].
  pose proof (store_result_bounded r (id (data current)) Hr) as Hs.
  simpl. by destruct (store_result r (id (data current))).
Qed.

Lemma signal_all_descendants_bounded fuel os c pid sig :
  bounded_run (signal_all_descendants fuel os c pid sig).
Proof.
  unfold signal_all_descendants.
  destruct (find_node_by_pid c pid) as [t|]; [|apply init_result_ok].
  apply for_each_bounded_run; [|apply init_result_ok].
  intros r current Hr. by apply signal_if_descendant_bounded.
Qed.

Lemma kill_zombie_parents_bounded fuel os c pid :
  bounded_run (kill_zombie_parents fuel os c pid).
Proof.
  unfold kill_zombie_parents.
  pose proof (get_defunct_descendants_bounded fuel c pid) as Hz.
  destruct (get_defunct_descendants fuel c pid) as [zombies|e]; [|done].
  rewrite run_bind_lift_Ok.
  apply for_each_bounded_run; [|apply init_result_ok].
  intros r z Hr. destruct (find_node_by_pid c z) as [zi|]; [|done].
  apply bounded_run_deref. intros zn. case_bool_decide; [|done].
  apply bounded_run_kill. intros _. by apply lift_bounded, store_result_bounded.
Qed.

Lemma handlers_bounded m fuel os c pid :
  m ∈ command_registry → bounded_run (handler m fuel os c pid).
Proof.
  unfold command_registry. rewrite !elem_of_cons, elem_of_nil.
  intros H. repeat (destruct H as [->|H]); try done; simpl.
  - apply init_result_ok.
  - apply lift_bounded, get_indirect_descendants_bounded.
  - apply lift_bounded, get_direct_descendants_bounded.
  - apply lift_bounded, get_siblings_bounded.
  - apply lift_bounded, get_defunct_siblings_bounded.
  - apply lift_bounded, get_defunct_descendants_bounded.
  - apply lift_bounded, get_grandchildren_bounded.
  - unfold handle_process_status. destruct (find_node_by_pid c pid) as [t|]; [|apply init_result_ok].
    apply bounded_run_deref. intros n. apply init_result_ok.
  - apply kill_zombie_parents_bounded.
  - apply signal_all_descendants_bounded.
  - apply signal_all_descendants_bounded.
  - apply signal_all_descendants_bounded.
  - unfold handle_kill_root. destruct (root c) as [ri|]; [|apply init_result_ok].
    apply bounded_run_deref. intros n. apply init_result_ok.
Qed.

Lemma store_children ns ks kns :
  Forall2 (λ k kn, ns !! k = Some kn) ks kns →
  ∀ r, for_each (λ result i, child ← deref ns i; store_result result (id (data child))) r ks
       = store_all r (ids kns).
Proof.
  induction 1 as [|k kn ks kns Hk _ IH]; intros r; [done|].
  simpl. rewrite (deref_Some _ _ _ Hk). simpl.
  unfold store_all. simpl. destruct (store_result r (id (data kn))); [apply IH|done].
Qed.

Lemma wf_children_nodes root_pid c i n :
  well_formed root_pid c → nodes c !! i = Some n →
  ∃ kns, Forall2 (λ k kn, nodes c !! k = Some kn) (children n) kns.
Proof.
  intros Hwf Hn. destruct (wf_children _ _ Hwf i n Hn) as [_ Hin].
  induction (children n) as [|k ks IH].
  - exists []. constructor.
  - destruct IH as [kns Hkns]; [intros j Hj; apply Hin; by right|].
    destruct (lookup_lt_is_Some_2 (nodes c) k) as [kn Hkn].
    { apply Hin. by left. }
    exists (kn :: kns). by constructor.
Qed.

(** A process with 1000 children and one with 1001: the first fills the
    block, the second faults on the store at index 1000. *)
Example direct_descendants_fill_the_buffer :
  count <$> (build_process_hierarchy 3 (star 1000) (init_collection 1000) 1
               ≫= λ c, get_direct_descendants c 1) = Ok 1000.
Proof. vm_compute. reflexivity. Qed.

Example direct_descendants_overflow_the_buffer :
  (build_process_hierarchy 3 (star 1001) (init_collection 1000) 1
     ≫= λ c, get_direct_descendants c 1) = Err (OutOfBounds 1000).
Proof. vm_compute. reflexivity. Qed.

(** ** The command line *)

Lemma display_results_nothing : display_results (init_result None) = Done () [].
Proof. done. Qed.

Lemma handle_kill_root_built fuel snap root_pid c fuel' os pid :
  built fuel snap root_pid c →
  handle_kill_root fuel' os c pid =
  Done (init_result None)
       (if root c is Some _ then [Signalled root_pid SIGKILL] else []).
Proof.
  intros [->|Hwf]%built_cases; [done|].
  unfold handle_kill_root. rewrite (wf_root _ _ Hwf).
  destruct (wf_root_node _ _ Hwf) as (rn & Hrn & Hrid & _).
  rewrite (deref_Some _ _ _ Hrn), run_bind_lift_Ok. simpl. by rewrite Hrid.
Qed.

Lemma main_kill_root fuel os snap args c :
  built fuel snap (argv1 args) c → 3 < argc args → argv3 args = "-rp" →
  main fuel os snap args =
  Done 0%Z (if root c is Some _ then [Signalled (argv1 args) SIGKILL] else []).
Proof.
  intros Hc Hargc Hopt. unfold main.
  rewrite bool_decide_false by lia.
  unfold built in Hc. rewrite Hc, run_bind_lift_Ok.
  rewrite bool_decide_false by lia.
  rewrite bool_decide_true by done.
  rewrite (handle_kill_root_built fuel snap (argv1 args) c fuel os (argv1 args) Hc).
  rewrite run_bind_Done, display_results_nothing. simpl.
  by rewrite !app_nil_r.
Qed.

(** C1 (the code departs from it).  In the chain 1, 2, 3, 4 of a process, its
    child, its grandchild and its great-grandchild, [get_indirect_descendants]
    of 1 returns the grandchild 3 alone: the great-grandchild 4, three parent
    links below 1, is missing. *)
Theorem indirect_descendants_miss_great_grandchildren :
  built 5 chain 1 chain_tree ∧
  get_indirect_descendants 4 chain_tree 1 =
    Ok (extend (init_result (Some "No non-direct descendants")) [3]%Z) ∧
  get_grandchildren chain_tree 1 =
    Ok (extend (init_result (Some "No grandchildren")) [3]%Z) ∧
  find_node_by_pid chain_tree 4 = Some 3 ∧
  ancestor (nodes chain_tree) 3 3 = find_node_by_pid chain_tree 1.
Proof. split_and!; reflexivity. Qed.

(** C2 (as stated it fails).  When no process has the root pid, the tree is
    empty and a run with [-rp] sends no signal at all. *)
Lemma kill_root_of_empty_tree_sends_nothing :
  fetch_process_data empty_table 7 = None ∧
  built 1 empty_table 7 (init_collection 1000) ∧
  main 1 no_answer empty_table (mkCmdline 4 "tool" 7 7 "-rp") = Done 0%Z [] ∧
  ¬ ∃ status trace,
      main 1 no_answer empty_table (mkCmdline 4 "tool" 7 7 "-rp") = Done status trace ∧
      Signalled 7 SIGKILL ∈ trace.
Proof.
  split_and!; [reflexivity..|].
  intros (status & trace & Hrun & Hin).
  change (Done 0%Z [] = Done status trace) in Hrun.
  injection Hrun as _ <-. by apply elem_of_nil in Hin.
Qed.

(** C2 (amended).  On a built tree [handle_kill_root], and a run with the
    option [-rp], sends [SIGKILL] to the root pid given on the command line
    when the tree has a root, which is when a process with that pid was
    found; on the empty tree it sends nothing.  In both cases nothing is
    printed and nothing else is signalled. *)
Theorem kill_root_signals_the_root_of_the_tree fuel os snap args c pid fuel' :
  built fuel snap (argv1 args) c →
  3 < argc args → argv3 args = "-rp" →
  (is_Some (root c) ↔ is_Some (fetch_process_data snap (argv1 args))) ∧
  handle_kill_root fuel' os c pid =
    Done (init_result None)
         (if root c is Some _ then [Signalled (argv1 args) SIGKILL] else []) ∧
  main fuel os snap args =
    Done 0%Z (if root c is Some _ then [Signalled (argv1 args) SIGKILL] else []).
Proof.
  intros Hc Hargc Hopt. split_and!.
  - apply built_spec in Hc as [[-> ->]|(rd & rn & -> & Hwf & _)].
    + simpl. split; by intros [? ?].
    + rewrite (wf_root _ _ Hwf). split; eauto.
  - by eapply handle_kill_root_built.
  - by apply main_kill_root.
Qed.

Lemma kill_root_signals_the_root_of_the_tree_witness :
  built 5 scenario 1 scenario_tree ∧
  (is_Some (root scenario_tree) ↔ is_Some (fetch_process_data scenario 1)) ∧
  handle_kill_root 0 no_answer scenario_tree 3%Z =
    Done (init_result None) [Signalled 1 SIGKILL] ∧
  main 5 no_answer scenario (mkCmdline 4 "tool" 1 3 "-rp") =
    Done 0%Z [Signalled 1 SIGKILL].
Proof.
  split; [reflexivity|].
  apply (kill_root_signals_the_root_of_the_tree 5 no_answer scenario
           (mkCmdline 4 "tool" 1 3 "-rp") scenario_tree 3 0);
    [reflexivity|simpl; lia|reflexivity].
Defined.

(** C8 (as stated it fails).  The table has the processes 1 to 4 and no
    process 9.  A run with [-rp] for the root pid 9 and the target 1 builds
    the empty tree and then sends nothing: it does not act on the root
    pid. *)
Lemma kill_root_without_root_process_sends_nothing :
  fetch_process_data scenario 9 = None ∧
  is_Some (fetch_process_data scenario 1) ∧
  built 5 scenario 9 (init_collection 1000) ∧
  main 5 no_answer scenario (mkCmdline 4 "tool" 9 1 "-rp") = Done 0%Z [] ∧
  ¬ ∃ status trace sig,
      main 5 no_answer scenario (mkCmdline 4 "tool" 9 1 "-rp") = Done status trace ∧
      Signalled 9 sig ∈ trace.
Proof.
  split_and!; [reflexivity|by eexists|reflexivity|reflexivity|].
  intros (status & trace & sig & Hrun & Hin).
  change (Done 0%Z [] = Done status trace) in Hrun.
  injection Hrun as _ <-. by apply elem_of_nil in Hin.
Qed.

(** C8 (amended).  A run with an option of the registry other than [-rp],
    for a target that is not in the tree, prints that the process does not
    belong to the tree and does nothing else: no handler runs and no signal
    is sent.  A run with [-rp] does not look at the target: whatever the
    target is, in the tree or not, the run sends [SIGKILL] to the root pid
    and does nothing else when the tree has a root, which is when a process
    with the root pid was found, and it does nothing at all when the tree
    has none. *)
Theorem missing_target_is_reported_except_for_kill_root fuel os snap args c :
  built fuel snap (argv1 args) c →
  3 < argc args →
  (argv3 args ≠ "-rp" → is_Some (find_command_handler (argv3 args)) →
   find_node_by_pid c (argv2 args) = None →
   main fuel os snap args =
   Done 0%Z [Printed ("The process " +:+ pretty (argv2 args)
                      +:+ " does not belong to the tree rooted at "
                      +:+ pretty (argv1 args))]) ∧
  (is_Some (root c) ↔ is_Some (fetch_process_data snap (argv1 args))) ∧
  (∀ target,
     main fuel os snap (mkCmdline (argc args) (argv0 args) (argv1 args) target "-rp") =
     Done 0%Z (if root c is Some _ then [Signalled (argv1 args) SIGKILL] else [])).
Proof.
  intros Hc Hargc. split_and!.
  - intros Hopt [h Hh] Hfind. unfold main.
    rewrite bool_decide_false by lia.
    unfold built in Hc. rewrite Hc, run_bind_lift_Ok.
    rewrite bool_decide_false by lia.
    rewrite bool_decide_false by done.
    rewrite Hh, Hfind. done.
  - apply built_spec in Hc as [[-> ->]|(rd & rn & -> & Hwf & _)].
    + simpl. split; by intros [? ?].
    + rewrite (wf_root _ _ Hwf). split; eauto.
  - intros target. by rewrite (main_kill_root fuel os snap _ c).
Qed.

Lemma missing_target_is_reported_except_for_kill_root_witness :
  built 5 scenario 1 scenario_tree ∧
  find_node_by_pid scenario_tree 7 = None ∧
  main 5 no_answer scenario (mkCmdline 4 "tool" 1 7 "-sk") =
    Done 0%Z [Printed "The process 7 does not belong to the tree rooted at 1"] ∧
  (is_Some (root scenario_tree) ↔ is_Some (fetch_process_data scenario 1)) ∧
  (∀ target,
     main 5 no_answer scenario (mkCmdline 4 "tool" 1 target "-rp") =
     Done 0%Z [Signalled 1 SIGKILL]).
Proof.
  split; [reflexivity|]. split; [reflexivity|].
  destruct (missing_target_is_reported_except_for_kill_root 5 no_answer scenario
              (mkCmdline 4 "tool" 1 7 "-sk") scenario_tree) as (Hmissing & Hroot & Hrp);
    [reflexivity|simpl; lia|].
  split; [|split; [exact Hroot|exact Hrp]].
  apply Hmissing; [discriminate|by eexists|reflexivity].
Defined.

(** * More of the program *)

(** ** The tree and the process table *)

Lemma fetch_process_data_id snap pid pd :
  fetch_process_data snap pid = Some pd → id pd = pid.
Proof.
  unfold fetch_process_data. destruct (proc_status snap pid) as [[ppid z]|]; [|done].
  by intros [= <-].
Qed.

Lemma create_node_data snap pid pd :
  fetch_process_data snap pid = Some pd →
  data (create_node pid (parent_id pd) (defunct_flag pd)) = pd.
Proof. intros <-%fetch_process_data_id. by destruct pd. Qed.

Lemma find_node_by_pid_is_Some c q : q ∈ ids (nodes c) → is_Some (find_node_by_pid c q).
Proof.
  intros Hq. destruct (find_node_by_pid c q) eqn:Hfind; [eauto|].
  by apply find_node_by_pid_None in Hfind.
Qed.

Lemma find_add_to_collection c nk q j :
  find_node_by_pid c q = Some j → find_node_by_pid (add_to_collection c nk) q = Some j.
Proof.
  rewrite !find_node_by_pid_Some. intros (n & Hn & Hid & Hmin).
  exists n. split_and!; [by apply lookup_app_l_Some|done|].
  intros j' m Hm Hlt. apply (Hmin j' m); [|done].
  simpl in Hm. rewrite lookup_app_l in Hm; [done|].
  apply lookup_lt_Some in Hn. lia.
Qed.

(** A property that holds when the discovery starts and that every stored
    and linked process keeps, holds when the discovery returns; no pid is
    ever removed. *)
Section discover_invariant.
Context (snap : ProcSnapshot) (P : ProcessCollection → Prop).
Hypothesis Hstep : ∀ c entry pd j,
  P c → entry ∈ proc_dir snap → is_process snap entry pd →
  find_node_by_pid c (d_name entry) = None →
  find_node_by_pid c (parent_id pd) = Some j →
  P (attach c j (create_node (d_name entry) (parent_id pd) (defunct_flag pd))).

Lemma scan_entry_invariant recurse q c entry c' :
  (∀ c q c', q ∈ ids (nodes c) → P c → recurse c q = Ok c' →
     P c' ∧ ids (nodes c) ⊆ ids (nodes c')) →
  entry ∈ proc_dir snap → q ∈ ids (nodes c) → P c →
  scan_entry recurse snap q c entry = Ok c' →
  P c' ∧ ids (nodes c) ⊆ ids (nodes c').
Proof.
  intros Hrec Hentry Hq HP. unfold scan_entry.
  destruct (d_is_dir entry) eqn:Hdir; [|by intros [= <-]].
  case_bool_decide as Hpos; [|by intros [= <-]].
  destruct (fetch_process_data snap (d_name entry)) as [pd|] eqn:Hfetch; [|by intros [= <-]].
  case_bool_decide as Hpp; [|by intros [= <-]].
  destruct (find_node_by_pid c (d_name entry)) as [?|] eqn:Hfind; [by intros [= <-]|].
  destruct (find_node_by_pid_is_Some c q Hq) as [j Hj].
  rewrite (find_add_to_collection _ _ _ _ Hj).
  change (add_child _ j (size c)) with
    (attach c j (create_node (d_name entry) (parent_id pd) (defunct_flag pd))).
  intros Hrun.
  pose proof (find_node_by_pid_lt _ _ _ Hj) as Hlt.
  pose proof (attach_ids c j (create_node (d_name entry) (parent_id pd) (defunct_flag pd)) Hlt)
    as Hids.
  apply Hrec in Hrun as [HP' Hsub].
  2:{ rewrite Hids. apply elem_of_app. right. by left. }
  2:{ apply Hstep; [done|done|done|done|by rewrite Hpp]. }
  split; [done|]. intros x Hx. apply Hsub. rewrite Hids. apply elem_of_app. by left.
Qed.

Lemma discover_children_invariant fuel :
  ∀ c q c', q ∈ ids (nodes c) → P c → discover_children fuel snap c q = Ok c' →
    P c' ∧ ids (nodes c) ⊆ ids (nodes c').
Proof.
  induction fuel as [|fuel IH]; intros c q c' Hq HP Hrun; [done|].
  simpl in Hrun.
  assert (∀ es, es ⊆ proc_dir snap → ∀ c c',
            q ∈ ids (nodes c) → P c →
            for_each (scan_entry (discover_children fuel snap) snap q) c es = Ok c' →
            P c' ∧ ids (nodes c) ⊆ ids (nodes c')) as Hscan.
  { clear c c' Hq HP Hrun.
    induction es as [|entry es IHes]; intros Hes c c' Hq HP Hrun.
    - simpl in Hrun. injection Hrun as <-. done.
    - simpl in Hrun. apply bind_Ok in Hrun as (c1 & Hone & Hrun).
      destruct (scan_entry_invariant _ _ _ _ _ IH (Hes _ ltac:(by left)) Hq HP Hone)
        as [HP1 Hsub1].
      destruct (IHes ltac:(intros x Hx; apply Hes; by right) c1 c' (Hsub1 _ Hq) HP1 Hrun)
        as [HP' Hsub'].
      split; [done|]. by etrans. }
  by eapply Hscan.
Qed.
End discover_invariant.

Lemma attach_lookup_data c j nk i n :
  j < size c → nodes (attach c j nk) !! i = Some n →
  (i < size c ∧ ∃ n0, nodes c !! i = Some n0 ∧ data n0 = data n) ∨
  (i = size c ∧ data n = data nk).
Proof.
  intros Hj Hn. destruct (decide (i < size c)) as [Hi|Hi].
  - left. split; [done|]. destruct (decide (i = j)) as [->|Hne].
    + rewrite attach_lookup_parent in Hn by done.
      destruct (nodes c !! j) as [n0|]; [|done]. injection Hn as <-. by exists n0.
    + rewrite attach_lookup_other in Hn by done. by exists n.
  - right. pose proof (lookup_lt_Some _ _ _ Hn) as Hlt.
    pose proof (attach_size c j nk Hj) as Hsz. unfold size, collection_size in *.
    assert (i = length (nodes c)) as -> by lia. split; [done|].
    pose proof (attach_lookup_child c j nk Hj) as Hk.
    unfold size, collection_size in Hk. rewrite Hk in Hn. by injection Hn as <-.
Qed.

Lemma discover_children_as_reported snap fuel c q c' :
  q ∈ ids (nodes c) → as_reported snap c ∧ from_proc snap c →
  discover_children fuel snap c q = Ok c' →
  as_reported snap c' ∧ from_proc snap c'.
Proof.
  intros Hq HP Hrun.
  eapply (discover_children_invariant snap (λ c, as_reported snap c ∧ from_proc snap c));
    [|exact Hq|exact HP|exact Hrun].
  clear. intros c entry pd j [Hrep Hfrom] Hentry Hproc Hnone Hj.
  pose proof (find_node_by_pid_lt _ _ _ Hj) as Hlt.
  pose proof Hproc as (_ & _ & Hfetch).
  split.
  - intros i n Hn. apply attach_lookup_data in Hn; [|done].
    destruct Hn as [(_ & n0 & Hn0 & <-)|[_ ->]].
    + by eapply Hrep.
    + rewrite (create_node_data _ _ _ Hfetch).
      by rewrite (fetch_process_data_id _ _ _ Hfetch).
  - intros i n Hn Hi. apply attach_lookup_data in Hn; [|done].
    destruct Hn as [(Hlti & n0 & Hn0 & <-)|[-> ->]].
    + by eapply Hfrom.
    + exists entry. split; [done|]. by rewrite (create_node_data _ _ _ Hfetch).
Qed.

Lemma built_as_reported fuel snap root_pid c :
  built fuel snap root_pid c → as_reported snap c ∧ from_proc snap c.
Proof.
  unfold built. rewrite build_process_hierarchy_discover. unfold discover_from_root.
  destruct (fetch_process_data snap root_pid) as [rd|] eqn:Hfetch.
  - apply discover_children_as_reported.
    + simpl. by left.
    + split.
      * intros [|i] n Hn; [|done]. injection Hn as <-.
        rewrite (create_node_data _ _ _ Hfetch).
        by rewrite (fetch_process_data_id _ _ _ Hfetch).
      * intros [|i] n Hn Hi; done.
  - intros [= <-]. split; intros i n Hn; done.
Qed.

(** X2. In a built tree the data of every node, its pid, its parent pid and
    its zombie flag, is what the status file of its pid holds; and every
    node but the root was found in [/proc] as a directory with a positive
    number for a name. *)
Theorem built_nodes_are_processes fuel snap root_pid c i n :
  built fuel snap root_pid c → nodes c !! i = Some n →
  fetch_process_data snap (id (data n)) = Some (data n) ∧
  (root c ≠ Some i →
   ∃ entry, entry ∈ proc_dir snap ∧ d_is_dir entry = true ∧
            (0 < d_name entry)%Z ∧ d_name entry = id (data n)).
Proof.
  intros Hc Hn. destruct (built_as_reported _ _ _ _ Hc) as [Hrep Hfrom].
  split; [by eapply Hrep|]. intros Hroot.
  apply built_cases in Hc as [->|Hwf]; [done|].
  destruct (Hfrom i n Hn) as (entry & Hentry & Hdir & Hpos & Hfetch).
  { intros ->. by rewrite (wf_root _ _ Hwf) in Hroot. }
  exists entry. split_and!; [done..|]. by apply fetch_process_data_id in Hfetch.
Qed.

Lemma built_nodes_are_processes_witness :
  fetch_process_data scenario 4 = Some (mkMetadata 4 2 true) ∧
  ∃ entry, entry ∈ proc_dir scenario ∧ d_is_dir entry = true ∧
           (0 < d_name entry)%Z ∧ d_name entry = 4%Z.
Proof.
  destruct (built_nodes_are_processes 5 scenario 1 scenario_tree 2
              (mkNode (mkMetadata 4 2 true) (Some 1) [])) as [Hfetch Hentry];
    [reflexivity|reflexivity|].
  split; [exact Hfetch|]. apply Hentry. discriminate.
Defined.

(** X1. In a built tree no two nodes have the same pid: looking up the pid
    of a node finds that node, and looking up the root pid finds the root,
    or nothing when the tree is empty. *)
Theorem find_node_by_pid_finds_each_node fuel snap root_pid c :
  built fuel snap root_pid c →
  find_node_by_pid c root_pid = root c ∧
  ∀ i n, nodes c !! i = Some n → find_node_by_pid c (id (data n)) = Some i.
Proof.
  intros [->|Hwf]%built_cases; [done|]. split.
  - destruct (wf_root_node _ _ Hwf) as (rn & Hrn & <- & _).
    rewrite (wf_root _ _ Hwf). apply find_node_by_pid_unique; [apply Hwf|done].
  - intros i n Hn. apply find_node_by_pid_unique; [apply Hwf|done].
Qed.

Lemma find_node_by_pid_finds_each_node_witness :
  find_node_by_pid scenario_tree 1 = root scenario_tree ∧
  ∀ i n, nodes scenario_tree !! i = Some n →
         find_node_by_pid scenario_tree (id (data n)) = Some i.
Proof.
  apply (find_node_by_pid_finds_each_node 5 scenario 1 scenario_tree). reflexivity.
Defined.

(** ** Children, parents and descendants *)

Lemma laid_kids_child_parent ns :
  (∀ i e, laid ns i e → ∀ x nx k, i ≤ x < e → ns !! x = Some nx → k ∈ children nx →
     ∃ nk, ns !! k = Some nk ∧ parent nk = Some x) ∧
  (∀ p q s ks e, kids ns p q s ks e →
     (∀ k, k ∈ ks → ∃ nk, ns !! k = Some nk ∧ parent nk = Some p) ∧
     ∀ x nx k, s ≤ x < e → ns !! x = Some nx → k ∈ children nx →
       ∃ nk, ns !! k = Some nk ∧ parent nk = Some x).
Proof.
  apply laid_kids_ind.
  - intros i n e Hn _ [Hks IH] x nx k Hx Hnx Hk.
    destruct (decide (x = i)) as [->|Hne].
    + assert (nx = n) as -> by congruence. by apply Hks.
    + eapply IH; [|done..]. lia.
  - intros p q s. split; [by intros k ?%elem_of_nil|intros; lia].
  - intros p q s m e n ks Hn Hp Hq Hl IHl Hk [Hks IHk].
    pose proof (laid_bounds _ _ _ Hl). pose proof (kids_bounds _ _ _ _ _ _ Hk).
    split.
    + intros k [->|Hin]%elem_of_cons; [eauto|by apply Hks].
    + intros x nx k Hx Hnx Hin. destruct (decide (x < m)) as [Hlt|Hge].
      * eapply IHl; [|done..]. lia.
      * eapply IHk; [|done..]. lia.
Qed.

Section family.
Context (root_pid : Z) (c : ProcessCollection).
Hypothesis Hwf : well_formed root_pid c.

Lemma wf_child_parent p pn k :
  nodes c !! p = Some pn → k ∈ children pn →
  ∃ nk, nodes c !! k = Some nk ∧ parent nk = Some p.
Proof.
  intros Hpn Hk. pose proof (lookup_lt_Some _ _ _ Hpn).
  eapply (proj1 (laid_kids_child_parent (nodes c)) _ _ (wf_laid _ _ Hwf) p); [|done..].
  unfold size, collection_size. lia.
Qed.

Lemma wf_parent_child i n p :
  nodes c !! i = Some n → parent n = Some p →
  ∃ pn, nodes c !! p = Some pn ∧ i ∈ children pn ∧
        parent_id (data n) = id (data pn) ∧ p < i.
Proof.
  intros Hn Hp. destruct (decide (i = 0)) as [->|Hne].
  - destruct (wf_root_node _ _ Hwf) as (rn & Hrn & _ & Hnone). congruence.
  - destruct (wf_parent _ _ Hwf i n Hn Hne) as (p' & pn & Hp' & Hlt & Hpn & Hq & Hin).
    assert (p' = p) as -> by congruence. eauto.
Qed.

Lemma wf_lookup_inj i j n m :
  nodes c !! i = Some n → nodes c !! j = Some m → id (data n) = id (data m) → i = j.
Proof.
  intros Hn Hm Hid.
  eapply (NoDup_lookup _ _ _ _ (wf_nodup _ _ Hwf)); unfold ids; rewrite list_lookup_fmap.
  - by rewrite Hn.
  - rewrite Hm. simpl. by rewrite Hid.
Qed.

(** The nodes stored after a node, up to the end of its subtree, are the
    nodes whose parent links lead to it. *)
Lemma wf_range_reaches t e nt :
  laid (nodes c) t e → nodes c !! t = Some nt →
  ∀ x nx, nodes c !! x = Some nx →
    t < x < e → reaches (nodes c) (id (data nt)) (parent nx).
Proof.
  intros Hl Hnt x. induction (lt_wf x) as [x _ IH]. intros nx Hnx Hx.
  destruct (proj1 (laid_kids_parents (nodes c)) _ _ Hl x Hx)
    as (nx' & p & np & Hnx' & Hp & Hb & Hnp & _).
  assert (nx' = nx) as -> by congruence. rewrite Hp.
  destruct (decide (p = t)) as [->|Hne].
  - assert (np = nt) as -> by congruence. by eapply reaches_here.
  - eapply reaches_up; [done|]. apply (IH p); [lia|done|lia].
Qed.

Lemma wf_reaches_range t e nt :
  laid (nodes c) t e → nodes c !! t = Some nt →
  ∀ o, reaches (nodes c) (id (data nt)) o →
    ∀ p x nx, o = Some p → nodes c !! x = Some nx → parent nx = Some p → t < x < e.
Proof.
  intros Hl Hnt o Hreach.
  induction Hreach as [p pn Hpn Hid|p pn Hpn Hup IH]; intros p' x nx [= <-] Hnx Hp.
  - assert (p = t) as -> by (by eapply wf_lookup_inj).
    destruct (wf_parent_child x nx t Hnx Hp) as (pn' & Hpn' & Hin & _).
    assert (pn' = nt) as -> by congruence.
    pose proof (laid_bounds _ _ _ Hl).
    destruct (proj1 (laid_kids_children (nodes c)) _ _ Hl t nt) as [_ Hkids]; [lia|done|].
    by apply Hkids.
  - destruct (parent pn) as [p2|] eqn:Hp2; [|inversion Hup].
    destruct (IH p2 p pn eq_refl Hpn Hp2) as [Htp Hpe].
    destruct (wf_parent_child x nx p Hnx Hp) as (pn' & Hpn' & Hin & _).
    assert (pn' = pn) as -> by congruence.
    destruct (proj1 (laid_kids_subtree (nodes c)) _ _ Hl p) as (e' & Hl' & He'); [lia|].
    pose proof (laid_bounds _ _ _ Hl').
    destruct (proj1 (laid_kids_children (nodes c)) _ _ Hl' p pn) as [_ Hkids]; [lia|done|].
    apply Hkids in Hin. lia.
Qed.

Lemma wf_descendants t e nt x nx :
  laid (nodes c) t e → nodes c !! t = Some nt → nodes c !! x = Some nx →
  t < x < e ↔ reaches (nodes c) (id (data nt)) (parent nx).
Proof.
  intros Hl Hnt Hnx. split.
  - by eapply wf_range_reaches.
  - intros Hreach. destruct (parent nx) as [p|] eqn:Hp; [|inversion Hreach].
    by eapply wf_reaches_range.
Qed.
End family.

(** X4. The tree is stored in the order of a depth-first discovery: the
    proper descendants of a node, the nodes whose parent links lead to it,
    are the nodes stored right after it, up to some index. *)
Theorem descendants_follow_their_ancestor fuel snap root_pid c t nt :
  built fuel snap root_pid c → nodes c !! t = Some nt →
  ∃ e, t < e ≤ size c ∧
    ∀ x nx, nodes c !! x = Some nx →
      t < x < e ↔ reaches (nodes c) (id (data nt)) (parent nx).
Proof.
  intros [->|Hwf]%built_cases Hnt; [done|].
  destruct (wf_subtree _ _ Hwf t) as (e & Hl & He); [by apply lookup_lt_Some in Hnt|].
  exists e. split; [pose proof (laid_bounds _ _ _ Hl); lia|].
  intros x nx Hnx. by eapply wf_descendants.
Qed.

Lemma descendants_follow_their_ancestor_witness :
  ∃ e, 1 < e ≤ size scenario_tree ∧
    ∀ x nx, nodes scenario_tree !! x = Some nx →
      1 < x < e ↔ reaches (nodes scenario_tree) 2 (parent nx).
Proof.
  apply (descendants_follow_their_ancestor 5 scenario 1 scenario_tree 1
           (mkNode (mkMetadata 2 1 true) (Some 0) [2])); reflexivity.
Defined.

(** ** The queries on a built tree *)

Lemma store_all_Ok r xs res :
  count r ≤ result_capacity r → store_all r xs = Ok res → res = extend r xs.
Proof.
  intros Hr. rewrite (store_all_extend _ _ Hr). by destruct (decide _); intros [= <-].
Qed.

Lemma store_selected ns (keep : ProcessNode → bool) ks kns :
  Forall2 (λ k kn, ns !! k = Some kn) ks kns →
  ∀ r, for_each (λ result i,
                   sibling ← deref ns i;
                   if keep sibling then store_result result (id (data sibling))
                   else Ok result) r ks
       = store_all r (ids (filter (λ n, keep n = true) kns)).
Proof.
  induction 1 as [|k kn ks kns Hk _ IH]; intros r; [done|].
  rewrite for_each_cons, (deref_Some _ _ _ Hk). simpl.
  rewrite filter_cons. destruct (keep kn) eqn:Hkeep.
  - rewrite decide_True by done. unfold store_all. simpl.
    destruct (store_result r (id (data kn))); [apply IH|done].
  - rewrite decide_False by done. apply IH.
Qed.

Section children.
Context (root_pid : Z) (c : ProcessCollection).
Hypothesis Hwf : well_formed root_pid c.

Lemma children_nodes p pn kns :
  nodes c !! p = Some pn →
  Forall2 (λ k kn, nodes c !! k = Some kn) (children pn) kns →
  NoDup (ids kns) ∧ ∀ n, n ∈ kns ↔ n ∈ nodes c ∧ parent n = Some p.
Proof.
  intros Hpn Hkns. split.
  - destruct (wf_children _ _ Hwf p pn Hpn) as [Hnd _].
    revert Hnd. generalize (children pn) Hkns. clear Hkns.
    induction 1 as [|k kn ks kns' Hk Hrest IH]; intros Hnd; [constructor|].
    apply NoDup_cons in Hnd as [Hnotin Hnd]. unfold ids. rewrite fmap_cons.
    apply NoDup_cons. split; [|by apply IH].
    intros (m & Hid & Hm)%list_elem_of_fmap.
    apply list_elem_of_lookup in Hm as [j Hj].
    destruct (Forall2_lookup_r _ _ _ _ _ Hrest Hj) as (k' & Hk' & Hlook).
    assert (k = k') as <- by (by eapply wf_lookup_inj).
    apply Hnotin. by eapply list_elem_of_lookup_2.
  - intros n. split.
    + intros [j Hj]%list_elem_of_lookup.
      destruct (Forall2_lookup_r _ _ _ _ _ Hkns Hj) as (k & Hk & Hlook).
      destruct (wf_child_parent _ _ Hwf p pn k Hpn) as (nk & Hnk & Hp);
        [by eapply list_elem_of_lookup_2|].
      assert (nk = n) as -> by congruence.
      split; [by eapply list_elem_of_lookup_2|done].
    + intros [[i Hi]%list_elem_of_lookup Hp].
      destruct (wf_parent_child _ _ Hwf i n p Hi Hp) as (pn' & Hpn' & Hin & _).
      assert (pn' = pn) as -> by congruence.
      apply list_elem_of_lookup in Hin as [j Hj].
      destruct (Forall2_lookup_l _ _ _ _ _ Hkns Hj) as (kn & Hkn & Hlook).
      assert (kn = n) as -> by congruence. by eapply list_elem_of_lookup_2.
Qed.

Lemma ids_filter_NoDup (P : ProcessNode → Prop) `{!∀ n, Decision (P n)} l :
  NoDup (ids l) → NoDup (ids (filter P l)).
Proof.
  intros Hnd. eapply sublist_NoDup; [done|].
  unfold ids. apply fmap_sublist, sublist_filter.
Qed.
End children.

(** X5. On a built tree, when [get_direct_descendants] returns, it returns
    each once the pids of the processes of the tree, the root apart, that
    name the target as their parent; nothing for a target outside the
    tree. *)
Theorem direct_descendants_name_the_target_as_parent fuel snap root_pid c pid res :
  built fuel snap root_pid c →
  get_direct_descendants c pid = Ok res →
  NoDup (result_ids res) ∧
  ∀ x, x ∈ result_ids res ↔
       ∃ i n, nodes c !! i = Some n ∧ id (data n) = x ∧
              root c ≠ Some i ∧ parent_id (data n) = pid.
Proof.
  intros [->|Hwf]%built_cases.
  { intros [= <-]. split; [constructor|]. intros x. split.
    - by intros ?%elem_of_nil.
    - by intros (i & n & Hn & _). }
  unfold get_direct_descendants. destruct (find_node_by_pid c pid) as [t|] eqn:Hfind.
  - destruct (find_node_by_pid_lookup _ _ _ Hfind) as (nt & Hnt & Hid).
    rewrite (deref_Some _ _ _ Hnt). simpl.
    destruct (wf_children_nodes _ _ _ _ Hwf Hnt) as [kns Hkns].
    rewrite (store_children _ _ _ Hkns). intros Hres.
    apply store_all_Ok in Hres; [|rewrite init_result_count; lia]. subst res.
    destruct (children_nodes _ _ Hwf t nt kns Hnt Hkns) as [Hnd Hin].
    split; [done|]. intros x. simpl. split.
    + intros (n & -> & [[i Hi]%list_elem_of_lookup Hp]%Hin)%list_elem_of_fmap.
      destruct (wf_parent_child _ _ Hwf i n t Hi Hp) as (pn & Hpn & _ & Hq & Hlt).
      assert (pn = nt) as -> by congruence.
      exists i, n. split_and!; [done..| |congruence].
      rewrite (wf_root _ _ Hwf). intros [= <-]. lia.
    + intros (i & n & Hn & <- & Hroot & Hq).
      rewrite (wf_root _ _ Hwf) in Hroot.
      destruct (wf_parent _ _ Hwf i n Hn) as (p & pn & Hp & _ & Hpn & Hq' & _); [congruence|].
      assert (p = t) as -> by (eapply wf_lookup_inj; [done..|congruence]).
      apply list_elem_of_fmap. exists n. split; [done|]. apply Hin.
      split; [by eapply list_elem_of_lookup_2|done].
  - intros [= <-]. split; [constructor|]. intros x. split.
    + by intros ?%elem_of_nil.
    + intros (i & n & Hn & <- & Hroot & Hq).
      rewrite (wf_root _ _ Hwf) in Hroot.
      destruct (wf_parent _ _ Hwf i n Hn) as (p & pn & Hp & _ & Hpn & Hq' & _); [congruence|].
      apply find_node_by_pid_None in Hfind. exfalso. apply Hfind.
      apply list_elem_of_fmap. exists pn. split; [congruence|by eapply list_elem_of_lookup_2].
Qed.

Lemma direct_descendants_name_the_target_as_parent_witness :
  NoDup [2; 3]%Z ∧
  ∀ x, x ∈ [2; 3]%Z ↔
       ∃ i n, nodes scenario_tree !! i = Some n ∧ id (data n) = x ∧
              root scenario_tree ≠ Some i ∧ parent_id (data n) = 1%Z.
Proof.
  apply (direct_descendants_name_the_target_as_parent 5 scenario 1 scenario_tree 1
           (extend (init_result (Some "No direct descendants")) [2; 3]%Z)); reflexivity.
Defined.

(** The siblings of a node of a well-formed tree, and what the two sibling
    queries return for them. *)
Lemma siblings_cases root_pid c pid t nt :
  well_formed root_pid c →
  find_node_by_pid c pid = Some t → nodes c !! t = Some nt →
  ∃ ss : list ProcessNode,
    NoDup (ids ss) ∧ (pid ∉ ids ss) ∧
    (parent nt = None → ss = []) ∧
    (∀ n, n ∈ ss ↔ n ∈ nodes c ∧ is_Some (parent n) ∧ parent n = parent nt ∧
                   id (data n) ≠ pid) ∧
    get_siblings c pid =
      (if decide (length ss ≤ 1000)
       then Ok (extend (init_result (Some "No sibling/s")) (ids ss))
       else Err (OutOfBounds 1000)) ∧
    get_defunct_siblings c pid =
      (let zs := filter (λ n, defunct_flag (data n) = true) ss in
       if decide (length zs ≤ 1000)
       then Ok (extend (init_result (Some "No defunct sibling/s")) (ids zs))
       else Err (OutOfBounds 1000)).
Proof.
  intros Hwf Hfind Hnt.
  unfold get_siblings, get_defunct_siblings.
  rewrite Hfind, (deref_Some _ _ _ Hnt). simpl.
  destruct (parent nt) as [p|] eqn:Hp.
  - destruct (wf_parent_child _ _ Hwf t nt p Hnt Hp) as (pn & Hpn & _).
    rewrite (deref_Some _ _ _ Hpn). simpl.
    destruct (wf_children_nodes _ _ _ _ Hwf Hpn) as [kns Hkns].
    destruct (children_nodes _ _ Hwf p pn kns Hpn Hkns) as [Hnd Hin].
    exists (filter (λ n, id (data n) ≠ pid) kns). split_and!.
    + by apply ids_filter_NoDup.
    + intros (n & -> & [Hne _]%list_elem_of_filter)%list_elem_of_fmap. done.
    + done.
    + intros n. rewrite list_elem_of_filter, Hin. split.
      * intros (Hne & Hn & Hpar). rewrite Hpar. eauto.
      * intros (Hn & _ & Hpar & Hne). done.
    + pose proof (store_selected (nodes c) (λ s, bool_decide (id (data s) ≠ pid))
                    _ _ Hkns) as Hloop. simpl in Hloop. rewrite Hloop.
      rewrite store_all_extend by (rewrite init_result_count; lia).
      rewrite init_result_count, Nat.add_0_l, init_result_capacity.
      unfold ids. rewrite length_fmap.
      rewrite (list_filter_iff (λ n, bool_decide (id (data n) ≠ pid) = true)
                 (λ n, id (data n) ≠ pid)); [done|].
      intros n. by rewrite bool_decide_eq_true.
    + pose proof (store_selected (nodes c)
                    (λ s, bool_decide (id (data s) ≠ pid) && defunct_flag (data s))
                    _ _ Hkns) as Hloop. simpl in Hloop. rewrite Hloop.
      rewrite store_all_extend by (rewrite init_result_count; lia).
      rewrite init_result_count, Nat.add_0_l, init_result_capacity.
      rewrite list_filter_filter.
      rewrite (list_filter_iff
                 (λ n, bool_decide (id (data n) ≠ pid) && defunct_flag (data n) = true)
                 (λ n, defunct_flag (data n) = true ∧ id (data n) ≠ pid)).
      * simpl. unfold ids. by rewrite length_fmap.
      * intros n. rewrite andb_true_iff, bool_decide_eq_true. tauto.
  - exists []. split_and!.
    + constructor.
    + by intros ?%elem_of_nil.
    + done.
    + intros n. split; [by intros ?%elem_of_nil|].
      intros (_ & [q Hq] & Hnone & _). congruence.
    + by rewrite extend_nil.
    + simpl. by rewrite extend_nil.
Qed.

(** X6. On a built tree the siblings of a target are the other nodes
    with the same parent node: [get_siblings] returns their pids, each
    once and never the target's own, and [get_defunct_siblings] returns
    those of them that are zombies.  The root has no parent and so no
    siblings.  With more than 1000 pids to return, the store at index 1000
    faults. *)
Theorem siblings_share_the_parent_node fuel snap root_pid c pid t nt :
  built fuel snap root_pid c →
  find_node_by_pid c pid = Some t → nodes c !! t = Some nt →
  ∃ ss : list ProcessNode,
    NoDup (ids ss) ∧ (pid ∉ ids ss) ∧
    (parent nt = None → ss = []) ∧
    (∀ n, n ∈ ss ↔ n ∈ nodes c ∧ is_Some (parent n) ∧ parent n = parent nt ∧
                   id (data n) ≠ pid) ∧
    get_siblings c pid =
      (if decide (length ss ≤ 1000)
       then Ok (extend (init_result (Some "No sibling/s")) (ids ss))
       else Err (OutOfBounds 1000)) ∧
    get_defunct_siblings c pid =
      (let zs := filter (λ n, defunct_flag (data n) = true) ss in
       if decide (length zs ≤ 1000)
       then Ok (extend (init_result (Some "No defunct sibling/s")) (ids zs))
       else Err (OutOfBounds 1000)).
Proof.
  intros [->|Hwf]%built_cases Hfind Hnt; [done|]. by eapply siblings_cases.
Qed.

Lemma siblings_share_the_parent_node_witness :
  ∃ ss : list ProcessNode,
    NoDup (ids ss) ∧ (2%Z ∉ ids ss) ∧
    (Some 0 = None → ss = []) ∧
    (∀ n, n ∈ ss ↔ n ∈ nodes scenario_tree ∧ is_Some (parent n) ∧ parent n = Some 0 ∧
                   id (data n) ≠ 2%Z) ∧
    get_siblings scenario_tree 2 =
      (if decide (length ss ≤ 1000)
       then Ok (extend (init_result (Some "No sibling/s")) (ids ss))
       else Err (OutOfBounds 1000)) ∧
    get_defunct_siblings scenario_tree 2 =
      (let zs := filter (λ n, defunct_flag (data n) = true) ss in
       if decide (length zs ≤ 1000)
       then Ok (extend (init_result (Some "No defunct sibling/s")) (ids zs))
       else Err (OutOfBounds 1000)).
Proof.
  apply (siblings_share_the_parent_node 5 scenario 1 scenario_tree 2 1
           (mkNode (mkMetadata 2 1 true) (Some 0) [2])); reflexivity.
Defined.

Lemma elem_of_slice_lookup ns a b n :
  n ∈ slice ns a b ↔ ∃ x, a ≤ x < b ∧ ns !! x = Some n.
Proof.
  unfold slice. rewrite list_elem_of_lookup. split.
  - intros [i Hi]. apply lookup_take_Some in Hi as [Hi Hlt].
    rewrite lookup_drop in Hi. exists (a + i). split; [lia|done].
  - intros (x & Hx & Hn). exists (x - a). apply lookup_take_Some.
    rewrite lookup_drop. replace (a + (x - a)) with x by lia. split; [done|lia].
Qed.

Lemma slice_sublist ns a b : slice ns a b `sublist_of` ns.
Proof.
  unfold slice. etrans; [apply sublist_take|apply sublist_drop].
Qed.

(** The nodes of the subtree below the node at [t]: a run of the array,
    and the nodes whose parent links lead to the node's pid. *)
Lemma wf_slice_reaches root_pid c pid t e :
  well_formed root_pid c → find_node_by_pid c pid = Some t → laid (nodes c) t e →
  ∀ n, n ∈ nodes c → n ∈ slice (nodes c) (S t) e ↔ reaches (nodes c) pid (parent n).
Proof.
  intros Hwf Hfind Hl n [i Hi]%list_elem_of_lookup.
  destruct (find_node_by_pid_lookup _ _ _ Hfind) as (nt & Hnt & <-).
  rewrite elem_of_slice_lookup.
  rewrite <- (wf_descendants _ _ Hwf t e nt i n Hl Hnt Hi). split.
  - intros (x & Hx & Hn). assert (x = i) as -> by (by eapply wf_lookup_inj). lia.
  - intros Hi'. exists i. split; [lia|done].
Qed.

(** X7. On a built tree, for a target in it, [get_defunct_descendants]
    returns the pids of the zombies among the proper descendants of the
    target, the nodes whose parent links lead to it, in the order in which
    the tree stores them; with more than 1000 of them the store at index
    1000 faults. *)
Theorem defunct_descendants_are_the_zombies_below fuel snap root_pid c pid t fuel' :
  built fuel snap root_pid c →
  find_node_by_pid c pid = Some t → size c ≤ fuel' →
  ∃ ds : list ProcessNode,
    ds `sublist_of` nodes c ∧
    (∀ n, n ∈ nodes c → n ∈ ds ↔ reaches (nodes c) pid (parent n)) ∧
    get_defunct_descendants fuel' c pid =
      (let zs := filter (λ n, defunct_flag (data n) = true) ds in
       if decide (length zs ≤ 1000)
       then Ok (extend (init_result (Some "No descendant zombie process/es")) (ids zs))
       else Err (OutOfBounds 1000)).
Proof.
  intros [->|Hwf]%built_cases Hfind Hfuel; [done|].
  pose proof (find_node_by_pid_lt _ _ _ Hfind) as Hlt.
  destruct (wf_subtree _ _ Hwf t Hlt) as (e & Hl & He).
  exists (slice (nodes c) (S t) e). split_and!.
  - apply slice_sublist.
  - by apply (wf_slice_reaches root_pid).
  - rewrite (get_defunct_descendants_laid _ _ _ _ e Hfind Hl) by lia.
    rewrite store_all_extend by (rewrite init_result_count; lia).
    rewrite init_result_count, Nat.add_0_l, init_result_capacity.
    unfold zombies_below, ids. simpl. by rewrite length_fmap.
Qed.

Lemma defunct_descendants_are_the_zombies_below_witness :
  ∃ ds : list ProcessNode,
    ds `sublist_of` nodes scenario_tree ∧
    (∀ n, n ∈ nodes scenario_tree → n ∈ ds ↔ reaches (nodes scenario_tree) 1 (parent n)) ∧
    get_defunct_descendants 4 scenario_tree 1 =
      (let zs := filter (λ n, defunct_flag (data n) = true) ds in
       if decide (length zs ≤ 1000)
       then Ok (extend (init_result (Some "No descendant zombie process/es")) (ids zs))
       else Err (OutOfBounds 1000)).
Proof.
  apply (defunct_descendants_are_the_zombies_below 5 scenario 1 scenario_tree 1 0 4);
    [reflexivity|reflexivity|vm_compute; lia].
Defined.

(** ** What the actions signal *)

Lemma run_bind_inv {A B} (m : run A) (f : A → run B) b tr :
  m ≫= f = Done b tr →
  ∃ a t1 t2, m = Done a t1 ∧ f a = Done b t2 ∧ tr = t1 ++ t2.
Proof.
  destruct m as [a t1|e]; [|done]. unfold mbind, run_bind.
  destruct (f a) as [b' t2|e] eqn:Hf; [|done].
  intros [= <- <-]. by exists a, t1, t2.
Qed.

Lemma lift_inv {A} (m : outcome A) a tr : lift m = Done a tr → m = Ok a ∧ tr = [].
Proof. destruct m; [|done]. by intros [= <- <-]. Qed.

Lemma store_result_ids r x r' :
  store_result r x = Ok r' → result_ids r' = result_ids r ++ [x].
Proof. unfold store_result. case_bool_decide; [|done]. by intros [= <-]. Qed.

Lemma kill_parents_loop_trace os c zs :
  ∀ r res tr,
    for_each (λ result z,
                match find_node_by_pid c z with
                | Some zombie =>
                    zn ← lift (deref (nodes c) zombie);
                    if bool_decide (1 < parent_id (data zn))%Z then
                      _ ← kill os (parent_id (data zn)) SIGKILL;
                      lift (store_result result (parent_id (data zn)))
                    else mret result
                | None => mret result
                end) r zs = Done res tr →
    ∃ xs, result_ids res = result_ids r ++ xs ∧
          tr = (λ x, Signalled x SIGKILL) <$> xs ∧
          ∀ x, x ∈ xs → (1 < x)%Z ∧ ∃ n, n ∈ nodes c ∧ parent_id (data n) = x.
Proof.
  induction zs as [|z zs IH]; intros r res tr.
  - intros [= <- <-]. exists []. rewrite app_nil_r. split_and!; [done..|].
    by intros x ?%elem_of_nil.
  - rewrite for_each_cons. intros (r1 & t1 & t2 & Hbody & Hrest & ->)%run_bind_inv.
    apply IH in Hrest as (xs & Hids & -> & Hxs).
    destruct (find_node_by_pid c z) as [zi|].
    + apply run_bind_inv in Hbody as (zn & t0 & t1' & Hzn & Hbody & ->).
      apply lift_inv in Hzn as [Hzn ->].
      unfold deref in Hzn. destruct (nodes c !! zi) as [zn'|] eqn:Hlook; [|done].
      injection Hzn as ->. case_bool_decide as Hinit.
      * apply run_bind_inv in Hbody as (status & t3 & t4 & Hkill & Hstore & ->).
        injection Hkill as _ <-.
        apply lift_inv in Hstore as [Hstore ->]. apply store_result_ids in Hstore.
        exists (parent_id (data zn) :: xs). split_and!.
        -- rewrite Hids, Hstore, <- app_assoc. done.
        -- done.
        -- intros x [->|Hx]%elem_of_cons; [|by apply Hxs].
           split; [done|]. exists zn. split; [by eapply list_elem_of_lookup_2|done].
      * injection Hbody as <- <-. by exists xs.
    + injection Hbody as <- <-. by exists xs.
Qed.

(** X8. Whatever the collection, when [kill_zombie_parents] returns, the
    only thing it has done is to send [SIGKILL] to the pids it returns, in
    that order; each of them is greater than 1 and is the parent pid
    recorded in a node of the collection.  It never signals the pid 1, the
    pid 0 or a negative pid. *)
Theorem kill_zombie_parents_spares_init fuel os c pid res trace :
  kill_zombie_parents fuel os c pid = Done res trace →
  trace = (λ x, Signalled x SIGKILL) <$> result_ids res ∧
  ∀ x, x ∈ result_ids res →
       (1 < x)%Z ∧ ∃ n, n ∈ nodes c ∧ parent_id (data n) = x.
Proof.
  unfold kill_zombie_parents.
  intros (zombies & t1 & t2 & Hz & Hloop & ->)%run_bind_inv.
  apply lift_inv in Hz as [_ ->].
  apply kill_parents_loop_trace in Hloop as (xs & Hids & -> & Hxs).
  simpl in Hids. by rewrite Hids.
Qed.

Lemma kill_zombie_parents_spares_init_witness :
  [Signalled 2 SIGKILL; Signalled 2 SIGKILL] = (λ x, Signalled x SIGKILL) <$> [2; 2]%Z ∧
  ∀ x, x ∈ [2; 2]%Z →
       (1 < x)%Z ∧ ∃ n, n ∈ nodes zombie_family_tree ∧ parent_id (data n) = x.
Proof.
  apply (kill_zombie_parents_spares_init 4 no_answer zombie_family_tree 1
           (extend (init_result None) [2; 2]%Z)). reflexivity.
Defined.

(** X9. On a built tree, when [signal_all_descendants] returns for a target
    of the tree, the only thing it has done is to send the signal to the
    pids it returns, in that order; neither the target itself nor the root
    of the tree is among them. *)
Theorem signal_all_descendants_spares_target_and_root
    fuel snap root_pid c os pid t sig fuel' res trace :
  built fuel snap root_pid c →
  find_node_by_pid c pid = Some t → size c ≤ fuel' →
  signal_all_descendants fuel' os c pid sig = Done res trace →
  trace = (λ x, Signalled x sig) <$> result_ids res ∧
  (pid ∉ result_ids res) ∧ (root_pid ∉ result_ids res).
Proof.
  intros Hbuilt Hfind Hfuel.
  destruct (signal_all_descendants_cases _ _ _ _ os _ _ sig _ Hbuilt Hfind Hfuel)
    as (ds & Hsub & Hds & ->).
  apply built_cases in Hbuilt as [->|Hwf]; [done|].
  destruct (decide _); [|done]. intros [= <- <-]. simpl. split_and!.
  - unfold ids. by rewrite <- list_fmap_compose.
  - intros (n & Hid & Hn)%list_elem_of_fmap.
    assert (n ∈ nodes c) as Hin by (by eapply elem_of_sublist).
    apply Hds in Hn; [|done]. apply list_elem_of_lookup in Hin as [i Hi].
    destruct (find_node_by_pid_lookup _ _ _ Hfind) as (nt & Hnt & Hpid).
    assert (i = t) as -> by (eapply wf_lookup_inj; [done..|congruence]).
    assert (nt = n) as -> by congruence.
    destruct (wf_subtree _ _ Hwf t) as (e & Hl & _); [by apply lookup_lt_Some in Hnt|].
    rewrite <- Hpid in Hn.
    apply (wf_descendants _ _ Hwf t e n t n Hl Hnt Hnt) in Hn. lia.
  - intros (n & Hid & Hn)%list_elem_of_fmap.
    assert (n ∈ nodes c) as Hin by (by eapply elem_of_sublist).
    apply Hds in Hn; [|done]. apply list_elem_of_lookup in Hin as [i Hi].
    destruct (wf_root_node _ _ Hwf) as (rn & Hrn & Hrid & Hnone).
    assert (i = 0) as -> by (eapply wf_lookup_inj; [done..|congruence]).
    assert (rn = n) as -> by congruence.
    rewrite Hnone in Hn. inversion Hn.
Qed.

Lemma signal_all_descendants_spares_target_and_root_witness :
  [Signalled 4 SIGSTOP] = (λ x, Signalled x SIGSTOP) <$> [4]%Z ∧
  (2%Z ∉ [4]%Z) ∧ (1%Z ∉ [4]%Z).
Proof.
  apply (signal_all_descendants_spares_target_and_root 5 scenario 1 scenario_tree
           no_answer 2 1 SIGSTOP 4 (extend (init_result None) [4]%Z));
    [reflexivity|reflexivity|vm_compute; lia|reflexivity].
Defined.

(** ** Output and the command line *)

Lemma print_loop (xs : list Z) :
  ∀ u : (), for_each (λ _ x, printf (pretty x)) u xs = Done () (printed_ids xs).
Proof.
  induction xs as [|x xs IH]; intros []; [done|].
  rewrite for_each_cons.
  change (printf (pretty x)) with (Done () [Printed (pretty x)]).
  rewrite run_bind_Done, IH. done.
Qed.

(** X10. [display_results] never fails.  It prints the ids of the result,
    one on a line and in their order; for a result without ids it prints
    the message of the command, and nothing when the command has none. *)
Theorem display_results_prints_ids_or_message (r : CommandResult) :
  display_results r =
  Done () (match result_ids r, empty_message r with
           | [], Some message => [Printed message]
           | xs, _ => printed_ids xs
           end).
Proof.
  unfold display_results, count.
  destruct (result_ids r) as [|x xs] eqn:Hids.
  - simpl. destruct (empty_message r); done.
  - rewrite bool_decide_false by done. apply print_loop.
Qed.

Lemma silent_nil : silent [].
Proof. intros pid sig. apply not_elem_of_nil. Qed.

Lemma silent_app t1 t2 : silent t1 → silent t2 → silent (t1 ++ t2).
Proof.
  intros H1 H2 pid sig [Hin|Hin]%elem_of_app; [by eapply H1|by eapply H2].
Qed.

Lemma silent_printed line : silent [Printed line].
Proof. intros pid sig Hin%list_elem_of_singleton. done. Qed.

Lemma silent_printf line u tr : printf line = Done u tr → silent tr.
Proof. intros [= _ <-]. apply silent_printed. Qed.

Lemma silent_lift {A} (m : outcome A) a tr : lift m = Done a tr → silent tr.
Proof. intros [_ ->]%lift_inv. apply silent_nil. Qed.

Lemma silent_printed_ids xs : silent (printed_ids xs).
Proof. intros pid sig (x & Heq & _)%list_elem_of_fmap. discriminate Heq. Qed.

Lemma silent_display_results r u tr : display_results r = Done u tr → silent tr.
Proof.
  unfold display_results. rewrite print_loop.
  destruct (bool_decide (count r = 0)), (empty_message r);
    intros [= _ <-]; auto using silent_printed, silent_printed_ids.
Qed.

Lemma find_command_handler_Some opt h :
  find_command_handler opt = Some h →
  ∃ m, m ∈ command_registry ∧ flag m = opt ∧ handler m = h.
Proof.
  unfold find_command_handler.
  destruct (list_find _ command_registry) as [[i m]|] eqn:Hfind; [|done].
  intros [= <-]. apply list_find_Some in Hfind as (Hm & Hflag & _).
  exists m. split; [by eapply list_elem_of_lookup_2|done].
Qed.

Lemma find_command_handler_None opt :
  opt ∉ flag <$> command_registry → find_command_handler opt = None.
Proof.
  intros Hnot. unfold find_command_handler.
  destruct (list_find _ command_registry) as [[i m]|] eqn:Hfind; [|done].
  apply list_find_Some in Hfind as (Hm & Hflag & _).
  exfalso. apply Hnot. apply list_elem_of_fmap. exists m.
  split; [done|by eapply list_elem_of_lookup_2].
Qed.

Lemma silent_query_handlers m fuel os c pid res tr :
  m ∈ command_registry →
  flag m ∉ ["--pz"; "-sk"; "-st"; "-dt"; "-rp"] →
  handler m fuel os c pid = Done res tr → silent tr.
Proof.
  unfold command_registry. intros Hm Hflag.
  repeat (apply elem_of_cons in Hm as [->|Hm]); simpl in *;
    try (by apply elem_of_nil in Hm);
    try (exfalso; apply Hflag; set_solver);
    try (by apply silent_lift).
  - intros [= _ <-]. apply silent_printed.
  - unfold handle_process_status. destruct (find_node_by_pid c pid) as [t|].
    + intros (n & t1 & t2 & Hn & Hprint & ->)%run_bind_inv.
      apply silent_app; [by eapply silent_lift|].
      injection Hprint as _ <-. apply silent_printed.
    + intros [= _ <-]. apply silent_nil.
Qed.

(** X11. A run that only asks a question sends no signal: without an
    option, with too few arguments, with an unknown option, or with any
    option other than [--pz], [-sk], [-st], [-dt] and [-rp], whatever the
    process table and the arguments, the run only prints. *)
Theorem queries_send_no_signal fuel os snap args status trace :
  main fuel os snap args = Done status trace →
  argc args ≤ 3 ∨ argv3 args ∉ ["--pz"; "-sk"; "-st"; "-dt"; "-rp"] →
  silent trace.
Proof.
  unfold main. intros Hrun Hquery. case_bool_decide as Hargc.
  { apply run_bind_inv in Hrun as (u & t1 & t2 & Hprint & Hret & ->).
    injection Hret as _ <-. rewrite app_nil_r. by eapply silent_printf. }
  apply run_bind_inv in Hrun as (c & t1 & t2 & Hbuild & Hrun & ->).
  apply silent_app; [by eapply silent_lift|].
  apply run_bind_inv in Hrun as (u & t3 & t4 & Hrun & Hret & ->).
  injection Hret as _ <-. rewrite app_nil_r.
  case_bool_decide as Hthree.
  { destruct (find_node_by_pid c (argv2 args)) as [t|]; [|by eapply silent_printf].
    apply run_bind_inv in Hrun as (n & t5 & t6 & Hn & Hprint & ->).
    apply silent_app; [by eapply silent_lift|by eapply silent_printf]. }
  destruct Hquery as [Hle|Hflag]; [lia|].
  case_bool_decide as Hrp.
  { exfalso. apply Hflag. rewrite Hrp. set_solver. }
  destruct (find_command_handler (argv3 args)) as [h|] eqn:Hh; [|by eapply silent_printf].
  destruct (find_node_by_pid c (argv2 args)) as [t|]; [|by eapply silent_printf].
  apply find_command_handler_Some in Hh as (m & Hm & Hopt & <-).
  apply run_bind_inv in Hrun as (res & t5 & t6 & Hhandler & Hshow & ->).
  apply silent_app; [|by eapply silent_display_results].
  eapply silent_query_handlers; [done| |done]. by rewrite Hopt.
Qed.

Lemma queries_send_no_signal_witness :
  silent [Printed "4"].
Proof.
  apply (queries_send_no_signal 5 no_answer scenario (mkCmdline 4 "tool" 1 2 "-df") 0);
    [reflexivity|right; apply (bool_decide_unpack _); reflexivity].
Defined.

(** X12. The exit status of a run is 1 when fewer than two pids are
    given, and then the run only prints the usage line, without reading
    the process table; every other run that ends, also one with an unknown
    option or with a target outside the tree, exits with 0. *)
Theorem main_exit_status fuel os snap args :
  (argc args < 3 →
   main fuel os snap args =
   Done 1%Z [Printed ("Usage: " +:+ argv0 args
                      +:+ " [root_process] [target_process] [option]")]) ∧
  (3 ≤ argc args →
   ∀ status trace, main fuel os snap args = Done status trace → status = 0%Z).
Proof.
  unfold main. split; intros Hargc.
  - by rewrite bool_decide_true by done.
  - rewrite bool_decide_false by lia. intros status trace Hrun.
    apply run_bind_inv in Hrun as (c & t1 & t2 & _ & Hrun & _).
    apply run_bind_inv in Hrun as (u & t3 & t4 & _ & Hret & _).
    by injection Hret as <- _.
Qed.

Lemma main_exit_status_witness :
  main 0 no_answer scenario (mkCmdline 2 "tool" 1 0 "") =
    Done 1%Z [Printed "Usage: tool [root_process] [target_process] [option]"] ∧
  (∀ status trace,
     main 5 no_answer scenario (mkCmdline 4 "tool" 1 9 "-zz") = Done status trace →
     status = 0%Z).
Proof.
  split.
  - apply (main_exit_status 0 no_answer scenario (mkCmdline 2 "tool" 1 0 "")). simpl. lia.
  - apply (main_exit_status 5 no_answer scenario (mkCmdline 4 "tool" 1 9 "-zz")). simpl. lia.
Defined.

(** X13. A run with two pids and no option prints, for a target in the
    built tree, the target and the parent pid that its status file
    reports, and for any other target that it does not belong to the
    tree. *)
Theorem main_without_option_prints_the_parent fuel os snap args c :
  built fuel snap (argv1 args) c → argc args = 3 →
  main fuel os snap args =
  Done 0%Z
    [Printed (match find_node_by_pid c (argv2 args),
                    fetch_process_data snap (argv2 args) with
              | Some _, Some pd => pretty (argv2 args) +:+ " " +:+ pretty (parent_id pd)
              | _, _ => "Does not belong to the process tree"
              end)] ∧
  (is_Some (find_node_by_pid c (argv2 args)) →
   is_Some (fetch_process_data snap (argv2 args))).
Proof.
  intros Hc Hargc. pose proof (built_as_reported _ _ _ _ Hc) as [Hrep _].
  unfold main. rewrite bool_decide_false by lia.
  unfold built in Hc. rewrite Hc, run_bind_lift_Ok.
  rewrite bool_decide_true by done.
  destruct (find_node_by_pid c (argv2 args)) as [t|] eqn:Hfind.
  - destruct (find_node_by_pid_lookup _ _ _ Hfind) as (n & Hn & Hid).
    pose proof (Hrep _ _ Hn) as Hfetch. rewrite Hid in Hfetch. rewrite Hfetch.
    rewrite (deref_Some _ _ _ Hn), run_bind_lift_Ok. rewrite Hid.
    split; [done|eauto].
  - split; [done|]. by intros [? ?].
Qed.

Lemma main_without_option_prints_the_parent_witness :
  main 5 no_answer scenario (mkCmdline 3 "tool" 1 4 "") = Done 0%Z [Printed "4 2"] ∧
  (is_Some (find_node_by_pid scenario_tree 4) → is_Some (fetch_process_data scenario 4)).
Proof.
  apply (main_without_option_prints_the_parent 5 no_answer scenario
           (mkCmdline 3 "tool" 1 4 "") scenario_tree); reflexivity.
Defined.

(** X14. A run with an option that is not in the command registry prints
    that the option is invalid, after the tree has been built, and does
    nothing else; its exit status is 0. *)
Theorem unknown_option_is_reported fuel os snap args c :
  built fuel snap (argv1 args) c → 3 < argc args →
  argv3 args ∉ flag <$> command_registry →
  find_command_handler (argv3 args) = None ∧
  main fuel os snap args = Done 0%Z [Printed ("Invalid option: " +:+ argv3 args)].
Proof.
  intros Hc Hargc Hopt.
  pose proof (find_command_handler_None _ Hopt) as Hnone. split; [done|].
  unfold main. rewrite bool_decide_false by lia.
  unfold built in Hc. rewrite Hc, run_bind_lift_Ok.
  rewrite bool_decide_false by lia.
  rewrite bool_decide_false.
  - by rewrite Hnone.
  - intros Hrp. apply Hopt. rewrite Hrp. unfold command_registry. set_solver.
Qed.

Lemma unknown_option_is_reported_witness :
  find_command_handler "-zz" = None ∧
  main 5 no_answer scenario (mkCmdline 4 "tool" 1 2 "-zz") =
    Done 0%Z [Printed "Invalid option: -zz"].
Proof.
  apply (unknown_option_is_reported 5 no_answer scenario
           (mkCmdline 4 "tool" 1 2 "-zz") scenario_tree);
    [reflexivity|simpl; lia|].
  apply (bool_decide_unpack _). reflexivity.
Defined.

(** X15. A run with the option [-do], for a target in the built tree,
    prints [Defunct] when the state line of the target's status file has
    a [Z] and [Not defunct] otherwise, and nothing else. *)
Theorem status_option_reports_the_state fuel os snap args c t :
  built fuel snap (argv1 args) c → 3 < argc args → argv3 args = "-do" →
  find_node_by_pid c (argv2 args) = Some t →
  ∃ pd, fetch_process_data snap (argv2 args) = Some pd ∧
        main fuel os snap args =
        Done 0%Z [Printed (if defunct_flag pd then "Defunct" else "Not defunct")].
Proof.
  intros Hc Hargc Hopt Hfind. pose proof (built_as_reported _ _ _ _ Hc) as [Hrep _].
  destruct (find_node_by_pid_lookup _ _ _ Hfind) as (n & Hn & Hid).
  pose proof (Hrep _ _ Hn) as Hfetch. rewrite Hid in Hfetch.
  exists (data n). split; [done|].
  unfold main. rewrite bool_decide_false by lia.
  unfold built in Hc. rewrite Hc, run_bind_lift_Ok.
  rewrite bool_decide_false by lia. rewrite Hopt. simpl.
  rewrite Hfind. unfold handle_process_status. rewrite Hfind.
  rewrite (deref_Some _ _ _ Hn), run_bind_lift_Ok. simpl.
  by destruct (defunct_flag (data n)).
Qed.

Lemma status_option_reports_the_state_witness :
  ∃ pd, fetch_process_data scenario 2 = Some pd ∧
        main 5 no_answer scenario (mkCmdline 4 "tool" 1 2 "-do") =
        Done 0%Z [Printed (if defunct_flag pd then "Defunct" else "Not defunct")].
Proof.
  apply (status_option_reports_the_state 5 no_answer scenario
           (mkCmdline 4 "tool" 1 2 "-do") scenario_tree 1);
    [reflexivity|simpl; lia|reflexivity|reflexivity].
Defined.

(** ** Grandchildren and the descendants further down *)

Lemma at_parity_app dep b l1 l2 :
  at_parity dep b (l1 ++ l2) = at_parity dep b l1 ++ at_parity dep b l2.
Proof. apply filter_app. Qed.

Lemma at_parity_cons dep b n l :
  at_parity dep b (n :: l) =
  (if decide (Nat.even (dep (parent n)) = b) then [n] else []) ++ at_parity dep b l.
Proof. unfold at_parity. rewrite filter_cons. by case_decide. Qed.

Section levels.
Context (ns : list ProcessNode) (dep : option nat → nat).
Hypothesis Hdep : ∀ p pn, ns !! p = Some pn → dep (Some p) = S (dep (parent pn)).

(** On a laid out subtree [collect_indirect_descendants] stores, in the
    order of the node array, the nodes whose depth has the parity of the
    depth of the node it is called for. *)
Lemma collect_indirect_laid :
  (∀ i e, laid ns i e → ∀ n, ns !! i = Some n → ∀ b,
     (Nat.even (dep (parent n)) = b → ∀ fuel r, e - i ≤ fuel →
        collect_indirect_descendants fuel ns i r =
        store_all r (ids (at_parity dep b (slice ns (S i) e)))) ∧
     (Nat.even (dep (parent n)) = negb b → ∀ fuel r, e - S i ≤ fuel →
        for_each (λ result j,
                    grandchild ← deref ns j;
                    result ← store_result result (id (data grandchild));
                    collect_indirect_descendants fuel ns j result) r (children n) =
        store_all r (ids (at_parity dep b (slice ns (S i) e))))) ∧
  (∀ p q s ks e, kids ns p q s ks e → ∀ b,
     (Nat.even (dep (Some p)) = negb b → ∀ fuel r, e - s ≤ fuel →
        for_each (λ result i,
                    child ← deref ns i;
                    for_each (λ result j,
                                grandchild ← deref ns j;
                                result ← store_result result (id (data grandchild));
                                collect_indirect_descendants fuel ns j result)
                             result (children child)) r ks =
        store_all r (ids (at_parity dep b (slice ns s e)))) ∧
     (Nat.even (dep (Some p)) = b → ∀ fuel r, e - s ≤ fuel →
        for_each (λ result j,
                    grandchild ← deref ns j;
                    result ← store_result result (id (data grandchild));
                    collect_indirect_descendants fuel ns j result) r ks =
        store_all r (ids (at_parity dep b (slice ns s e))))).
Proof.
  apply laid_kids_ind.
  - intros i n e Hn Hk IH n' Hn' b. assert (n' = n) as -> by congruence.
    pose proof (kids_bounds _ _ _ _ _ _ Hk). pose proof (Hdep _ _ Hn) as Hi.
    destruct (IH b) as [IHouter _]. destruct (IH b) as [_ IHinner].
    split.
    + intros Hpar fuel r Hfuel. destruct fuel as [|fuel]; [lia|].
      simpl. rewrite (deref_Some _ _ _ Hn). simpl.
      apply IHouter; [|lia]. rewrite Hi, Nat.even_succ, <- Nat.negb_even, Hpar. done.
    + intros Hpar fuel r Hfuel. apply IHinner; [|lia].
      rewrite Hi, Nat.even_succ, <- Nat.negb_even, Hpar. by destruct b.
  - intros p q s b. split; intros _ fuel r _; by rewrite slice_nil.
  - intros p q s m e n ks Hn Hp Hq Hl IHl Hk IHk b.
    pose proof (laid_bounds _ _ _ Hl). pose proof (kids_bounds _ _ _ _ _ _ Hk).
    destruct (IHl n Hn b) as [IHcollect IHchild]. destruct (IHk b) as [IHouter IHinner].
    rewrite <- (slice_app ns s m e) by lia.
    rewrite (slice_cons ns s m n) by (done || lia).
    rewrite at_parity_app, at_parity_cons. unfold ids. rewrite !fmap_app. fold ids.
    rewrite Hp. rewrite Hp in IHcollect, IHchild.
    split; intros Hpar fuel r Hfuel;
      rewrite !store_all_app, for_each_cons, (deref_Some _ _ _ Hn); simpl.
    + rewrite decide_False by (rewrite Hpar; by destruct b). simpl.
      rewrite IHchild by (done || lia).
      destruct (store_all r _) as [r1|]; [|done]. simpl. apply IHouter; [done|lia].
    + rewrite decide_True by done. simpl. rewrite store_all_singleton.
      destruct (store_result r (id (data n))) as [r1|]; [|done]. simpl.
      rewrite IHcollect by (done || lia).
      destruct (store_all r1 _) as [r2|]; [|done]. simpl. apply IHinner; [done|lia].
Qed.
End levels.

Lemma depth_S fuel ns p :
  depth (S fuel) ns (Some p) =
  match ns !! p with Some pn => S (depth fuel ns (parent pn)) | None => 0 end.
Proof. done. Qed.

Section depth.
Context (root_pid : Z) (c : ProcessCollection).
Hypothesis Hwf : well_formed root_pid c.

Lemma depth_fuel :
  ∀ f1 f2 o, (∀ p, o = Some p → p < f1 ∧ p < f2) →
    depth f1 (nodes c) o = depth f2 (nodes c) o.
Proof.
  induction f1 as [|f1 IH]; intros f2 [p|] Hfuel.
  - destruct (Hfuel p eq_refl). lia.
  - by destruct f2.
  - destruct (Hfuel p eq_refl). destruct f2 as [|f2]; [lia|]. simpl.
    destruct (nodes c !! p) as [pn|] eqn:Hpn; [|done]. f_equal. apply IH.
    intros q Hq. pose proof (wf_parent_lt _ _ _ _ _ Hwf Hpn Hq). lia.
  - by destruct f2.
Qed.

Lemma depth_unfold p pn :
  nodes c !! p = Some pn →
  depth (size c) (nodes c) (Some p) = S (depth (size c) (nodes c) (parent pn)).
Proof.
  intros Hpn. pose proof (lookup_lt_Some _ _ _ Hpn) as Hlt.
  unfold size, collection_size in *.
  destruct (length (nodes c)) as [|k] eqn:Hlen; [lia|].
  rewrite depth_S, Hpn. f_equal. apply depth_fuel.
  intros q Hq. pose proof (wf_parent_lt _ _ _ _ _ Hwf Hpn Hq). lia.
Qed.

Lemma ancestor_depth k :
  ∀ i j, ancestor (nodes c) k i = Some j → i < size c →
    depth (size c) (nodes c) (Some i) = depth (size c) (nodes c) (Some j) + k.
Proof.
  induction k as [|k IH]; intros i j Hanc Hi.
  - injection Hanc as <-. lia.
  - simpl in Hanc. destruct (nodes c !! i) as [n|] eqn:Hn; [|done]. simpl in Hanc.
    destruct (parent n) as [p|] eqn:Hp; [|done]. simpl in Hanc.
    pose proof (wf_parent_lt _ _ _ _ _ Hwf Hn Hp).
    rewrite (depth_unfold _ _ Hn), Hp, (IH p j Hanc) by lia. lia.
Qed.

Lemma ancestor_reaches k :
  ∀ i n j nj, ancestor (nodes c) (S k) i = Some j →
    nodes c !! i = Some n → nodes c !! j = Some nj →
    reaches (nodes c) (id (data nj)) (parent n).
Proof.
  induction k as [|k IH]; intros i n j nj Hanc Hn Hnj;
    simpl in Hanc; rewrite Hn in Hanc; simpl in Hanc;
    destruct (parent n) as [p|] eqn:Hp; try done; simpl in Hanc.
  - injection Hanc as ->. by eapply reaches_here.
  - destruct (nodes c !! p) as [pn|] eqn:Hpn; [|done].
    eapply reaches_up; [done|]. eapply (IH p pn j nj); [|done..].
    simpl. by rewrite Hpn.
Qed.

Lemma reaches_ancestor t nt :
  nodes c !! t = Some nt →
  ∀ o, reaches (nodes c) (id (data nt)) o →
    ∀ i n, nodes c !! i = Some n → parent n = o →
      ∃ k, ancestor (nodes c) (S k) i = Some t.
Proof.
  intros Hnt o Hreach.
  induction Hreach as [p pn Hpn Hid|p pn Hpn Hup IH]; intros i n Hn Hp.
  - assert (p = t) as -> by (by eapply wf_lookup_inj).
    exists 0. simpl. rewrite Hn. simpl. by rewrite Hp.
  - destruct (IH p pn Hpn eq_refl) as [k Hk].
    exists (S k). change (ancestor (nodes c) (S (S k)) i)
      with (n' ← nodes c !! i; q ← parent n'; ancestor (nodes c) (S k) q).
    rewrite Hn. simpl. by rewrite Hp.
Qed.

(** Below a node, the nodes at a depth of the same parity are the nodes
    an even number of parent links away. *)
Lemma even_links_below t e nt i n :
  laid (nodes c) t e → nodes c !! t = Some nt → nodes c !! i = Some n →
  n ∈ at_parity (depth (size c) (nodes c))
                (Nat.even (depth (size c) (nodes c) (parent nt)))
                (slice (nodes c) (S t) e) ↔
  ∃ k, ancestor (nodes c) (2 * S k) i = Some t.
Proof.
  intros Hl Hnt Hn. pose proof (lookup_lt_Some _ _ _ Hn) as Hi.
  unfold at_parity. rewrite list_elem_of_filter, elem_of_slice_lookup. split.
  - intros (Hpar & x & Hx & Hnx).
    assert (x = i) as -> by (by eapply wf_lookup_inj).
    assert (t < i < e) as Hrange by lia.
    apply (wf_descendants _ _ Hwf t e nt i n Hl Hnt Hn) in Hrange.
    destruct (reaches_ancestor t nt Hnt _ Hrange i n Hn eq_refl) as [k' Hk'].
    pose proof (ancestor_depth _ _ _ Hk' Hi) as Hd.
    rewrite (depth_unfold _ _ Hn), (depth_unfold _ _ Hnt) in Hd.
    assert (depth (size c) (nodes c) (parent n)
            = depth (size c) (nodes c) (parent nt) + S k') as Hd' by lia.
    rewrite Hd', Nat.even_add in Hpar.
    assert (Nat.even (S k') = true) as [m Hm]%Nat.even_spec.
    { destruct (Nat.even (depth _ _ (parent nt))), (Nat.even (S k')); done. }
    destruct m as [|m]; [lia|]. exists m. by rewrite <- Hm.
  - intros [k Hk]. replace (2 * S k) with (S (2 * k + 1)) in Hk by lia.
    pose proof (ancestor_reaches _ _ _ _ _ Hk Hn Hnt) as Hreach.
    apply (wf_descendants _ _ Hwf t e nt i n Hl Hnt Hn) in Hreach.
    pose proof (ancestor_depth _ _ _ Hk Hi) as Hd.
    rewrite (depth_unfold _ _ Hn), (depth_unfold _ _ Hnt) in Hd.
    split; [|exists i; split; [lia|done]].
    replace (depth (size c) (nodes c) (parent n))
      with (depth (size c) (nodes c) (parent nt) + 2 * (k + 1)) by lia.
    rewrite Nat.even_add, Nat.even_mul. simpl.
    by destruct (Nat.even (depth _ _ (parent nt))).
Qed.
End depth.

(** The nodes an even number of parent links below a node of a
    well-formed tree, and what [get_indirect_descendants] returns for
    them. *)
Lemma indirect_cases root_pid c pid t fuel' :
  well_formed root_pid c →
  find_node_by_pid c pid = Some t → size c ≤ fuel' →
  ∃ ds : list ProcessNode,
    ds `sublist_of` nodes c ∧
    (∀ i n, nodes c !! i = Some n →
       n ∈ ds ↔ ∃ k, ancestor (nodes c) (2 * S k) i = Some t) ∧
    get_indirect_descendants fuel' c pid =
      (if decide (length ds ≤ 1000)
       then Ok (extend (init_result (Some "No non-direct descendants")) (ids ds))
       else Err (OutOfBounds 1000)).
Proof.
  intros Hwf Hfind Hfuel.
  pose proof (find_node_by_pid_lt _ _ _ Hfind) as Hlt.
  destruct (find_node_by_pid_lookup _ _ _ Hfind) as (nt & Hnt & Hid).
  destruct (wf_subtree _ _ Hwf t Hlt) as (e & Hl & He).
  exists (at_parity (depth (size c) (nodes c))
            (Nat.even (depth (size c) (nodes c) (parent nt)))
            (slice (nodes c) (S t) e)).
  split_and!.
  - unfold at_parity. etrans; [apply sublist_filter|apply slice_sublist].
  - intros i n Hn. by apply (even_links_below root_pid).
  - unfold get_indirect_descendants. rewrite Hfind.
    destruct (proj1 (collect_indirect_laid (nodes c) (depth (size c) (nodes c))
                       (depth_unfold _ _ Hwf)) t e Hl nt Hnt
                (Nat.even (depth (size c) (nodes c) (parent nt)))) as [Hcollect _].
    rewrite Hcollect by (done || lia).
    rewrite store_all_extend by (rewrite init_result_count; lia).
    rewrite init_result_count, Nat.add_0_l, init_result_capacity.
    unfold ids. by rewrite length_fmap.
Qed.

(** X16. On a built tree, for a target in it, [get_indirect_descendants]
    returns the pids of the nodes that are an even number of parent links,
    two or more, below the target: the grandchildren, their
    grandchildren, and so on, in the order in which the tree stores them,
    and no node an odd number of links below.  With more than 1000 of them
    the store at index 1000 faults. *)
Theorem indirect_descendants_are_an_even_number_of_links_below
    fuel snap root_pid c pid t fuel' :
  built fuel snap root_pid c →
  find_node_by_pid c pid = Some t → size c ≤ fuel' →
  ∃ ds : list ProcessNode,
    ds `sublist_of` nodes c ∧
    (∀ i n, nodes c !! i = Some n →
       n ∈ ds ↔ ∃ k, ancestor (nodes c) (2 * S k) i = Some t) ∧
    get_indirect_descendants fuel' c pid =
      (if decide (length ds ≤ 1000)
       then Ok (extend (init_result (Some "No non-direct descendants")) (ids ds))
       else Err (OutOfBounds 1000)).
Proof.
  intros [->|Hwf]%built_cases Hfind Hfuel; [done|]. by eapply indirect_cases.
Qed.

Lemma indirect_descendants_are_an_even_number_of_links_below_witness :
  ∃ ds : list ProcessNode,
    ds `sublist_of` nodes chain_tree ∧
    (∀ i n, nodes chain_tree !! i = Some n →
       n ∈ ds ↔ ∃ k, ancestor (nodes chain_tree) (2 * S k) i = Some 0) ∧
    get_indirect_descendants 4 chain_tree 1 =
      (if decide (length ds ≤ 1000)
       then Ok (extend (init_result (Some "No non-direct descendants")) (ids ds))
       else Err (OutOfBounds 1000)).
Proof.
  apply (indirect_descendants_are_an_even_number_of_links_below 5 chain 1 chain_tree 1 0 4);
    [reflexivity|reflexivity|vm_compute; lia].
Defined.

Lemma at_depth_app dep d l1 l2 :
  at_depth dep d (l1 ++ l2) = at_depth dep d l1 ++ at_depth dep d l2.
Proof. apply filter_app. Qed.

Lemma at_depth_cons dep d n l :
  at_depth dep d (n :: l) =
  (if decide (dep (parent n) = d) then [n] else []) ++ at_depth dep d l.
Proof. unfold at_depth. rewrite filter_cons. by case_decide. Qed.

Lemma at_depth_none dep d l :
  (∀ n, n ∈ l → dep (parent n) ≠ d) → at_depth dep d l = [].
Proof.
  intros Hl. unfold at_depth.
  destruct (filter _ l) as [|n l'] eqn:Hfilter; [done|].
  assert (n ∈ filter (λ n, dep (parent n) = d) l) as [Hd Hn]%list_elem_of_filter
    by (rewrite Hfilter; by left).
  by apply Hl in Hn.
Qed.

Section generations.
Context (ns : list ProcessNode) (dep : option nat → nat).
Hypothesis Hdep : ∀ p pn, ns !! p = Some pn → dep (Some p) = S (dep (parent pn)).

Lemma laid_deeper i e ni :
  laid ns i e → ns !! i = Some ni →
  ∀ x nx, i < x < e → ns !! x = Some nx → dep (parent ni) < dep (parent nx).
Proof.
  intros Hl Hni x. induction (lt_wf x) as [x _ IH]. intros nx Hx Hnx.
  destruct (proj1 (laid_kids_parents ns) _ _ Hl x Hx)
    as (nx' & p & np & Hnx' & Hp & Hb & Hnp & _).
  assert (nx' = nx) as -> by congruence.
  rewrite Hp, (Hdep _ _ Hnp). destruct (decide (p = i)) as [->|Hne].
  - assert (np = ni) as -> by congruence. lia.
  - assert (dep (parent ni) < dep (parent np)); [|lia].
    apply (IH p); [lia|lia|done].
Qed.

(** The children of a node are the nodes of its subtree one level down,
    the children of its children those two levels down. *)
Lemma store_children_laid p q s ks e :
  kids ns p q s ks e →
  ∀ r, for_each (λ result j,
                   grandchild ← deref ns j;
                   store_result result (id (data grandchild))) r ks =
       store_all r (ids (at_depth dep (dep (Some p)) (slice ns s e))).
Proof.
  induction 1 as [p q s|p q s m e n ks Hn Hp Hq Hl Hk IH]; intros r.
  - by rewrite slice_nil.
  - pose proof (laid_bounds _ _ _ Hl). pose proof (kids_bounds _ _ _ _ _ _ Hk).
    rewrite <- (slice_app ns s m e) by lia.
    rewrite (slice_cons ns s m n) by (done || lia).
    rewrite at_depth_app, at_depth_cons, Hp, decide_True by done.
    rewrite (at_depth_none _ _ (slice ns (S s) m)).
    + simpl. rewrite (deref_Some _ _ _ Hn). simpl.
      change (id (data n) :: ids (at_depth dep (dep (Some p)) (slice ns m e)))
        with ([id (data n)] ++ ids (at_depth dep (dep (Some p)) (slice ns m e))).
      rewrite store_all_app, store_all_singleton.
      destruct (store_result r (id (data n))) as [r1|]; [|done]. apply IH.
    + intros nx (x & Hx & Hnx)%elem_of_slice_lookup.
      pose proof (laid_deeper s m n Hl Hn x nx) as Hdeeper.
      rewrite Hp in Hdeeper. assert (dep (Some p) < dep (parent nx)); [|lia].
      apply Hdeeper; [lia|done].
Qed.

Lemma store_grandchildren_laid p q s ks e :
  kids ns p q s ks e →
  ∀ r, for_each (λ result i,
                   child ← deref ns i;
                   for_each (λ result j,
                               grandchild ← deref ns j;
                               store_result result (id (data grandchild)))
                            result (children child)) r ks =
       store_all r (ids (at_depth dep (S (dep (Some p))) (slice ns s e))).
Proof.
  induction 1 as [p q s|p q s m e n ks Hn Hp Hq Hl Hk IH]; intros r.
  - by rewrite slice_nil.
  - pose proof (laid_bounds _ _ _ Hl). pose proof (kids_bounds _ _ _ _ _ _ Hk).
    rewrite <- (slice_app ns s m e) by lia.
    rewrite (slice_cons ns s m n) by (done || lia).
    rewrite at_depth_app, at_depth_cons, Hp, decide_False by lia.
    unfold ids. rewrite fmap_app. fold ids. rewrite store_all_app.
    rewrite for_each_cons, (deref_Some _ _ _ Hn). simpl.
    inversion Hl as [s' n' m' Hn' Hkids]; subst s' m'.
    assert (n' = n) as -> by congruence.
    rewrite (store_children_laid _ _ _ _ _ Hkids), (Hdep _ _ Hn), Hp.
    destruct (store_all r _) as [r1|]; [|done]. apply IH.
Qed.
End generations.

(** The nodes two parent links below a node of a well-formed tree, and
    what [get_grandchildren] returns for them. *)
Lemma grandchildren_cases root_pid c pid t :
  well_formed root_pid c →
  find_node_by_pid c pid = Some t →
  ∃ ds : list ProcessNode,
    ds `sublist_of` nodes c ∧
    (∀ i n, nodes c !! i = Some n → n ∈ ds ↔ ancestor (nodes c) 2 i = Some t) ∧
    get_grandchildren c pid =
      (if decide (length ds ≤ 1000)
       then Ok (extend (init_result (Some "No grandchildren")) (ids ds))
       else Err (OutOfBounds 1000)).
Proof.
  intros Hwf Hfind.
  pose proof (find_node_by_pid_lt _ _ _ Hfind) as Hlt.
  destruct (find_node_by_pid_lookup _ _ _ Hfind) as (nt & Hnt & Hid).
  destruct (wf_subtree _ _ Hwf t Hlt) as (e & Hl & He).
  exists (at_depth (depth (size c) (nodes c))
            (S (depth (size c) (nodes c) (Some t))) (slice (nodes c) (S t) e)).
  split_and!.
  - unfold at_depth. etrans; [apply sublist_filter|apply slice_sublist].
  - intros i n Hn. pose proof (lookup_lt_Some _ _ _ Hn) as Hi.
    unfold at_depth. rewrite list_elem_of_filter, elem_of_slice_lookup. split.
    + intros (Hd & x & Hx & Hnx).
      assert (x = i) as -> by (by eapply wf_lookup_inj).
      assert (t < i < e) as Hrange by lia.
      apply (wf_descendants _ _ Hwf t e nt i n Hl Hnt Hn) in Hrange.
      destruct (reaches_ancestor _ _ Hwf t nt Hnt _ Hrange i n Hn eq_refl) as [k Hk].
      pose proof (ancestor_depth _ _ Hwf _ _ _ Hk Hi) as Hdepth.
      rewrite (depth_unfold _ _ Hwf _ _ Hn) in Hdepth.
      assert (k = 1) as -> by lia. done.
    + intros Hanc.
      pose proof (ancestor_reaches c 1 _ _ _ _ Hanc Hn Hnt) as Hreach.
      apply (wf_descendants _ _ Hwf t e nt i n Hl Hnt Hn) in Hreach.
      pose proof (ancestor_depth _ _ Hwf _ _ _ Hanc Hi) as Hdepth.
      rewrite (depth_unfold _ _ Hwf _ _ Hn) in Hdepth.
      split; [lia|]. exists i. split; [lia|done].
  - unfold get_grandchildren. rewrite Hfind, (deref_Some _ _ _ Hnt). simpl.
    inversion Hl as [t' n' e' Hn' Hkids]; subst t' e'.
    assert (n' = nt) as -> by congruence.
    rewrite (store_grandchildren_laid (nodes c) (depth (size c) (nodes c))
               (depth_unfold _ _ Hwf) _ _ _ _ _ Hkids).
    rewrite store_all_extend by (rewrite init_result_count; lia).
    rewrite init_result_count, Nat.add_0_l, init_result_capacity.
    unfold ids. by rewrite length_fmap.
Qed.

(** X17. On a built tree, for a target in it, [get_grandchildren] returns
    the pids of the nodes two parent links below the target, in the order
    in which the tree stores them; with more than 1000 of them the store
    at index 1000 faults. *)
Theorem grandchildren_are_two_links_below fuel snap root_pid c pid t :
  built fuel snap root_pid c →
  find_node_by_pid c pid = Some t →
  ∃ ds : list ProcessNode,
    ds `sublist_of` nodes c ∧
    (∀ i n, nodes c !! i = Some n → n ∈ ds ↔ ancestor (nodes c) 2 i = Some t) ∧
    get_grandchildren c pid =
      (if decide (length ds ≤ 1000)
       then Ok (extend (init_result (Some "No grandchildren")) (ids ds))
       else Err (OutOfBounds 1000)).
Proof.
  intros [->|Hwf]%built_cases Hfind; [done|]. by eapply grandchildren_cases.
Qed.

Lemma grandchildren_are_two_links_below_witness :
  ∃ ds : list ProcessNode,
    ds `sublist_of` nodes scenario_tree ∧
    (∀ i n, nodes scenario_tree !! i = Some n →
       n ∈ ds ↔ ancestor (nodes scenario_tree) 2 i = Some 0) ∧
    get_grandchildren scenario_tree 1 =
      (if decide (length ds ≤ 1000)
       then Ok (extend (init_result (Some "No grandchildren")) (ids ds))
       else Err (OutOfBounds 1000)).
Proof.
  apply (grandchildren_are_two_links_below 5 scenario 1 scenario_tree 1 0); reflexivity.
Defined.

(** ** The size of the tree and the safety of a run *)

Lemma built_size_le fuel snap root_pid c :
  built fuel snap root_pid c → size c ≤ S (length (proc_dir snap)).
Proof.
  intros Hc. pose proof (built_as_reported _ _ _ _ Hc) as [_ Hfrom].
  apply built_cases in Hc as [->|Hwf]; [simpl; unfold size, collection_size; simpl; lia|].
  assert (ids (drop 1 (nodes c)) ⊆+ d_name <$> proc_dir snap) as Hsub.
  { apply NoDup_submseteq.
    - unfold ids. rewrite fmap_drop. eapply sublist_NoDup; [apply (wf_nodup _ _ Hwf)|].
      apply sublist_drop.
    - intros x (n & -> & [j Hj]%list_elem_of_lookup)%list_elem_of_fmap.
      rewrite lookup_drop in Hj.
      destruct (Hfrom _ _ Hj) as (entry & Hin & _ & _ & Hfetch); [lia|].
      apply fetch_process_data_id in Hfetch. rewrite Hfetch.
      by apply list_elem_of_fmap_2. }
  apply submseteq_length in Hsub. unfold ids in Hsub.
  rewrite !length_fmap, length_drop in Hsub. unfold size, collection_size. lia.
Qed.

(** X18. The built tree has at most one node for every entry of [/proc],
    and the root. *)
Theorem built_tree_is_no_larger_than_proc fuel snap root_pid c :
  built fuel snap root_pid c → size c ≤ S (length (proc_dir snap)).
Proof. apply built_size_le. Qed.

Lemma built_tree_is_no_larger_than_proc_witness :
  size scenario_tree ≤ S (length (proc_dir scenario)).
Proof.
  apply (built_tree_is_no_larger_than_proc 5 scenario 1 scenario_tree). reflexivity.
Defined.

Lemma safe_lift_store_all msg xs : safe (lift (store_all (init_result msg) xs)).
Proof.
  rewrite store_all_extend by (rewrite init_result_count; lia).
  rewrite init_result_capacity. by destruct (decide _).
Qed.

Lemma safe_display_results (m : run CommandResult) :
  safe m → safe (result ← m; display_results result).
Proof.
  destruct m as [res tr|e]; [|done]. intros _. rewrite run_bind_Done.
  unfold display_results. rewrite print_loop.
  by destruct (bool_decide (count res = 0)), (empty_message res).
Qed.

Section safety.
Context (root_pid : Z) (c : ProcessCollection) (pid : Z) (t : nat).
Hypothesis Hwf : well_formed root_pid c.
Hypothesis Hfind : find_node_by_pid c pid = Some t.

Lemma safe_get_direct_descendants : safe (lift (get_direct_descendants c pid)).
Proof.
  destruct (find_node_by_pid_lookup _ _ _ Hfind) as (nt & Hnt & _).
  unfold get_direct_descendants. rewrite Hfind, (deref_Some _ _ _ Hnt). simpl.
  destruct (wf_children_nodes _ _ _ _ Hwf Hnt) as [kns Hkns].
  rewrite (store_children _ _ _ Hkns). apply safe_lift_store_all.
Qed.

Lemma safe_get_grandchildren : safe (lift (get_grandchildren c pid)).
Proof.
  destruct (find_node_by_pid_lookup _ _ _ Hfind) as (nt & Hnt & _).
  destruct (wf_subtree _ _ Hwf t) as (e & Hl & _); [by eapply find_node_by_pid_lt|].
  unfold get_grandchildren. rewrite Hfind, (deref_Some _ _ _ Hnt). simpl.
  inversion Hl as [t' n' e' Hn' Hkids]; subst t' e'.
  assert (n' = nt) as -> by congruence.
  rewrite (store_grandchildren_laid (nodes c) (depth (size c) (nodes c))
             (depth_unfold _ _ Hwf) _ _ _ _ _ Hkids).
  apply safe_lift_store_all.
Qed.

Lemma safe_get_indirect_descendants fuel :
  size c ≤ fuel → safe (lift (get_indirect_descendants fuel c pid)).
Proof.
  intros Hfuel. destruct (find_node_by_pid_lookup _ _ _ Hfind) as (nt & Hnt & _).
  destruct (wf_subtree _ _ Hwf t) as (e & Hl & He); [by eapply find_node_by_pid_lt|].
  unfold get_indirect_descendants. rewrite Hfind.
  destruct (proj1 (collect_indirect_laid (nodes c) (depth (size c) (nodes c))
                     (depth_unfold _ _ Hwf)) t e Hl nt Hnt
              (Nat.even (depth (size c) (nodes c) (parent nt)))) as [Hcollect _].
  rewrite Hcollect by (done || lia). apply safe_lift_store_all.
Qed.

Lemma safe_get_siblings : safe (lift (get_siblings c pid)).
Proof.
  destruct (find_node_by_pid_lookup _ _ _ Hfind) as (nt & Hnt & _).
  unfold get_siblings. rewrite Hfind, (deref_Some _ _ _ Hnt). simpl.
  destruct (parent nt) as [p|] eqn:Hp; [|done].
  destruct (wf_parent_child _ _ Hwf t nt p Hnt Hp) as (pn & Hpn & _).
  rewrite (deref_Some _ _ _ Hpn). simpl.
  destruct (wf_children_nodes _ _ _ _ Hwf Hpn) as [kns Hkns].
  pose proof (store_selected (nodes c) (λ s, bool_decide (id (data s) ≠ pid))
                _ _ Hkns) as Hloop. simpl in Hloop. rewrite Hloop.
  apply safe_lift_store_all.
Qed.

Lemma safe_get_defunct_siblings : safe (lift (get_defunct_siblings c pid)).
Proof.
  destruct (find_node_by_pid_lookup _ _ _ Hfind) as (nt & Hnt & _).
  unfold get_defunct_siblings. rewrite Hfind, (deref_Some _ _ _ Hnt). simpl.
  destruct (parent nt) as [p|] eqn:Hp; [|done].
  destruct (wf_parent_child _ _ Hwf t nt p Hnt Hp) as (pn & Hpn & _).
  rewrite (deref_Some _ _ _ Hpn). simpl.
  destruct (wf_children_nodes _ _ _ _ Hwf Hpn) as [kns Hkns].
  pose proof (store_selected (nodes c)
                (λ s, bool_decide (id (data s) ≠ pid) && defunct_flag (data s))
                _ _ Hkns) as Hloop. simpl in Hloop. rewrite Hloop.
  apply safe_lift_store_all.
Qed.

Lemma safe_get_defunct_descendants fuel :
  size c ≤ fuel → safe (lift (get_defunct_descendants fuel c pid)).
Proof.
  intros Hfuel.
  destruct (wf_subtree _ _ Hwf t) as (e & Hl & He); [by eapply find_node_by_pid_lt|].
  rewrite (get_defunct_descendants_laid _ _ _ _ e Hfind Hl) by lia.
  apply safe_lift_store_all.
Qed.

Lemma safe_kill_zombie_parents fuel os :
  size c ≤ fuel → safe (kill_zombie_parents fuel os c pid).
Proof.
  intros Hfuel.
  destruct (wf_subtree _ _ Hwf t) as (e & Hl & He); [by eapply find_node_by_pid_lt|].
  unfold kill_zombie_parents.
  rewrite (get_defunct_descendants_laid _ _ _ _ e Hfind Hl) by lia.
  rewrite store_all_extend by (rewrite init_result_count; lia).
  rewrite init_result_count, Nat.add_0_l, init_result_capacity.
  destruct (decide _) as [Hfit|]; [|done].
  rewrite run_bind_lift_Ok.
  change (result_ids (extend _ ?xs)) with xs.
  rewrite kill_parents_loop; [done|apply Hwf|apply zombies_below_nodes|].
  rewrite init_result_count, init_result_capacity.
  unfold ids in Hfit. rewrite length_fmap in Hfit. lia.
Qed.

Lemma safe_handle_process_status fuel os : safe (handle_process_status fuel os c pid).
Proof.
  destruct (find_node_by_pid_lookup _ _ _ Hfind) as (nt & Hnt & _).
  unfold handle_process_status. by rewrite Hfind, (deref_Some _ _ _ Hnt), run_bind_lift_Ok.
Qed.

Lemma safe_handle_kill_root fuel os : safe (handle_kill_root fuel os c pid).
Proof.
  unfold handle_kill_root. rewrite (wf_root _ _ Hwf).
  destruct (wf_root_node _ _ Hwf) as (rn & Hrn & _).
  by rewrite (deref_Some _ _ _ Hrn), run_bind_lift_Ok.
Qed.
End safety.

Lemma safe_signal_all_descendants fuel snap root_pid c os pid t sig fuel' :
  built fuel snap root_pid c → find_node_by_pid c pid = Some t → size c ≤ fuel' →
  safe (signal_all_descendants fuel' os c pid sig).
Proof.
  intros Hc Hfind Hfuel.
  destruct (signal_all_descendants_cases _ _ _ _ os _ _ sig _ Hc Hfind Hfuel)
    as (ds & _ & _ & ->).
  by destruct (decide _).
Qed.

Lemma handlers_safe fuel snap root_pid c m fuel' os pid t :
  built fuel snap root_pid c → m ∈ command_registry →
  find_node_by_pid c pid = Some t → size c ≤ fuel' →
  safe (handler m fuel' os c pid).
Proof.
  intros Hc Hm Hfind Hfuel. pose proof Hc as [->|Hwf]%built_cases; [done|].
  unfold command_registry in Hm.
  repeat (apply elem_of_cons in Hm as [->|Hm]); simpl handler.
  - done.
  - by eapply safe_get_indirect_descendants.
  - by eapply safe_get_direct_descendants.
  - by eapply safe_get_siblings.
  - by eapply safe_get_defunct_siblings.
  - by eapply safe_get_defunct_descendants.
  - by eapply safe_get_grandchildren.
  - by eapply safe_handle_process_status.
  - by eapply safe_kill_zombie_parents.
  - by eapply safe_signal_all_descendants.
  - by eapply safe_signal_all_descendants.
  - by eapply safe_signal_all_descendants.
  - by eapply safe_handle_kill_root.
  - by apply elem_of_nil in Hm.
Qed.

(** X19. With more fuel than [/proc] has entries, a run never follows a
    pointer that is not a node and never stops for lack of fuel, whatever
    the process table, the arguments and the answers of [kill]: it ends,
    or it faults on the store at index 1000 of a result block. *)
Theorem main_is_safe fuel os snap args :
  length (proc_dir snap) < fuel →
  (∃ status trace, main fuel os snap args = Done status trace) ∨
  main fuel os snap args = Crash (OutOfBounds 1000).
Proof.
  intros Hfuel.
  assert (safe (main fuel os snap args)) as Hsafe.
  { unfold main. case_bool_decide; [done|].
    destruct (built_terminates snap (argv1 args) (fuel - S (length (proc_dir snap))))
      as [c Hc].
    replace (S (length (proc_dir snap)) + (fuel - S (length (proc_dir snap))))
      with fuel in Hc by lia.
    pose proof (built_size_le _ _ _ _ Hc) as Hsize.
    pose proof Hc as Hbuild. unfold built in Hbuild. rewrite Hbuild, run_bind_lift_Ok.
    assert (∀ m : run (), safe m → safe (_ ← m; mret 0%Z)) as Hret.
    { intros [[] tr|e]; done. }
    apply Hret. case_bool_decide.
    { destruct (find_node_by_pid c (argv2 args)) as [t|] eqn:Hfind; [|done].
      destruct (find_node_by_pid_lookup _ _ _ Hfind) as (n & Hn & _).
      by rewrite (deref_Some _ _ _ Hn), run_bind_lift_Ok. }
    case_bool_decide.
    { apply safe_display_results.
      apply built_cases in Hc as [->|Hwf]; [done|].
      by eapply safe_handle_kill_root. }
    destruct (find_command_handler (argv3 args)) as [h|] eqn:Hh; [|done].
    destruct (find_node_by_pid c (argv2 args)) as [t|] eqn:Hfind; [|done].
    apply find_command_handler_Some in Hh as (m & Hm & _ & <-).
    apply safe_display_results. eapply handlers_safe; [done..|lia]. }
  destruct (main fuel os snap args) as [status trace|[| |k]]; [eauto|done|done|].
  right. simpl in Hsafe. by rewrite Hsafe.
Qed.

Lemma main_is_safe_witness :
  (∃ status trace,
     main 5 no_answer scenario (mkCmdline 4 "tool" 1 1 "-ds") = Done status trace) ∨
  main 5 no_answer scenario (mkCmdline 4 "tool" 1 1 "-ds") = Crash (OutOfBounds 1000).
Proof.
  apply (main_is_safe 5 no_answer scenario (mkCmdline 4 "tool" 1 1 "-ds")).
  vm_compute. lia.
Defined.

(** ** Storing nodes and looking them up *)

Lemma find_node_by_pid_ids c pid :
  find_node_by_pid c pid = fst <$> list_find (λ x, x = pid) (ids (nodes c)).
Proof.
  unfold find_node_by_pid, ids. rewrite list_find_fmap.
  by destruct (list_find _ (nodes c)) as [[i n]|].
Qed.

(** X20. Looking up a pid after [add_to_collection] finds what was found
    before; a pid that was not found is found at the new node, the last
    one, when it is the new node's pid.  [add_child] changes no lookup. *)
Theorem lookup_after_adding_a_node c node p k pid :
  find_node_by_pid (add_to_collection c node) pid =
    match find_node_by_pid c pid with
    | Some i => Some i
    | None => if decide (id (data node) = pid) then Some (size c) else None
    end ∧
  find_node_by_pid (add_child c p k) pid = find_node_by_pid c pid.
Proof.
  split.
  - destruct (find_node_by_pid c pid) as [i|] eqn:Hfind.
    + by apply find_add_to_collection.
    + apply find_node_by_pid_None in Hfind. case_decide as Hid.
      * apply find_node_by_pid_Some. exists node. split_and!.
        -- simpl. by rewrite lookup_app_r, Nat.sub_diag.
        -- done.
        -- intros j m Hm Hlt. simpl in Hm. rewrite lookup_app_l in Hm by done.
           intros Hpid. apply Hfind. apply list_elem_of_fmap. exists m.
           split; [done|by eapply list_elem_of_lookup_2].
      * apply find_node_by_pid_None. simpl. unfold ids. rewrite fmap_app.
        intros [Hin|Hin%list_elem_of_singleton]%elem_of_app; [by apply Hfind|done].
  - by rewrite !find_node_by_pid_ids, add_child_ids.
Qed.

(** ** The answers of [kill] *)

Lemma for_each_run_ext {A S} (body1 body2 : S → A → run S) l :
  (∀ s x, body1 s x = body2 s x) →
  ∀ s, for_each body1 s l = for_each body2 s l.
Proof.
  intros Hbody. induction l as [|x l IH]; intros s; [done|].
  rewrite !for_each_cons, Hbody.
  destruct (body2 s x) as [s' tr|e]; [|done]. by rewrite !run_bind_Done, IH.
Qed.

Lemma signal_if_descendant_os os os' ns current pid sig :
  ∀ fuel o r,
    signal_if_descendant fuel os ns current o pid sig r =
    signal_if_descendant fuel os' ns current o pid sig r.
Proof.
  induction fuel as [|fuel IH]; intros [p|] r; try done.
  simpl. destruct (deref ns p) as [pn|e]; [|done]. simpl.
  case_bool_decide; [|by rewrite IH]. reflexivity.
Qed.

Lemma signal_all_descendants_os os os' fuel c pid sig :
  signal_all_descendants fuel os c pid sig = signal_all_descendants fuel os' c pid sig.
Proof.
  unfold signal_all_descendants. destruct (find_node_by_pid c pid); [|done].
  apply for_each_run_ext. intros r current. apply signal_if_descendant_os.
Qed.

Lemma kill_zombie_parents_os os os' fuel c pid :
  kill_zombie_parents fuel os c pid = kill_zombie_parents fuel os' c pid.
Proof.
  unfold kill_zombie_parents.
  destruct (get_defunct_descendants fuel c pid) as [zombies|e]; [|done].
  rewrite !run_bind_lift_Ok. apply for_each_run_ext. intros r z.
  destruct (find_node_by_pid c z) as [zi|]; [|done].
  destruct (deref (nodes c) zi) as [zn|e]; [|done]. rewrite !run_bind_lift_Ok.
  case_bool_decide; [|done]. unfold kill. by rewrite !run_bind_Done.
Qed.

Lemma handle_kill_root_os os os' fuel c pid :
  handle_kill_root fuel os c pid = handle_kill_root fuel os' c pid.
Proof.
  unfold handle_kill_root. destruct (root c) as [r|]; [|done].
  destruct (deref (nodes c) r) as [rn|e]; [|done]. rewrite !run_bind_lift_Ok.
  unfold kill. by rewrite !run_bind_Done.
Qed.

Lemma handlers_os m os os' fuel c pid :
  m ∈ command_registry → handler m fuel os c pid = handler m fuel os' c pid.
Proof.
  unfold command_registry. intros Hm.
  repeat (apply elem_of_cons in Hm as [->|Hm]); simpl handler;
    [done..| | | | | |].
  - apply kill_zombie_parents_os.
  - apply signal_all_descendants_os.
  - apply signal_all_descendants_os.
  - apply signal_all_descendants_os.
  - apply handle_kill_root_os.
  - by apply elem_of_nil in Hm.
Qed.

(** X21. A run does not depend on what [kill] answers: a signal that
    could not be delivered is not reported, the pid is listed as if it
    had been, and the signals sent after it are the same. *)
Theorem kill_answers_are_ignored fuel os os' snap args :
  main fuel os snap args = main fuel os' snap args.
Proof.
  unfold main. case_bool_decide; [done|].
  destruct (build_process_hierarchy fuel snap (init_collection 1000) (argv1 args))
    as [c|e]; [|done].
  rewrite !run_bind_lift_Ok. case_bool_decide; [done|].
  case_bool_decide.
  { by rewrite (handle_kill_root_os os os'). }
  destruct (find_command_handler (argv3 args)) as [h|] eqn:Hh; [|done].
  apply find_command_handler_Some in Hh as (m & Hm & _ & <-).
  destruct (find_node_by_pid c (argv2 args)); [|done].
  by rewrite (handlers_os m os os').
Qed.

(** X22. A run with the option [-dc], for any target of the built tree,
    prints the number of zombies in the whole tree, the root and the nodes
    that are not below the target included, and nothing else. *)
Theorem count_option_counts_the_whole_tree fuel os snap args c t :
  built fuel snap (argv1 args) c → 3 < argc args → argv3 args = "-dc" →
  find_node_by_pid c (argv2 args) = Some t →
  main fuel os snap args =
  Done 0%Z [Printed (pretty (length (filter (λ n, defunct_flag (data n) = true)
                                            (nodes c))))].
Proof.
  intros Hc Hargc Hopt Hfind. unfold main. rewrite bool_decide_false by lia.
  unfold built in Hc. rewrite Hc, run_bind_lift_Ok.
  rewrite bool_decide_false by lia. rewrite Hopt. simpl.
  rewrite Hfind. unfold handle_count_defunct. by rewrite count_zombies_filter.
Qed.

Lemma count_option_counts_the_whole_tree_witness :
  main 5 no_answer scenario (mkCmdline 4 "tool" 1 3 "-dc") = Done 0%Z [Printed "2"].
Proof.
  apply (count_option_counts_the_whole_tree 5 no_answer scenario
           (mkCmdline 4 "tool" 1 3 "-dc") scenario_tree 3);
    [reflexivity|simpl; lia|reflexivity|reflexivity].
Defined.

(** ** The command registry *)

(** X23. No flag of the command registry hides another: looking up the
    flag of a mapping finds the handler of that mapping. *)
Theorem registry_flags_find_their_handlers m :
  m ∈ command_registry → find_command_handler (flag m) = Some (handler m).
Proof.
  unfold command_registry. intros Hm.
  repeat (apply elem_of_cons in Hm as [->|Hm]); [reflexivity..|].
  by apply elem_of_nil in Hm.
Qed.

Lemma registry_flags_find_their_handlers_witness :
  find_command_handler "--pz" = Some handle_kill_zombie_parents.
Proof.
  apply (registry_flags_find_their_handlers
           (mkMapping "--pz" handle_kill_zombie_parents "Kill parents of zombie processes")).
  unfold command_registry. do 8 right. left.
Defined.

(** * The result block, for every command *)

Lemma selects_app {A} (P : A → Prop) l1 l2 d1 d2 :
  selects P l1 d1 → selects P l2 d2 → selects P (l1 ++ l2) (d1 ++ d2).
Proof.
  induction 1 as [|x l ds Hx _ IH|x l ds Hx _ IH]; intros H2; simpl.
  - done.
  - apply selects_keep; [done|by apply IH].
  - apply selects_skip; [done|by apply IH].
Qed.

Lemma selects_all {A} (P : A → Prop) l : (∀ x, x ∈ l → P x) → selects P l l.
Proof.
  induction l as [|x l IH]; intros Hl; constructor.
  - apply Hl. by left.
  - apply IH. intros y Hy. apply Hl. by right.
Qed.

Lemma selects_none {A} (P : A → Prop) l : (∀ x, x ∈ l → ¬ P x) → selects P l [].
Proof.
  induction l as [|x l IH]; intros Hl; constructor.
  - apply Hl. by left.
  - apply IH. intros y Hy. apply Hl. by right.
Qed.

Lemma filled_store_all msg xs : store_all (init_result msg) xs = filled (init_result msg) xs.
Proof.
  rewrite store_all_extend by (rewrite init_result_count; lia).
  by rewrite init_result_count, Nat.add_0_l, init_result_capacity.
Qed.

Section below.
Context (root_pid : Z) (c : ProcessCollection) (pid : Z) (t e : nat).
Hypothesis Hwf : well_formed root_pid c.
Hypothesis Hfind : find_node_by_pid c pid = Some t.
Hypothesis Hl : laid (nodes c) t e.

(** The nodes below the target are what is left of the node array when
    the nodes whose parent links lead to the target are kept. *)
Lemma selects_below :
  selects (λ n, reaches (nodes c) pid (parent n)) (nodes c) (slice (nodes c) (S t) e).
Proof.
  destruct (find_node_by_pid_lookup _ _ _ Hfind) as (nt & Hnt & Hid).
  pose proof (laid_bounds _ _ _ Hl) as Hb.
  assert (∀ a b, (b ≤ S t ∨ e ≤ a) →
            ∀ n, n ∈ slice (nodes c) a b → ¬ reaches (nodes c) pid (parent n)) as Hout.
  { intros a b Hab n (x & Hx & Hn)%elem_of_slice_lookup Hreach. rewrite <- Hid in Hreach.
    apply (wf_descendants _ _ Hwf t e nt x n Hl Hnt Hn) in Hreach. lia. }
  assert (selects (λ n, reaches (nodes c) pid (parent n))
            (slice (nodes c) 0 (S t)
               ++ slice (nodes c) (S t) e ++ slice (nodes c) e (length (nodes c)))
            ([] ++ slice (nodes c) (S t) e ++ [])) as Hsel.
  { apply selects_app; [|apply selects_app].
    - apply selects_none, Hout. by left.
    - apply selects_all. intros n Hn.
      apply (wf_slice_reaches root_pid c pid t e Hwf Hfind Hl); [|done].
      by eapply elem_of_slice.
    - apply selects_none, Hout. by right. }
  rewrite (slice_app _ (S t) e) in Hsel by lia.
  rewrite (slice_app _ 0 (S t)) in Hsel by lia.
  by rewrite slice_all, app_nil_l, app_nil_r in Hsel.
Qed.

Lemma signal_cases fuel os sig :
  size c ≤ fuel →
  signal_all_descendants fuel os c pid sig =
  if decide (length (slice (nodes c) (S t) e) ≤ 1000)
  then Done (extend (init_result None) (ids (slice (nodes c) (S t) e)))
            ((λ n, Signalled (id (data n)) sig) <$> slice (nodes c) (S t) e)
  else Crash (OutOfBounds 1000).
Proof.
  intros Hfuel. unfold signal_all_descendants. rewrite Hfind.
  rewrite (signal_loop root_pid c os pid sig fuel (nodes c) _ Hwf Hfuel)
    by first [apply selects_below | reflexivity | rewrite init_result_count; lia].
  by rewrite init_result_count, Nat.add_0_l, init_result_capacity.
Qed.

Lemma defunct_descendants_cases fuel :
  size c ≤ fuel →
  get_defunct_descendants fuel c pid =
  filled (init_result (Some "No descendant zombie process/es"))
         (ids (filter (λ n, defunct_flag (data n) = true) (slice (nodes c) (S t) e))).
Proof.
  intros Hfuel. pose proof (laid_bounds _ _ _ Hl).
  rewrite (get_defunct_descendants_laid _ _ _ _ e Hfind Hl)
    by (unfold size, collection_size in Hfuel; lia).
  apply filled_store_all.
Qed.

Lemma kill_zombie_cases fuel os :
  size c ≤ fuel →
  kill_zombie_parents fuel os c pid =
  let zs := filter (λ n, defunct_flag (data n) = true) (slice (nodes c) (S t) e) in
  if decide (length zs ≤ 1000)
  then Done (extend (init_result None)
               ((λ n, parent_id (data n)) <$> filter (λ n, (1 < parent_id (data n))%Z) zs))
            ((λ n, Signalled (parent_id (data n)) SIGKILL)
               <$> filter (λ n, (1 < parent_id (data n))%Z) zs)
  else Crash (OutOfBounds 1000).
Proof.
  intros Hfuel. pose proof (laid_bounds _ _ _ Hl). cbv zeta.
  unfold kill_zombie_parents.
  rewrite (get_defunct_descendants_laid _ _ _ _ e Hfind Hl)
    by (unfold size, collection_size in Hfuel; lia).
  rewrite store_all_extend by (rewrite init_result_count; lia).
  rewrite init_result_count, Nat.add_0_l, init_result_capacity.
  assert (length (ids (zombies_below (nodes c) t e))
          = length (filter (λ n, defunct_flag (data n) = true) (slice (nodes c) (S t) e)))
    as Hlen by (unfold ids, zombies_below; by rewrite length_fmap).
  destruct (decide (length (ids (zombies_below (nodes c) t e)) ≤ RESULT_CAPACITY))
    as [Hfit|Hover];
    destruct (decide (length (filter (λ n, defunct_flag (data n) = true)
                                (slice (nodes c) (S t) e)) ≤ 1000)) as [Hfit'|Hover'];
    try (exfalso; unfold RESULT_CAPACITY in *; lia); [|done].
  rewrite run_bind_lift_Ok.
  change (result_ids (extend _ ?xs)) with xs.
  rewrite kill_parents_loop.
  - unfold killable_parents. by rewrite <- list_fmap_compose.
  - apply Hwf.
  - apply zombies_below_nodes.
  - rewrite init_result_count, init_result_capacity. unfold zombies_below.
    unfold RESULT_CAPACITY. lia.
Qed.
End below.

(** C6 (amended).  In a built tree, for a target that is in it, let [zs] be
    the zombies among the proper descendants of the target, in the order of
    the tree.  When there are at most 1000 of them,
    [get_defunct_descendants] returns their pids and [kill_zombie_parents]
    goes through them in order, sends [SIGKILL] to the [parent_id] of a
    zombie, and records it, exactly when that [parent_id] is greater than
    1; nothing is removed from the result: a parent of several zombies is
    signalled and recorded once for each of them.  With more than 1000
    zombies nothing is signalled: collecting them faults on the store at
    index 1000. *)
Theorem kill_zombie_parents_signals_parents_above_init
    fuel snap root_pid c os pid t fuel' :
  built fuel snap root_pid c →
  find_node_by_pid c pid = Some t → size c ≤ fuel' →
  ∃ ds : list ProcessNode,
    ds `sublist_of` nodes c ∧
    (∀ n, n ∈ nodes c → n ∈ ds ↔ reaches (nodes c) pid (parent n)) ∧
    let zs := filter (λ n, defunct_flag (data n) = true) ds in
    (length zs ≤ 1000 →
     get_defunct_descendants fuel' c pid =
       Ok (extend (init_result (Some "No descendant zombie process/es")) (ids zs)) ∧
     kill_zombie_parents fuel' os c pid =
       Done (extend (init_result None)
               ((λ n, parent_id (data n))
                  <$> filter (λ n, (1 < parent_id (data n))%Z) zs))
            ((λ n, Signalled (parent_id (data n)) SIGKILL)
               <$> filter (λ n, (1 < parent_id (data n))%Z) zs)) ∧
    (1000 < length zs →
     kill_zombie_parents fuel' os c pid = Crash (OutOfBounds 1000)).
Proof.
  intros [->|Hwf]%built_cases Hfind Hfuel; [done|].
  pose proof (find_node_by_pid_lt _ _ _ Hfind) as Hlt.
  destruct (wf_subtree _ _ Hwf t Hlt) as (e & Hl & He).
  exists (slice (nodes c) (S t) e).
  split; [apply slice_sublist|]. split; [by apply (wf_slice_reaches root_pid)|].
  cbv zeta. rewrite (kill_zombie_cases root_pid c pid t e Hwf Hfind Hl _ os Hfuel).
  rewrite (defunct_descendants_cases c pid t e Hfind Hl _ Hfuel).
  unfold filled, ids. rewrite length_fmap. cbv zeta. split.
  - intros Hfit. by rewrite !decide_True by done.
  - intros Hover. by rewrite decide_False by lia.
Qed.

Lemma kill_zombie_parents_signals_parents_above_init_witness :
  ∃ ds : list ProcessNode,
    ds `sublist_of` nodes zombie_family_tree ∧
    (∀ n, n ∈ nodes zombie_family_tree →
       n ∈ ds ↔ reaches (nodes zombie_family_tree) 1 (parent n)) ∧
    let zs := filter (λ n, defunct_flag (data n) = true) ds in
    (length zs ≤ 1000 →
     get_defunct_descendants 4 zombie_family_tree 1 =
       Ok (extend (init_result (Some "No descendant zombie process/es")) (ids zs)) ∧
     kill_zombie_parents 4 no_answer zombie_family_tree 1 =
       Done (extend (init_result None)
               ((λ n, parent_id (data n))
                  <$> filter (λ n, (1 < parent_id (data n))%Z) zs))
            ((λ n, Signalled (parent_id (data n)) SIGKILL)
               <$> filter (λ n, (1 < parent_id (data n))%Z) zs)) ∧
    (1000 < length zs →
     kill_zombie_parents 4 no_answer zombie_family_tree 1 = Crash (OutOfBounds 1000)).
Proof.
  apply (kill_zombie_parents_signals_parents_above_init 5 zombie_family 1
           zombie_family_tree no_answer 1 0 4);
    [reflexivity|reflexivity|vm_compute; lia].
Defined.

Lemma filled_ids r (ds : list ProcessNode) :
  filled r (ids ds) =
  if decide (length ds ≤ 1000) then Ok (extend r (ids ds)) else Err (OutOfBounds 1000).
Proof. unfold filled, ids. by rewrite length_fmap. Qed.

(** C9. Every command collects its result in the block of 1000 ints that
    [init_result] allocates, and none of them checks a store.  On a built
    tree, for a target in it and whatever the command of the registry: when
    it returns, its result has at most 1000 ids, and the only store outside
    the block it can fault on is the one at index 1000.  And for each
    command the ids it matches decide which of the two happens: the
    children, the grandchildren, the nodes an even number of links below,
    the siblings, the zombies among the siblings, the zombies below the
    target, all the nodes below it for the three signals, and again the
    zombies below it for [--pz].  With at most 1000 of them the command
    returns them, all stores inside the block; with more than 1000 it
    faults on the store at index 1000.  The three commands that store
    nothing return the empty block. *)
Theorem result_buffer_holds_1000_ids fuel snap root_pid c os pid t nt fuel' :
  built fuel snap root_pid c →
  find_node_by_pid c pid = Some t → nodes c !! t = Some nt → size c ≤ fuel' →
  (∀ msg, result_capacity (init_result msg) = 1000 ∧ count (init_result msg) = 0) ∧
  (∀ m res trace, m ∈ command_registry → handler m fuel' os c pid = Done res trace →
     result_capacity res = 1000 ∧ count res ≤ 1000) ∧
  (∀ m k, m ∈ command_registry → handler m fuel' os c pid = Crash (OutOfBounds k) →
     k = 1000) ∧
  ∃ kns gs es ss ds : list ProcessNode,
    Forall2 (λ k kn, nodes c !! k = Some kn) (children nt) kns ∧
    (gs `sublist_of` nodes c ∧
     ∀ i n, nodes c !! i = Some n → n ∈ gs ↔ ancestor (nodes c) 2 i = Some t) ∧
    (es `sublist_of` nodes c ∧
     ∀ i n, nodes c !! i = Some n →
       n ∈ es ↔ ∃ k, ancestor (nodes c) (2 * S k) i = Some t) ∧
    (NoDup (ids ss) ∧
     ∀ n, n ∈ ss ↔ n ∈ nodes c ∧ is_Some (parent n) ∧ parent n = parent nt ∧
                    id (data n) ≠ pid) ∧
    (ds `sublist_of` nodes c ∧
     ∀ n, n ∈ nodes c → n ∈ ds ↔ reaches (nodes c) pid (parent n)) ∧
    let zs := filter (λ n, defunct_flag (data n) = true) ds in
    handle_immediate_descendants fuel' os c pid =
      lift (filled (init_result (Some "No direct descendants")) (ids kns)) ∧
    handle_grandchildren fuel' os c pid =
      lift (filled (init_result (Some "No grandchildren")) (ids gs)) ∧
    handle_non_direct_descendants fuel' os c pid =
      lift (filled (init_result (Some "No non-direct descendants")) (ids es)) ∧
    handle_siblings fuel' os c pid =
      lift (filled (init_result (Some "No sibling/s")) (ids ss)) ∧
    handle_defunct_siblings fuel' os c pid =
      lift (filled (init_result (Some "No defunct sibling/s"))
              (ids (filter (λ n, defunct_flag (data n) = true) ss))) ∧
    handle_defunct_descendants fuel' os c pid =
      lift (filled (init_result (Some "No descendant zombie process/es")) (ids zs)) ∧
    (∀ sig (h : CommandFunction),
       (sig, h) ∈ [(SIGKILL, handle_kill_descendants);
                   (SIGSTOP, handle_stop_descendants);
                   (SIGCONT, handle_continue_descendants)] →
       h fuel' os c pid =
       if decide (length ds ≤ 1000)
       then Done (extend (init_result None) (ids ds))
                 ((λ n, Signalled (id (data n)) sig) <$> ds)
       else Crash (OutOfBounds 1000)) ∧
    handle_kill_zombie_parents fuel' os c pid =
      (if decide (length zs ≤ 1000)
       then Done (extend (init_result None)
                    ((λ n, parent_id (data n))
                       <$> filter (λ n, (1 < parent_id (data n))%Z) zs))
                 ((λ n, Signalled (parent_id (data n)) SIGKILL)
                    <$> filter (λ n, (1 < parent_id (data n))%Z) zs)
       else Crash (OutOfBounds 1000)) ∧
    (∀ h : CommandFunction,
       h ∈ [handle_count_defunct; handle_process_status; handle_kill_root] →
       ∃ trace, h fuel' os c pid = Done (init_result None) trace).
Proof.
  intros [->|Hwf]%built_cases Hfind Hnt Hfuel; [done|].
  pose proof (find_node_by_pid_lt _ _ _ Hfind) as Hlt.
  destruct (wf_subtree _ _ Hwf t Hlt) as (e & Hl & He).
  split; [done|]. split.
  { intros m res trace Hm Heq.
    pose proof (handlers_bounded m fuel' os c pid Hm) as Hb. by rewrite Heq in Hb. }
  split.
  { intros m k Hm Heq.
    pose proof (handlers_bounded m fuel' os c pid Hm) as Hb. by rewrite Heq in Hb. }
  destruct (wf_children_nodes _ _ _ _ Hwf Hnt) as [kns Hkns].
  destruct (grandchildren_cases _ _ _ _ Hwf Hfind) as (gs & Hgsub & Hgs & Hgeq).
  destruct (indirect_cases _ _ _ _ _ Hwf Hfind Hfuel) as (es & Hesub & Hes & Heeq).
  destruct (siblings_cases _ _ _ _ _ Hwf Hfind Hnt)
    as (ss & Hnd & _ & _ & Hss & Hseq & Hzeq).
  exists kns, gs, es, ss, (slice (nodes c) (S t) e).
  split; [done|]. split; [done|]. split; [done|]. split; [done|].
  split; [split; [apply slice_sublist|by apply (wf_slice_reaches root_pid)]|].
  cbv zeta. split_and!.
  - unfold handle_immediate_descendants, get_direct_descendants.
    rewrite Hfind, (deref_Some _ _ _ Hnt). simpl.
    by rewrite (store_children _ _ _ Hkns), filled_store_all.
  - unfold handle_grandchildren. by rewrite Hgeq, filled_ids.
  - unfold handle_non_direct_descendants. by rewrite Heeq, filled_ids.
  - unfold handle_siblings. by rewrite Hseq, filled_ids.
  - unfold handle_defunct_siblings. by rewrite Hzeq, filled_ids.
  - unfold handle_defunct_descendants.
    by rewrite (defunct_descendants_cases c pid t e Hfind Hl _ Hfuel).
  - intros sig h Hh.
    repeat (apply elem_of_cons in Hh as [[= -> ->]|Hh]);
      [apply (signal_cases root_pid c pid t e Hwf Hfind Hl _ os _ Hfuel)..|].
    by apply elem_of_nil in Hh.
  - apply (kill_zombie_cases root_pid c pid t e Hwf Hfind Hl _ os Hfuel).
  - intros h Hh. repeat (apply elem_of_cons in Hh as [->|Hh]).
    + by eexists.
    + unfold handle_process_status.
      rewrite Hfind, (deref_Some _ _ _ Hnt), run_bind_lift_Ok. by eexists.
    + unfold handle_kill_root. rewrite (wf_root _ _ Hwf).
      destruct (wf_root_node _ _ Hwf) as (rn & Hrn & _).
      rewrite (deref_Some _ _ _ Hrn), run_bind_lift_Ok. by eexists.
    + by apply elem_of_nil in Hh.
Qed.

Lemma result_buffer_holds_1000_ids_witness :
  (∀ msg, result_capacity (init_result msg) = 1000 ∧ count (init_result msg) = 0) ∧
  (∀ m res trace, m ∈ command_registry → handler m 4 no_answer scenario_tree 2%Z = Done res trace →
     result_capacity res = 1000 ∧ count res ≤ 1000) ∧
  (∀ m k, m ∈ command_registry → handler m 4 no_answer scenario_tree 2%Z = Crash (OutOfBounds k) →
     k = 1000) ∧
  ∃ kns gs es ss ds : list ProcessNode,
    Forall2 (λ k kn, nodes scenario_tree !! k = Some kn) [2] kns ∧
    (gs `sublist_of` nodes scenario_tree ∧
     ∀ i n, nodes scenario_tree !! i = Some n → n ∈ gs ↔ ancestor (nodes scenario_tree) 2 i = Some 1) ∧
    (es `sublist_of` nodes scenario_tree ∧
     ∀ i n, nodes scenario_tree !! i = Some n →
       n ∈ es ↔ ∃ k, ancestor (nodes scenario_tree) (2 * S k) i = Some 1) ∧
    (NoDup (ids ss) ∧
     ∀ n, n ∈ ss ↔ n ∈ nodes scenario_tree ∧ is_Some (parent n) ∧ parent n = Some 0 ∧
                    id (data n) ≠ 2%Z) ∧
    (ds `sublist_of` nodes scenario_tree ∧
     ∀ n, n ∈ nodes scenario_tree → n ∈ ds ↔ reaches (nodes scenario_tree) 2%Z (parent n)) ∧
    let zs := filter (λ n, defunct_flag (data n) = true) ds in
    handle_immediate_descendants 4 no_answer scenario_tree 2%Z =
      lift (filled (init_result (Some "No direct descendants")) (ids kns)) ∧
    handle_grandchildren 4 no_answer scenario_tree 2%Z =
      lift (filled (init_result (Some "No grandchildren")) (ids gs)) ∧
    handle_non_direct_descendants 4 no_answer scenario_tree 2%Z =
      lift (filled (init_result (Some "No non-direct descendants")) (ids es)) ∧
    handle_siblings 4 no_answer scenario_tree 2%Z =
      lift (filled (init_result (Some "No sibling/s")) (ids ss)) ∧
    handle_defunct_siblings 4 no_answer scenario_tree 2%Z =
      lift (filled (init_result (Some "No defunct sibling/s"))
              (ids (filter (λ n, defunct_flag (data n) = true) ss))) ∧
    handle_defunct_descendants 4 no_answer scenario_tree 2%Z =
      lift (filled (init_result (Some "No descendant zombie process/es")) (ids zs)) ∧
    (∀ sig (h : CommandFunction),
       (sig, h) ∈ [(SIGKILL, handle_kill_descendants);
                   (SIGSTOP, handle_stop_descendants);
                   (SIGCONT, handle_continue_descendants)] →
       h 4 no_answer scenario_tree 2%Z =
       if decide (length ds ≤ 1000)
       then Done (extend (init_result None) (ids ds))
                 ((λ n, Signalled (id (data n)) sig) <$> ds)
       else Crash (OutOfBounds 1000)) ∧
    handle_kill_zombie_parents 4 no_answer scenario_tree 2%Z =
      (if decide (length zs ≤ 1000)
       then Done (extend (init_result None)
                    ((λ n, parent_id (data n))
                       <$> filter (λ n, (1 < parent_id (data n))%Z) zs))
                 ((λ n, Signalled (parent_id (data n)) SIGKILL)
                    <$> filter (λ n, (1 < parent_id (data n))%Z) zs)
       else Crash (OutOfBounds 1000)) ∧
    (∀ h : CommandFunction,
       h ∈ [handle_count_defunct; handle_process_status; handle_kill_root] →
       ∃ trace, h 4 no_answer scenario_tree 2%Z = Done (init_result None) trace).
Proof.
  apply (result_buffer_holds_1000_ids 5 scenario 1 scenario_tree no_answer 2 1
           (mkNode (mkMetadata 2 1 true) (Some 0) [2]) 4);
    [reflexivity|reflexivity|reflexivity|vm_compute; lia].
Defined.
